(** * C-minus front end: the recursive-descent parser of [parser.cpp]

    A shallow embedding of the parser of the C-minus compiler, together with
    the parts of the scanner, of the diagnostics and of the semantic actions
    that the parser drives, and the properties of the parser that the
    specification of the compiler states. *)

From Stdlib Require Import ZArith Ascii String List Lia Bool.
From stdpp Require Import gmap strings list.

Set Warnings "-register-all".

Local Open Scope string_scope.

(** ** Source locations ([sourceman.hpp]) *)

(** [SourceLocation] is a [const char*] into the source text: an offset. *)
Definition SourceLocation := nat.

(** [SourceRange] is a [std::string_view] into the source text. *)
Record SourceRange := mkRange {
  range_begin : SourceLocation;
  range_text : string;
}.

(** ** Words ([scanner.hpp]) *)

(** Category of a classified word.  The enumerators from [Identifier] to
    [CloseCurly] are those of [enum class Category] in [scanner.hpp], in
    their order: the categories of the words of a source.  [Eof] is the
    category [Parser::parse_program] compares [peek_word.category] with
    ([Category::Eof]), the sentinel of the end of the input; the
    [scanner.hpp] at hand is older than [parser.cpp] (it has no
    [Word::location] and no [Scanner::get_source] either, which
    [parser.cpp] calls) and does not list it yet. *)
Inductive Category : Type :=
| Identifier
| Number
| Else
| If
| Int
| Return
| Void
| While
| Plus
| Minus
| Multiply
| Divide
| Less
| LessEqual
| Greater
| GreaterEqual
| Equal
| NotEqual
| Assign
| Semicolon
| Comma
| OpenParen
| CloseParen
| OpenBracket
| CloseBracket
| OpenCurly
| CloseCurly
| Eof.

#[global] Instance Category_eq_dec : EqDecision Category.
Proof. solve_decision. Defined.

(** The categories of the words of a source: the enumerators that
    [enum class Category] of [scanner.hpp] declares. *)
Definition declared_categories : list Category :=
  [ Identifier; Number;
    Else; If; Int; Return; Void; While;
    Plus; Minus; Multiply; Divide; Less; LessEqual; Greater; GreaterEqual;
    Equal; NotEqual; Assign; Semicolon; Comma; OpenParen; CloseParen;
    OpenBracket; CloseBracket; OpenCurly; CloseCurly ].

(** Classified word. *)
Record Word := mkWord {
  category : Category;
  lexeme : SourceRange;
}.

Definition location (w : Word) : SourceLocation := range_begin (lexeme w).

(** ** Diagnostics ([diagnostics.hpp]) *)

Inductive Diag : Type :=
| lexer_bad_number
| lexer_bad_char
| lexer_unclosed_comment
| parser_expected_token (* %0 => Category *)
| parser_expected_type
| parser_expected_expression
| parser_expected_statement
| parser_number_too_big
| sema_redefinition (* %0 => SymbolName *)
| sema_undeclared_identifier (* %0 => SymbolName *)
| sema_fun_is_not_a_fun
| sema_var_is_not_a_var
| sema_var_cannot_be_void.

#[global] Instance Diag_eq_dec : EqDecision Diag.
Proof. solve_decision. Defined.

(** [DiagParam] is [std::variant<Category, SourceRange>]. *)
Inductive DiagParam : Type :=
| ParamCategory (c : Category)
| ParamRange (r : SourceRange).

Record Diagnostic := mkDiagnostic {
  loc : SourceLocation;
  code : Diag;
  args : list DiagParam;
  ranges : list SourceRange;
}.

(** ** The scanner *)

(** Modelled from the spec: [Scanner::next_word] ([scanner.cpp] is not part
    of the sources at hand), run to the end of the source.  Whitespace and
    comments are skipped; an identifier is a run of letters, looked up among
    the keywords; a number is a run of digits, and a letter right after it
    makes the run a bad number, which is reported and skipped; any other
    character that starts no operator is reported and skipped. *)
Definition is_letter (c : ascii) : bool :=
  let n := nat_of_ascii c in
  ((65 <=? n) && (n <=? 90) || (97 <=? n) && (n <=? 122))%nat.

Definition is_digit (c : ascii) : bool :=
  let n := nat_of_ascii c in
  ((48 <=? n) && (n <=? 57))%nat.

Definition is_space (c : ascii) : bool :=
  let n := nat_of_ascii c in
  ((n =? 32) || (9 <=? n) && (n <=? 13))%nat.

Fixpoint span (f : ascii → bool) (s : string) : string * string :=
  match s with
  | String c s' =>
      if f c then (String c (fst (span f s')), snd (span f s')) else (EmptyString, s)
  | EmptyString => (EmptyString, EmptyString)
  end.

(** The text after the end of the comment whose opening has been read, with
    the number of characters skipped; [None] when the comment is not closed. *)
Fixpoint skip_comment (s : string) (skipped : nat) : option (nat * string) :=
  match s with
  | String "*" (String "/" s') => Some (skipped + 2, s')
  | String _ s' => skip_comment s' (S skipped)
  | EmptyString => None
  end.

Definition keyword_or_identifier (s : string) : Category :=
  if String.eqb s "else" then Else
  else if String.eqb s "if" then If
  else if String.eqb s "int" then Int
  else if String.eqb s "return" then Return
  else if String.eqb s "void" then Void
  else if String.eqb s "while" then While
  else Identifier.

(** The operator or punctuation that [s] starts with, and its length. *)
Definition operator (s : string) : option (Category * nat) :=
  match s with
  | String "<" (String "=" _) => Some (LessEqual, 2)
  | String ">" (String "=" _) => Some (GreaterEqual, 2)
  | String "=" (String "=" _) => Some (Equal, 2)
  | String "!" (String "=" _) => Some (NotEqual, 2)
  | String "<" _ => Some (Less, 1)
  | String ">" _ => Some (Greater, 1)
  | String "=" _ => Some (Assign, 1)
  | String "+" _ => Some (Plus, 1)
  | String "-" _ => Some (Minus, 1)
  | String "*" _ => Some (Multiply, 1)
  | String "/" _ => Some (Divide, 1)
  | String ";" _ => Some (Semicolon, 1)
  | String "," _ => Some (Comma, 1)
  | String "(" _ => Some (OpenParen, 1)
  | String ")" _ => Some (CloseParen, 1)
  | String "[" _ => Some (OpenBracket, 1)
  | String "]" _ => Some (CloseBracket, 1)
  | String "{" _ => Some (OpenCurly, 1)
  | String "}" _ => Some (CloseCurly, 1)
  | _ => None
  end.

Fixpoint drop_chars (n : nat) (s : string) : string :=
  match n, s with
  | S n, String _ s' => drop_chars n s'
  | _, _ => s
  end.

Definition add_word (w : Word) (r : list Word * list Diagnostic)
    : list Word * list Diagnostic :=
  (w :: fst r, snd r).

Definition add_diag (d : Diagnostic) (r : list Word * list Diagnostic)
    : list Word * list Diagnostic :=
  (fst r, d :: snd r).

Fixpoint scan (fuel : nat) (pos : SourceLocation) (s : string)
    : list Word * list Diagnostic :=
  match fuel with
  | O => ([], [])
  | S fuel =>
      match s with
      | EmptyString => ([], [])
      | String c rest =>
          if is_space c then scan fuel (S pos) rest
          else if is_letter c then
            let lex := fst (span is_letter s) in
            add_word (mkWord (keyword_or_identifier lex) (mkRange pos lex))
                     (scan fuel (pos + String.length lex) (snd (span is_letter s)))
          else if is_digit c then
            let lex := fst (span is_digit s) in
            let after := snd (span is_digit s) in
            match after with
            | String c' _ =>
                if is_letter c'
                then
                  let run := fst (span (fun x => is_letter x || is_digit x) s) in
                  add_diag (mkDiagnostic pos lexer_bad_number [] [])
                           (scan fuel (pos + String.length run)
                                 (snd (span (fun x => is_letter x || is_digit x) s)))
                else add_word (mkWord Number (mkRange pos lex))
                              (scan fuel (pos + String.length lex) after)
            | EmptyString => add_word (mkWord Number (mkRange pos lex)) ([], [])
            end
          else
            match c, rest with
            | "/"%char, String "*" body =>
                match skip_comment body 2 with
                | Some (k, after) => scan fuel (pos + k) after
                | None => ([], [mkDiagnostic pos lexer_unclosed_comment [] []])
                end
            | _, _ =>
                match operator s with
                | Some (cat, k) =>
                    add_word (mkWord cat (mkRange pos (String.substring 0 k s)))
                             (scan fuel (pos + k) (drop_chars k s))
                | None =>
                    add_diag (mkDiagnostic pos lexer_bad_char [] []) (scan fuel (S pos) rest)
                end
            end
      end
  end.

(** The word stream and the lexical diagnostics of a source text. *)
Definition scan_source (src : string) : list Word * list Diagnostic :=
  scan (S (String.length src)) 0 src.

(** ** The abstract syntax tree *)

(** Modelled from the spec: the AST node variants ([ast.hpp] is not part of
    the sources at hand).  Section 3 of the specification gives the closed
    sum below.  Cross references to declarations are weak references: a
    variable reference holds the symbol it resolved to, a call holds the
    index of the callee's [FunDecl] in the store of function declarations;
    both are [None] when resolution failed. *)
Inductive ExprType : Type := TyInt | TyVoid | TyIntArray.

Record VarDecl := mkVarDecl {
  var_type : ExprType;
  var_name : string;
  array_size : option Z;
}.

Record ParmVarDecl := mkParmVarDecl {
  parm_type : ExprType;
  parm_name : string;
  is_array : bool;
}.

(** What a name is bound to in a scope.  A function is bound to the index of
    its [FunDecl] in the store, which the parser keeps filling in while the
    binding already exists. *)
Inductive Symbol : Type :=
| SymVar (d : VarDecl)
| SymParm (d : ParmVarDecl)
| SymFun (id : nat).

Inductive Expr : Type :=
| ENumber (value : Z)
| EVarRef (decl : option Symbol) (index : option Expr)
| EFunCall (decl : option nat) (args : list Expr)
| EBinaryExpr (op : Category) (lhs rhs : Expr).

Inductive Stmt : Type :=
| NullStmt
| CompoundStmt (decls : list VarDecl) (stmts : list Stmt)
| SelectionStmt (cond : Expr) (then_stmt : Stmt) (else_stmt : option Stmt)
| IterationStmt (cond : Expr) (body : Stmt)
| ReturnStmt (expr : option Expr) (return_word : Word)
| ExprStmt (expr : Expr).

Record FunDecl := mkFunDecl {
  retn : ExprType;
  fun_name : string;
  params : list ParmVarDecl;
  fun_body : option Stmt;
}.

Inductive Decl : Type :=
| DVar (d : VarDecl)
| DParm (d : ParmVarDecl)
| DFun (d : FunDecl).

Record Program := mkProgram {
  program_decls : list Decl;
}.

(** [ASTExpr::as_var_expr]: the node itself when it is a [VarRef], else null. *)
Definition as_var_expr (e : Expr) : option Expr :=
  match e with
  | EVarRef _ _ => Some e
  | _ => None
  end.

(** ** Scopes and the state of the semantic actions *)

(** Modelled from the spec: the scope stack of [Semantics] ([semantics.hpp]
    is not part of the sources at hand).  A stack of frames, each a mapping
    from name to declaration, with the frame flags [CompoundStmt],
    [FunParamsScope] and [FunScope]. *)
Record ScopeFlags := mkFlags {
  flag_CompoundStmt : bool;
  flag_FunParamsScope : bool;
  flag_FunScope : bool;
}.

#[global] Instance ScopeFlags_eq_dec : EqDecision ScopeFlags.
Proof. solve_decision. Defined.

Definition NoFlags : ScopeFlags := mkFlags false false false.
Definition CompoundStmtFlag : ScopeFlags := mkFlags true false false.
Definition FunParamsScope : ScopeFlags := mkFlags false true false.
Definition FunScope : ScopeFlags := mkFlags false false true.

(** [operator|] on [ScopeFlags]. *)
Definition flags_or (a b : ScopeFlags) : ScopeFlags :=
  mkFlags (flag_CompoundStmt a || flag_CompoundStmt b)
          (flag_FunParamsScope a || flag_FunParamsScope b)
          (flag_FunScope a || flag_FunScope b).

Record Scope := mkScope {
  scope_flags : ScopeFlags;
  symbols : gmap string Symbol;
}.

Record Semantics := mkSemantics {
  scopes : list Scope;        (* innermost frame first *)
  fun_decls : list FunDecl;   (* the FunDecl objects, shared by reference *)
}.

(** ** The parser state *)

(** Modelled from the spec: the members of [class Parser] ([parser.hpp] is
    not part of the sources at hand).  The scanner's word stream and the
    three-word window over it are kept as the list of the words not consumed
    yet: the window shows its first three words, and [Eof] words past its
    end.  The diagnostic manager is the list of the diagnostics emitted so
    far, oldest first. *)
Record Parser := mkParser {
  words : list Word;
  source_end : SourceLocation;
  diags : list Diagnostic;
  sema : Semantics;
}.

Definition set_words (ws : list Word) (p : Parser) : Parser :=
  mkParser ws (source_end p) (diags p) (sema p).

Definition set_sema (s : Semantics) (p : Parser) : Parser :=
  mkParser (words p) (source_end p) (diags p) s.

(** [DiagnosticManager::report]: builds the diagnostic and emits it. *)
Definition report (l : SourceLocation) (d : Diag) (a : list DiagParam)
    (p : Parser) : Parser :=
  mkParser (words p) (source_end p) (diags p ++ [mkDiagnostic l d a []]) (sema p).

Definition eof_word (p : Parser) : Word :=
  mkWord Eof (mkRange (source_end p) "").

(** Modelled from the spec: [Parser::lookahead], the [n]-th word of the
    window ([lookahead(0)] is [peek_word]); end of input shows as [Eof]. *)
Definition lookahead (n : nat) (p : Parser) : Word :=
  nth n (words p) (eof_word p).

Definition peek_word (p : Parser) : Word := lookahead 0 p.

(** Modelled from the spec: [Parser::consume] takes [peek_word] out of the
    window, which is replenished from the scanner. *)
Definition advance (p : Parser) : Parser := set_words (tail (words p)) p.

Definition consume (p : Parser) : Word * Parser := (peek_word p, advance p).

(** Modelled from the spec: [Parser::try_consume] consumes [peek_word] only
    when its category is one of those given. *)
Definition try_consume (cs : list Category) (p : Parser) : option Word * Parser :=
  if bool_decide (category (peek_word p) ∈ cs)
  then (Some (peek_word p), snd (consume p))
  else (None, p).

(** Modelled from the spec: [Parser::expect_and_consume] behaves like
    [try_consume], and on a miss emits [parser_expected_token] with the
    expected category as argument. *)
Definition expect_and_consume (c : Category) (p : Parser) : option Word * Parser :=
  match try_consume [c] p with
  | (Some w, p') => (Some w, p')
  | (None, _) =>
      (None, report (location (peek_word p)) parser_expected_token [ParamCategory c] p)
  end.

(** ** Calls that return a node or null *)

(** A call of a helper or of a semantic action: it always returns, a value
    or null ([None]). *)
Definition Step (A : Type) : Type := Parser → option A * Parser.

(** The outcome of a call of a production: it returned (a node or null) in
    a new state, or the recursion budget of the model ran out. *)
Inductive Outcome (A : Type) : Type :=
| Returns (r : option A) (p : Parser)
| OutOfFuel.
Arguments Returns {A} r p.
Arguments OutOfFuel {A}.

Definition Action (A : Type) : Type := Parser → Outcome A.

Definition pure {A} (a : A) : Step A := fun p => (Some a, p).

Definition ret {A} (a : A) : Action A := fun p => Returns (Some a) p.

(** Reading the state: [peek_word.category == c], [lookahead(n).category]. *)
Definition get {A} (f : Parser → A) : Action A := fun p => Returns (Some (f p)) p.

Definition run {A} (s : Step A) : Action A :=
  fun p => Returns (fst (s p)) (snd (s p)).

(** [if(auto x = m()) k(x); else return nullptr;] *)
Definition bind {A B} (m : Action A) (k : A → Action B) : Action B :=
  fun p =>
    match m p with
    | Returns (Some a) p' => k a p'
    | Returns None p' => Returns None p'
    | OutOfFuel => OutOfFuel
    end.

(** A call whose null result is a value, not a failure. *)
Definition optional {A} (s : Step A) : Step (option A) :=
  fun p => (Some (fst (s p)), snd (s p)).

Notation "'let*' x ':=' m 'in' k" := (bind m (fun x => k))
  (at level 10, x pattern, m at level 100, k at level 200).

Definition peek_is (c : Category) (p : Parser) : bool :=
  bool_decide (category (peek_word p) = c).

Definition lookahead_is (n : nat) (c : Category) (p : Parser) : bool :=
  bool_decide (category (lookahead n p) = c).

(** [consume()] as a call. *)
Definition consume_word : Step Word :=
  fun p => (Some (fst (consume p)), snd (consume p)).

(** [diagman.report(scanner.get_source(), peek_word.location(), d);
     return nullptr;] *)
Definition report_at_peek {A} (d : Diag) : Step A :=
  fun p => (None, report (location (peek_word p)) d [] p).

(** ** Semantic actions *)

(** Modelled from the spec: [Scope] lookup searches the frames inner to
    outer. *)
Fixpoint scope_lookup (name : string) (ss : list Scope) : option Symbol :=
  match ss with
  | [] => None
  | s :: outer =>
      match symbols s !! name with
      | Some sym => Some sym
      | None => scope_lookup name outer
      end
  end.

(** Modelled from the spec: insertion into the current frame fails if the
    name exists in the current frame. *)
Definition scope_insert (name : string) (sym : Symbol) (ss : list Scope)
    : option (list Scope) :=
  match ss with
  | [] => None
  | s :: outer =>
      match symbols s !! name with
      | Some _ => None
      | None => Some (mkScope (scope_flags s) (<[name := sym]> (symbols s)) :: outer)
      end
  end.

(** Modelled from the spec: the scoped acquisition object [ParseScope]
    pushes a frame on construction ... *)
Definition enter_scope (flags : ScopeFlags) (p : Parser) : Parser :=
  set_sema (mkSemantics (mkScope flags ∅ :: scopes (sema p)) (fun_decls (sema p))) p.

(** ... and pops it on destruction. *)
Definition leave_scope (p : Parser) : Parser :=
  set_sema (mkSemantics (tail (scopes (sema p))) (fun_decls (sema p))) p.

(** [{ ParseScope scope(sema, flags); body }]: the frame is popped on every
    way out of the block, the early [return nullptr] included. *)
Definition with_scope {A} (flags : ScopeFlags) (body : Action A) : Action A :=
  fun p =>
    match body (enter_scope flags p) with
    | Returns r p' => Returns r (leave_scope p')
    | OutOfFuel => OutOfFuel
    end.

Definition name_of (w : Word) : string := range_text (lexeme w).

Definition type_of_word (w : Word) : ExprType :=
  if bool_decide (category w = Void) then TyVoid else TyInt.

(** Installs [sym] under the name of [id] in the current frame, or reports
    [sema_redefinition] when the frame has the name already. *)
Definition declare (id : Word) (sym : Symbol) (p : Parser) : Parser :=
  match scope_insert (name_of id) sym (scopes (sema p)) with
  | Some ss => set_sema (mkSemantics ss (fun_decls (sema p))) p
  | None => report (location id) sema_redefinition [ParamRange (lexeme id)] p
  end.

Definition act_on_program_start : Step Program :=
  fun p => (Some (mkProgram []), enter_scope NoFlags p).

Definition act_on_program_end (program : Program) : Step Program :=
  fun p => (Some program, leave_scope p).

Definition act_on_top_level_decl (program : Program) (decl : Decl) : Step Program :=
  pure (mkProgram (program_decls program ++ [decl])).

Definition number_value (e : Expr) : option Z :=
  match e with
  | ENumber v => Some v
  | _ => None
  end.

Definition act_on_var_decl (type id : Word) (num : option Expr) : Step VarDecl :=
  fun p =>
    let size := num ≫= number_value in
    let ty := match size with
              | Some _ => TyIntArray
              | None => type_of_word type
              end in
    let decl := mkVarDecl ty (name_of id) size in
    if bool_decide (category type = Void)
    then (Some decl, report (location id) sema_var_cannot_be_void [] p)
    else (Some decl, declare id (SymVar decl) p).

Definition act_on_param_decl (type id : Word) (is_array : bool) : Step ParmVarDecl :=
  fun p =>
    let ty := if is_array then TyIntArray else type_of_word type in
    let decl := mkParmVarDecl ty (name_of id) is_array in
    if bool_decide (category type = Void)
    then (Some decl, report (location id) sema_var_cannot_be_void [] p)
    else (Some decl, declare id (SymParm decl) p).

(** The shell is appended to the store and bound in the current frame, which
    is the frame enclosing the function; the result is the reference to the
    shell. *)
Definition act_on_fun_decl_start (retn id : Word) : Step nat :=
  fun p =>
    let fid := length (fun_decls (sema p)) in
    let shell := mkFunDecl (type_of_word retn) (name_of id) [] None in
    let p1 := set_sema (mkSemantics (scopes (sema p)) (fun_decls (sema p) ++ [shell])) p in
    (Some fid, declare id (SymFun fid) p1).

Definition update_fun (fid : nat) (f : FunDecl → FunDecl) (p : Parser) : Parser :=
  set_sema (mkSemantics (scopes (sema p))
                        (alter f fid (fun_decls (sema p)))) p.

(** [fun_decl->add_param(param)] *)
Definition add_param (fid : nat) (param : ParmVarDecl) : Step unit :=
  fun p =>
    (Some tt,
     update_fun fid (fun d => mkFunDecl (retn d) (fun_name d) (params d ++ [param]) (fun_body d)) p).

(** [fun_decl->set_body(comp_stmt)] *)
Definition set_body (fid : nat) (comp_stmt : Stmt) : Step unit :=
  fun p =>
    (Some tt,
     update_fun fid (fun d => mkFunDecl (retn d) (fun_name d) (params d) (Some comp_stmt)) p).

(** The completed node is the object that [fid] refers to. *)
Definition act_on_fun_decl_end (fid : nat) : Step FunDecl :=
  fun p => (Some (default (mkFunDecl TyVoid "" [] None) (fun_decls (sema p) !! fid)), p).

Definition act_on_null_stmt : Step Stmt := pure NullStmt.

Definition act_on_expr_stmt (expr : Expr) : Step Stmt := pure (ExprStmt expr).

Definition act_on_compound_stmt (decls : list VarDecl) (stms : list Stmt) : Step Stmt :=
  pure (CompoundStmt decls stms).

Definition act_on_selection_stmt (expr : Expr) (stmt1 : Stmt) (stmt2 : option Stmt)
    : Step Stmt :=
  pure (SelectionStmt expr stmt1 stmt2).

Definition act_on_iteration_stmt (expr : Expr) (stmt : Stmt) : Step Stmt :=
  pure (IterationStmt expr stmt).

Definition act_on_return_stmt (expr : option Expr) (return_word : Word) : Step Stmt :=
  pure (ReturnStmt expr return_word).

Definition digit_value (c : ascii) : Z := Z.of_nat (nat_of_ascii c) - 48.

Fixpoint decimal_value (s : string) (acc : Z) : Z :=
  match s with
  | EmptyString => acc
  | String c s' => decimal_value s' (10 * acc + digit_value c)
  end.

Definition INT32_MAX : Z := 2147483647.

Definition act_on_number (word : Word) : Step Expr :=
  fun p =>
    let v := decimal_value (name_of word) 0 in
    if bool_decide (v ≤ INT32_MAX)%Z
    then (Some (ENumber v), p)
    else (Some (ENumber INT32_MAX), report (location word) parser_number_too_big [] p).

Definition act_on_var (id : Word) (index : option Expr) : Step Expr :=
  fun p =>
    match scope_lookup (name_of id) (scopes (sema p)) with
    | None =>
        (Some (EVarRef None index),
         report (location id) sema_undeclared_identifier [ParamRange (lexeme id)] p)
    | Some (SymFun _) =>
        (Some (EVarRef None index), report (location id) sema_var_is_not_a_var [] p)
    | Some sym => (Some (EVarRef (Some sym) index), p)
    end.

Definition act_on_call (id : Word) (args : list Expr) (rparen_loc : SourceLocation)
    : Step Expr :=
  fun p =>
    match scope_lookup (name_of id) (scopes (sema p)) with
    | None =>
        (Some (EFunCall None args),
         report (location id) sema_undeclared_identifier [ParamRange (lexeme id)] p)
    | Some (SymFun fid) => (Some (EFunCall (Some fid) args), p)
    | Some _ => (Some (EFunCall None args), report (location id) sema_fun_is_not_a_fun [] p)
    end.

Definition act_on_assign (lhs rhs : Expr) (op : Word) : Step Expr :=
  pure (EBinaryExpr Assign lhs rhs).

Definition act_on_binary_expr (lhs rhs : Expr) (op : Word) : Step Expr :=
  pure (EBinaryExpr (category op) lhs rhs).

(** ** The parser ([parser.cpp]) *)

(** <type-specifier> ::= int | void *)
Definition expect_and_consume_type : Step Word :=
  fun p =>
    match try_consume [Void; Int] p with
    | (Some type, p') => (Some type, p')
    | (None, _) => report_at_peek parser_expected_type p
    end.

(** NUM *)
Definition parse_number : Action Expr :=
  let* word := run (expect_and_consume Number) in
  run (act_on_number word).

(** <var-declaration> ::= <type-specifier> ID ; | <type-specifier> ID [ NUM ] ; *)
Definition parse_var_declaration : Action VarDecl :=
  let* type := run expect_and_consume_type in
  let* id := run (expect_and_consume Identifier) in
  let* open_bracket := get (peek_is OpenBracket) in
  let* num :=
    (if open_bracket : bool
     then
       let* _ := run consume_word in
       let* num := parse_number in
       let* _ := run (expect_and_consume CloseBracket) in
       ret (Some num)
     else ret None) in
  let* _ := run (expect_and_consume Semicolon) in
  run (act_on_var_decl type id num).

(** <param> ::= <type-specifier> ID | <type-specifier> ID [ ] *)
Definition parse_param : Action ParmVarDecl :=
  let* type := run expect_and_consume_type in
  let* id := run (expect_and_consume Identifier) in
  let* open_bracket := run (optional (try_consume [OpenBracket])) in
  let* is_array :=
    match open_bracket with
    | Some _ =>
        let* _ := run (expect_and_consume CloseBracket) in
        ret true
    | None => ret false
    end in
  run (act_on_param_decl type id is_array).

(** The productions from <expression> down, which call one another. *)

(** <expression> ::= <var> = <expression> | <simple-expression> *)
Fixpoint parse_expression (n : nat) : Action Expr :=
  match n with
  | O => fun _ => OutOfFuel
  | S n =>
      let* expr1 := parse_simple_expression n in
      match as_var_expr expr1 with
      | Some lvalue =>
          let* op_word := run (optional (try_consume [Assign])) in
          match op_word with
          | Some op_word =>
              let* expr2 := parse_expression n in
              run (act_on_assign lvalue expr2 op_word)
          | None => ret expr1
          end
      | None => ret expr1
      end
  end

(** <simple-expression> ::= <additive-expression> <relop> <additive-expression>
                         | <additive-expression> *)
with parse_simple_expression (n : nat) : Action Expr :=
  match n with
  | O => fun _ => OutOfFuel
  | S n =>
      let* expr1 := parse_additive_expression n in
      let* op_word := run (optional (try_consume
                        [LessEqual; Less; Greater; GreaterEqual; Equal; NotEqual])) in
      match op_word with
      | Some op_word =>
          let* expr2 := parse_additive_expression n in
          run (act_on_binary_expr expr1 expr2 op_word)
      | None => ret expr1
      end
  end

(** <additive-expression> ::= <additive-expression> <addop> <term> | <term> *)
with parse_additive_expression (n : nat) : Action Expr :=
  match n with
  | O => fun _ => OutOfFuel
  | S n =>
      let* expr1 := parse_term n in
      additive_loop n expr1
  end

(** The [while] loop of [parse_additive_expression]. *)
with additive_loop (n : nat) (expr1 : Expr) : Action Expr :=
  match n with
  | O => fun _ => OutOfFuel
  | S n =>
      let* op_word := run (optional (try_consume [Plus; Minus])) in
      match op_word with
      | Some op_word =>
          let* expr2 := parse_term n in
          let* expr1 := run (act_on_binary_expr expr1 expr2 op_word) in
          additive_loop n expr1
      | None => ret expr1
      end
  end

(** <term> ::= <term> <mulop> <factor> | <factor> *)
with parse_term (n : nat) : Action Expr :=
  match n with
  | O => fun _ => OutOfFuel
  | S n =>
      let* expr1 := parse_factor n in
      term_loop n expr1
  end

(** The [while] loop of [parse_term]. *)
with term_loop (n : nat) (expr1 : Expr) : Action Expr :=
  match n with
  | O => fun _ => OutOfFuel
  | S n =>
      let* op_word := run (optional (try_consume [Multiply; Divide])) in
      match op_word with
      | Some op_word =>
          let* expr2 := parse_factor n in
          let* expr1 := run (act_on_binary_expr expr1 expr2 op_word) in
          term_loop n expr1
      | None => ret expr1
      end
  end

(** <factor> ::= ( <expression> ) | <var> | <call> | NUM *)
with parse_factor (n : nat) : Action Expr :=
  match n with
  | O => fun _ => OutOfFuel
  | S n =>
      let* cat := get (fun p => category (peek_word p)) in
      match cat with
      | Number => parse_number
      | OpenParen =>
          let* _ := run consume_word in
          let* expr1 := parse_expression n in
          let* _ := run (expect_and_consume CloseParen) in
          ret expr1
      | Identifier =>
          let* call := get (lookahead_is 1 OpenParen) in
          if call : bool then parse_call n else parse_var n
      | _ => run (report_at_peek parser_expected_expression)
      end
  end

(** <var> ::= ID | ID [ <expression> ] *)
with parse_var (n : nat) : Action Expr :=
  match n with
  | O => fun _ => OutOfFuel
  | S n =>
      let* id := run (expect_and_consume Identifier) in
      let* open_bracket := get (peek_is OpenBracket) in
      let* index :=
        (if open_bracket : bool
         then
           let* _ := run consume_word in
           let* index := parse_expression n in
           let* _ := run (expect_and_consume CloseBracket) in
           ret (Some index)
         else ret None) in
      run (act_on_var id index)
  end

(** <call> ::= ID ( <args> ) *)
with parse_call (n : nat) : Action Expr :=
  match n with
  | O => fun _ => OutOfFuel
  | S n =>
      let* id := run (expect_and_consume Identifier) in
      let* _ := run (expect_and_consume OpenParen) in
      let* close_paren := get (peek_is CloseParen) in
      let* args :=
        (if negb close_paren
         then
           let* expr := parse_expression n in
           ret [expr]
         else ret []) in
      let* args := call_args_loop n args in
      let* rparen := run (expect_and_consume CloseParen) in
      run (act_on_call id args (location rparen))
  end

(** The [while] loop of [parse_call]. *)
with call_args_loop (n : nat) (args : list Expr) : Action (list Expr) :=
  match n with
  | O => fun _ => OutOfFuel
  | S n =>
      let* close_paren := get (peek_is CloseParen) in
      if negb close_paren
      then
        let* _ := run (expect_and_consume Comma) in
        let* expr := parse_expression n in
        call_args_loop n (args ++ [expr])
      else ret args
  end.

(** <expression-stmt> ::= <expression> ; | ; *)
Definition parse_expr_stmt (n : nat) : Action Stmt :=
  let* semicolon := run (optional (try_consume [Semicolon])) in
  match semicolon with
  | Some _ => run act_on_null_stmt
  | None =>
      let* expr := parse_expression n in
      let* _ := run (expect_and_consume Semicolon) in
      run (act_on_expr_stmt expr)
  end.

(** <return-stmt> ::= return ; | return <expression> ; *)
Definition parse_return_stmt (n : nat) : Action Stmt :=
  let* return_word := run (expect_and_consume Return) in
  let* semicolon := run (optional (try_consume [Semicolon])) in
  match semicolon with
  | Some _ => run (act_on_return_stmt None return_word)
  | None =>
      let* expr := parse_expression n in
      let* _ := run (expect_and_consume Semicolon) in
      run (act_on_return_stmt (Some expr) return_word)
  end.

(** The first loop of [parse_compound_stmt]: <local-declarations>. *)
Fixpoint local_declarations (n : nat) (decls : list VarDecl) : Action (list VarDecl) :=
  match n with
  | O => fun _ => OutOfFuel
  | S n =>
      let* type_ahead := get (fun p => peek_is Void p || peek_is Int p) in
      if type_ahead : bool
      then
        let* decl := parse_var_declaration in
        local_declarations n (decls ++ [decl])
      else ret decls
  end.

(** The productions from <statement> down, which call one another. *)

(** <statement> ::= <expression-stmt> | <compound-stmt> | <selection-stmt>
                 | <iteration-stmt> | <return-stmt> *)
Fixpoint parse_statement (n : nat) : Action Stmt :=
  match n with
  | O => fun _ => OutOfFuel
  | S n =>
      let* cat := get (fun p => category (peek_word p)) in
      match cat with
      | Identifier | Number | OpenParen | Semicolon => parse_expr_stmt n
      | OpenCurly => parse_compound_stmt n CompoundStmtFlag
      | If => parse_selection_stmt n
      | While => parse_iteration_stmt n
      | Return => parse_return_stmt n
      | _ => run (report_at_peek parser_expected_statement)
      end
  end

(** <compound-stmt> ::= { <local-declarations> <statement-list> } *)
with parse_compound_stmt (n : nat) (scope_flags : ScopeFlags) : Action Stmt :=
  match n with
  | O => fun _ => OutOfFuel
  | S n =>
      let* _ := run (expect_and_consume OpenCurly) in
      with_scope scope_flags
        (let* decls := local_declarations n [] in
         let* stms := statement_list n [] in
         let* _ := run consume_word in
         run (act_on_compound_stmt decls stms))
  end

(** The second loop of [parse_compound_stmt]: <statement-list>. *)
with statement_list (n : nat) (stms : list Stmt) : Action (list Stmt) :=
  match n with
  | O => fun _ => OutOfFuel
  | S n =>
      let* close_curly := get (peek_is CloseCurly) in
      if negb close_curly
      then
        let* stmt := parse_statement n in
        statement_list n (stms ++ [stmt])
      else ret stms
  end

(** <selection-stmt> ::= if ( <expression> ) <statement>
                      | if ( <expression> ) <statement> else <statement> *)
with parse_selection_stmt (n : nat) : Action Stmt :=
  match n with
  | O => fun _ => OutOfFuel
  | S n =>
      let* _ := run (expect_and_consume If) in
      let* _ := run (expect_and_consume OpenParen) in
      let* expr := parse_expression n in
      let* _ := run (expect_and_consume CloseParen) in
      let* stmt1 := parse_statement n in
      let* else_word := run (optional (try_consume [Else])) in
      match else_word with
      | None => run (act_on_selection_stmt expr stmt1 None)
      | Some _ =>
          let* stmt2 := parse_statement n in
          run (act_on_selection_stmt expr stmt1 (Some stmt2))
      end
  end

(** <iteration-stmt> ::= while ( <expression> ) <statement> *)
with parse_iteration_stmt (n : nat) : Action Stmt :=
  match n with
  | O => fun _ => OutOfFuel
  | S n =>
      let* _ := run (expect_and_consume While) in
      let* _ := run (expect_and_consume OpenParen) in
      let* expr := parse_expression n in
      let* _ := run (expect_and_consume CloseParen) in
      let* stmt := parse_statement n in
      run (act_on_iteration_stmt expr stmt)
  end.

(** The [while] loop of [parse_fun_declaration]: the rest of <param-list>. *)
Fixpoint param_list_rest (n : nat) (fun_decl : nat) : Action unit :=
  match n with
  | O => fun _ => OutOfFuel
  | S n =>
      let* close_paren := get (peek_is CloseParen) in
      if negb close_paren
      then
        let* _ := run (expect_and_consume Comma) in
        let* param := parse_param in
        let* _ := run (add_param fun_decl param) in
        param_list_rest n fun_decl
      else ret tt
  end.

(** <params> ::= <param-list> | void *)
Definition parse_params (n : nat) (fun_decl : nat) : Action unit :=
  let* void_alone := get (fun p => lookahead_is 0 Void p && lookahead_is 1 CloseParen p) in
  if void_alone : bool
  then
    let* _ := run consume_word in
    ret tt
  else
    let* param := parse_param in
    let* _ := run (add_param fun_decl param) in
    param_list_rest n fun_decl.

(** The block of [parse_fun_declaration] that the parameter scope spans:
    the parameters, the closing parenthesis and the body. *)
Definition parse_fun_params_and_body (n : nat) (fun_decl : nat) : Action unit :=
  let* _ := parse_params n fun_decl in
  let* _ := run (expect_and_consume CloseParen) in
  let* comp_stmt := parse_compound_stmt n (flags_or CompoundStmtFlag FunScope) in
  run (set_body fun_decl comp_stmt).

(** <fun-declaration> ::= <type-specifier> ID ( <params> ) <compound-stmt> *)
Definition parse_fun_declaration (n : nat) : Action FunDecl :=
  let* retn := run expect_and_consume_type in
  let* id := run (expect_and_consume Identifier) in
  let* _ := run (expect_and_consume OpenParen) in
  let* fun_decl := run (act_on_fun_decl_start retn id) in
  let* _ := with_scope FunParamsScope (parse_fun_params_and_body n fun_decl) in
  run (act_on_fun_decl_end fun_decl).

(** <declaration> ::= <var-declaration> | <fun-declaration> *)
Definition parse_declaration (n : nat) : Action Decl :=
  let* fun_ahead := get (lookahead_is 2 OpenParen) in
  if fun_ahead : bool
  then
    let* decl := parse_fun_declaration n in
    ret (DFun decl)
  else
    let* decl := parse_var_declaration in
    ret (DVar decl).

(** The [do ... while] loop of [parse_program]: <declaration-list>. *)
Fixpoint declaration_list (n : nat) (program : Program) : Action Program :=
  match n with
  | O => fun _ => OutOfFuel
  | S n =>
      let* decl := parse_declaration n in
      let* program := run (act_on_top_level_decl program decl) in
      let* eof := get (peek_is Eof) in
      if negb eof
      then declaration_list n program
      else ret program
  end.

(** <program> ::= <declaration-list> *)
Definition parse_program (n : nat) : Action Program :=
  let* program := run act_on_program_start in
  let* program := declaration_list n program in
  run (act_on_program_end program).

(** ** The driver *)

(** Modelled from the spec: the construction of the parser over the scanner
    of a source text, with the state of the semantic actions empty.  The
    lexical diagnostics are taken as emitted before the parser starts. *)
Definition make_parser (src : string) : Parser :=
  mkParser (fst (scan_source src)) (String.length src) (snd (scan_source src))
           (mkSemantics [] []).

(** A recursion budget that is enough for the words of the parser (see
    [parse_program_returns]). *)
Definition fuel_for (p : Parser) : nat := 8 * length (words p) + 8.

(** The parse of a source text. *)
Definition parse (src : string) : Outcome Program :=
  parse_program (fuel_for (make_parser src)) (make_parser src).

(** Modelled from the spec: the exit code of the drivers ([main.cpp] is not
    part of the sources at hand), 0 on success and non-zero when a
    diagnostic was emitted. *)
Definition exit_code (src : string) : nat :=
  match parse src with
  | Returns (Some _) p => if bool_decide (diags p = []) then 0 else 1
  | _ => 1
  end.

(** The empty program of the specification: a line feed. *)
Definition empty_program : string := String "010"%char EmptyString.

(** ** The grammar of C-minus *)

(** The grammar given at the bottom of [parser.cpp], over the categories of
    the words: [derives nt ws] when the non-terminal [nt] derives the word
    stream [ws].  The definitions use the names of the non-terminals, inside
    the module. *)
Module Grammar.

Inductive NonTerminal : Type :=
| program
| declaration_list
| declaration
| var_declaration
| type_specifier
| fun_declaration
| params
| param_list
| param
| compound_stmt
| local_declarations
| statement_list
| statement
| expression_stmt
| selection_stmt
| iteration_stmt
| return_stmt
| expression
| var
| simple_expression
| relop
| additive_expression
| addop
| term
| mulop
| factor
| call
| args
| arg_list.

Inductive derives : NonTerminal → list Category → Prop :=
(* <program> ::= <declaration-list> *)
| program_1 ds :
    derives declaration_list ds → derives program ds
(* <declaration-list> ::= <declaration-list> <declaration> | <declaration> *)
| declaration_list_1 ds d :
    derives declaration_list ds → derives declaration d →
    derives declaration_list (ds ++ d)
| declaration_list_2 d :
    derives declaration d → derives declaration_list d
(* <declaration> ::= <var-declaration> | <fun-declaration> *)
| declaration_1 d :
    derives var_declaration d → derives declaration d
| declaration_2 d :
    derives fun_declaration d → derives declaration d
(* <var-declaration> ::= <type-specifier> ID ; | <type-specifier> ID [ NUM ] ; *)
| var_declaration_1 t :
    derives type_specifier t →
    derives var_declaration (t ++ [Identifier; Semicolon])
| var_declaration_2 t :
    derives type_specifier t →
    derives var_declaration
      (t ++ [Identifier; OpenBracket; Number; CloseBracket; Semicolon])
(* <type-specifier> ::= int | void *)
| type_specifier_1 : derives type_specifier [Int]
| type_specifier_2 : derives type_specifier [Void]
(* <fun-declaration> ::= <type-specifier> ID ( <params> ) <compound-stmt> *)
| fun_declaration_1 t ps body :
    derives type_specifier t → derives params ps → derives compound_stmt body →
    derives fun_declaration (t ++ [Identifier; OpenParen] ++ ps ++ [CloseParen] ++ body)
(* <params> ::= <param-list> | void *)
| params_1 ps :
    derives param_list ps → derives params ps
| params_2 : derives params [Void]
(* <param-list> ::= <param-list> , <param> | <param> *)
| param_list_1 ps p :
    derives param_list ps → derives param p →
    derives param_list (ps ++ [Comma] ++ p)
| param_list_2 p :
    derives param p → derives param_list p
(* <param> ::= <type-specifier> ID | <type-specifier> ID [ ] *)
| param_1 t :
    derives type_specifier t → derives param (t ++ [Identifier])
| param_2 t :
    derives type_specifier t →
    derives param (t ++ [Identifier; OpenBracket; CloseBracket])
(* <compound-stmt> ::= { <local-declarations> <statement-list> } *)
| compound_stmt_1 ds ss :
    derives local_declarations ds → derives statement_list ss →
    derives compound_stmt ([OpenCurly] ++ ds ++ ss ++ [CloseCurly])
(* <local-declarations> ::= <local-declarations> <var-declaration> | empty *)
| local_declarations_1 ds d :
    derives local_declarations ds → derives var_declaration d →
    derives local_declarations (ds ++ d)
| local_declarations_2 : derives local_declarations []
(* <statement-list> ::= <statement-list> <statement> | empty *)
| statement_list_1 ss s :
    derives statement_list ss → derives statement s →
    derives statement_list (ss ++ s)
| statement_list_2 : derives statement_list []
(* <statement> ::= <expression-stmt> | <compound-stmt> | <selection-stmt>
                 | <iteration-stmt> | <return-stmt> *)
| statement_1 s : derives expression_stmt s → derives statement s
| statement_2 s : derives compound_stmt s → derives statement s
| statement_3 s : derives selection_stmt s → derives statement s
| statement_4 s : derives iteration_stmt s → derives statement s
| statement_5 s : derives return_stmt s → derives statement s
(* <expression-stmt> ::= <expression> ; | ; *)
| expression_stmt_1 e :
    derives expression e → derives expression_stmt (e ++ [Semicolon])
| expression_stmt_2 : derives expression_stmt [Semicolon]
(* <selection-stmt> ::= if ( <expression> ) <statement>
                      | if ( <expression> ) <statement> else <statement> *)
| selection_stmt_1 e s :
    derives expression e → derives statement s →
    derives selection_stmt ([If; OpenParen] ++ e ++ [CloseParen] ++ s)
| selection_stmt_2 e s1 s2 :
    derives expression e → derives statement s1 → derives statement s2 →
    derives selection_stmt ([If; OpenParen] ++ e ++ [CloseParen] ++ s1 ++ [Else] ++ s2)
(* <iteration-stmt> ::= while ( <expression> ) <statement> *)
| iteration_stmt_1 e s :
    derives expression e → derives statement s →
    derives iteration_stmt ([While; OpenParen] ++ e ++ [CloseParen] ++ s)
(* <return-stmt> ::= return ; | return <expression> ; *)
| return_stmt_1 : derives return_stmt [Return; Semicolon]
| return_stmt_2 e :
    derives expression e → derives return_stmt ([Return] ++ e ++ [Semicolon])
(* <expression> ::= <var> = <expression> | <simple-expression> *)
| expression_1 v e :
    derives var v → derives expression e →
    derives expression (v ++ [Assign] ++ e)
| expression_2 e :
    derives simple_expression e → derives expression e
(* <var> ::= ID | ID [ <expression> ] *)
| var_1 : derives var [Identifier]
| var_2 e :
    derives expression e →
    derives var ([Identifier; OpenBracket] ++ e ++ [CloseBracket])
(* <simple-expression> ::= <additive-expression> <relop> <additive-expression>
                         | <additive-expression> *)
| simple_expression_1 a op b :
    derives additive_expression a → derives relop op → derives additive_expression b →
    derives simple_expression (a ++ op ++ b)
| simple_expression_2 a :
    derives additive_expression a → derives simple_expression a
(* <relop> ::= <= | < | > | >= | == | != *)
| relop_1 : derives relop [LessEqual]
| relop_2 : derives relop [Less]
| relop_3 : derives relop [Greater]
| relop_4 : derives relop [GreaterEqual]
| relop_5 : derives relop [Equal]
| relop_6 : derives relop [NotEqual]
(* <additive-expression> ::= <additive-expression> <addop> <term> | <term> *)
| additive_expression_1 a op t :
    derives additive_expression a → derives addop op → derives term t →
    derives additive_expression (a ++ op ++ t)
| additive_expression_2 t :
    derives term t → derives additive_expression t
(* <addop> ::= + | - *)
| addop_1 : derives addop [Plus]
| addop_2 : derives addop [Minus]
(* <term> ::= <term> <mulop> <factor> | <factor> *)
| term_1 t op f :
    derives term t → derives mulop op → derives factor f →
    derives term (t ++ op ++ f)
| term_2 f :
    derives factor f → derives term f
(* <mulop> ::= * | / *)
| mulop_1 : derives mulop [Multiply]
| mulop_2 : derives mulop [Divide]
(* <factor> ::= ( <expression> ) | <var> | <call> | NUM *)
| factor_1 e :
    derives expression e → derives factor ([OpenParen] ++ e ++ [CloseParen])
| factor_2 v : derives var v → derives factor v
| factor_3 c : derives call c → derives factor c
| factor_4 : derives factor [Number]
(* <call> ::= ID ( <args> ) *)
| call_1 a :
    derives args a → derives call ([Identifier; OpenParen] ++ a ++ [CloseParen])
(* <args> ::= <arg-list> | empty *)
| args_1 a : derives arg_list a → derives args a
| args_2 : derives args []
(* <arg-list> ::= <arg-list> , <expression> | <expression> *)
| arg_list_1 a e :
    derives arg_list a → derives expression e →
    derives arg_list (a ++ [Comma] ++ e)
| arg_list_2 e :
    derives expression e → derives arg_list e.

End Grammar.

(** The categories of the words of a source text. *)
Definition categories_of (src : string) : list Category :=
  map category (fst (scan_source src)).

(** Whether a word may end a <var>: an identifier or a closing bracket. *)
Definition ends_var (c : Category) : bool :=
  match c with
  | Identifier | CloseBracket => true
  | _ => false
  end.

(** Every [=] of the stream comes right after a word that may end a <var>;
    [prev] is the word before the stream. *)
Fixpoint assign_follows_var (prev : Category) (ws : list Category) : bool :=
  match ws with
  | [] => true
  | c :: rest =>
      (if bool_decide (c = Assign) then ends_var prev else true)
      && assign_follows_var c rest
  end.

(** * Notions used by the statements *)

Local Close Scope string_scope.

(** [wp m Q p]: if the call [m] returns from state [p], its result and the
    state it leaves satisfy [Q]. *)
Definition wp {A} (m : Action A) (Q : option A → Parser → Prop) (p : Parser) : Prop :=
  ∀ r p', m p = Returns r p' → Q r p'.

(** [returns m p]: the call [m] returns from state [p] within the recursion
    budget. *)
Definition returns {A} (m : Action A) (p : Parser) : Prop := m p ≠ OutOfFuel.

(** [refines m m']: whatever [m] returns, [m'] returns too. *)
Definition refines {A} (m m' : Action A) : Prop :=
  ∀ p r p', m p = Returns r p' → m' p = Returns r p'.

Definition remaining (p : Parser) : nat := length (words p).

(** The postcondition of a call that consumes at least [d] words when it
    succeeds, and never gives words back. *)
Definition consumed (d : nat) {A} (p : Parser) (r : option A) (p' : Parser) : Prop :=
  remaining p' ≤ remaining p ∧ (is_Some r → remaining p' + d ≤ remaining p).

Definition consumes (d : nat) {A} (m : Action A) : Prop :=
  ∀ p, wp m (consumed d p) p.

(** The budget that is enough for a state: a multiple of the number of words
    not consumed yet, plus the depth of the chain of productions that call
    one another without consuming a word. *)
Definition enough (rank : nat) (p : Parser) (n : nat) : Prop :=
  8 * remaining p + rank ≤ n.

(** The semantic actions leave the words alone and return a node. *)
Class SemaAction {A} (s : Step A) : Prop :=
  sema_action : ∀ p, is_Some (fst (s p)) ∧ words (snd (s p)) = words p.

(** The result of a call, mapped. *)
Definition map_outcome {A B} (f : A → B) (o : Outcome A) : Outcome B :=
  match o with
  | Returns r p => Returns (f <$> r) p
  | OutOfFuel => OutOfFuel
  end.

Definition is_fun_decl (d : Decl) : bool :=
  match d with
  | DFun _ => true
  | _ => false
  end.

Definition is_var_decl (d : Decl) : bool :=
  match d with
  | DVar _ => true
  | _ => false
  end.

(** The operands that follow the first one of a left-recursive production:
    as long as the next word is one of the operators [cs], it is consumed
    and [operand] parses what follows it. *)
Inductive operands (cs : list Category) (operand : Action Expr)
    : Parser → list (Category * Expr) → Parser → Prop :=
| operands_done p :
    category (peek_word p) ∉ cs →
    operands cs operand p [] p
| operands_more p e p' rest p'' :
    category (peek_word p) ∈ cs →
    operand (advance p) = Returns (Some e) p' →
    operands cs operand p' rest p'' →
    operands cs operand p ((category (peek_word p), e) :: rest) p''.

(** [a op1 b op2 c ...] associated to the left. *)
Definition left_assoc (a : Expr) (rest : list (Category * Expr)) : Expr :=
  fold_left (fun acc oe => EBinaryExpr (fst oe) acc (snd oe)) rest a.

Definition is_var_ref (e : Expr) : bool :=
  match e with
  | EVarRef _ _ => true
  | _ => false
  end.

(** Every assignment node of the expression has a variable reference as its
    left-hand side. *)
Fixpoint assign_wf (e : Expr) : bool :=
  match e with
  | ENumber _ => true
  | EVarRef _ index =>
      match index with
      | Some i => assign_wf i
      | None => true
      end
  | EFunCall _ args => forallb assign_wf args
  | EBinaryExpr op lhs rhs =>
      (if bool_decide (op = Assign) then is_var_ref lhs else true)
      && assign_wf lhs && assign_wf rhs
  end.

(** <expression> in the words of the specification: parse
    <simple-expression>; if the result is a [VarRef] and the next word is
    [=], consume [=] and recurse, building the assignment; otherwise return
    the simple expression. *)
Definition expression_by_the_spec (simple_expression expression : Action Expr)
    : Action Expr :=
  fun p =>
    match simple_expression p with
    | Returns (Some expr1) p1 =>
        if is_var_ref expr1 && peek_is Assign p1
        then
          match expression (advance p1) with
          | Returns (Some expr2) p2 => Returns (Some (EBinaryExpr Assign expr1 expr2)) p2
          | Returns None p2 => Returns None p2
          | OutOfFuel => OutOfFuel
          end
        else Returns (Some expr1) p1
    | Returns None p1 => Returns None p1
    | OutOfFuel => OutOfFuel
    end.

(** The postcondition on the node that a call returns. *)
Definition yields {A} (Q : A → Prop) (m : Action A) : Prop :=
  ∀ p, wp m (fun r _ => ∀ a, r = Some a → Q a) p.

Definition assign_wf_all (es : list Expr) : Prop := forallb assign_wf es = true.

(** The diagnostics that report a miss of the parser: the
    [parser_expected_*] kinds. *)
Definition is_expected (d : Diagnostic) : bool :=
  match code d with
  | parser_expected_token
  | parser_expected_type
  | parser_expected_expression
  | parser_expected_statement => true
  | _ => false
  end.

Definition count_expected (ds : list Diagnostic) : nat :=
  length (List.filter is_expected ds).

(** [emitted p p' k]: from [p] to [p'] diagnostics were only added, [k] of
    them of the [parser_expected_*] kinds. *)
Definition emitted (p p' : Parser) (k : nat) : Prop :=
  ∃ ds, diags p' = diags p ++ ds ∧ count_expected ds = k.

Definition misses {A} (r : option A) : nat :=
  match r with
  | Some _ => 0
  | None => 1
  end.

(** The postcondition of a production that propagates failure: it returns a
    node when no [parser_expected_*] diagnostic was emitted during the call,
    and null when one was, after which nothing else was parsed. *)
Definition propagated {A} (p : Parser) (r : option A) (p' : Parser) : Prop :=
  emitted p p' (misses r).

Definition propagates {A} (m : Action A) : Prop :=
  ∀ p, wp m (propagated p) p.

(** The semantic actions return a node and emit no [parser_expected_*]
    diagnostic. *)
Class QuietAction {A} (s : Step A) : Prop :=
  quiet_action : ∀ p, is_Some (fst (s p)) ∧ emitted p (snd (s p)) 0.

(** The top frame of a scope stack keeps its flags and its bindings and may
    gain bindings; the frames under it stay as they are. *)
Definition frames_grow (ss ss' : list Scope) : Prop :=
  tail ss' = tail ss ∧
  match head ss, head ss' with
  | Some t, Some t' => scope_flags t' = scope_flags t ∧ symbols t ⊆ symbols t'
  | None, None => True
  | _, _ => False
  end.

(** A declaration of a variable or of a parameter changes the state of the
    semantic actions by a binding in the top frame at most. *)
Definition top_grows (s s' : Semantics) : Prop :=
  frames_grow (scopes s) (scopes s') ∧ fun_decls s' = fun_decls s.




Definition keeps_sema {A} (m : Action A) : Prop :=
  ∀ p, wp m (fun _ p' => sema p' = sema p) p.

Definition declares {A} (m : Action A) : Prop :=
  ∀ p, wp m (fun _ p' => top_grows (sema p) (sema p')) p.

(** The semantic actions that only look names up. *)
Class PureAction {A} (s : Step A) : Prop :=
  pure_action : ∀ p, sema (snd (s p)) = sema p.

(** The semantic actions that declare a variable or a parameter. *)
Class DeclAction {A} (s : Step A) : Prop :=
  decl_action : ∀ p, top_grows (sema p) (sema (snd (s p))).









(** * Notions used by further statements *)

(** [ahead p p']: the words of [p'] are the words of [p] without some of
    the first ones. *)
Definition ahead (p p' : Parser) : Prop :=
  ∃ k, words p' = drop k (words p).

(** A production only takes words from the front of the stream. *)
Definition only_consumes {A} (m : Action A) : Prop :=
  ∀ p, wp m (fun _ p' => ahead p p') p.


(** A call that returns has taken [k] words from the front of the stream
    and left the others as they were, and at least one word when it returns
    a node. *)
Definition takes_front {A} (m : Action A) : Prop :=
  ∀ p r p', m p = Returns r p' →
    ∃ k, k ≤ length (words p) ∧ words p' = drop k (words p) ∧ (is_Some r → 1 ≤ k).

(** The postcondition of a production that stops at a miss: when it gives
    null, the diagnostic emitted last is the [parser_expected_*] one of the
    miss, and it is located at the word in [peek_word], which is the first
    word that was not consumed. *)
Definition stopped_at_miss {A} (r : option A) (p' : Parser) : Prop :=
  r = None →
  ∃ d, last (diags p') = Some d ∧ is_expected d = true ∧
       loc d = location (peek_word p').

Definition stops_at_miss {A} (m : Action A) : Prop :=
  ∀ p, wp m stopped_at_miss p.

(** A production that returns a node only when the word in [peek_word] has
    one of the categories [cs]. *)
Definition starts_with (cs : list Category) {A} (m : Action A) : Prop :=
  ∀ p a p', m p = Returns (Some a) p' → category (peek_word p) ∈ cs.

(** [settled f rank]: with a recursion budget of eight per word left plus
    [rank] the production [f] returns, and a greater budget gives the same
    result in the same state. *)
Definition settled {A} (f : nat → Action A) (rank : nat) : Prop :=
  ∀ p n, 8 * length (words p) + rank ≤ n →
    ∃ r p', f n p = Returns r p' ∧ ∀ m, n ≤ m → f m p = Returns r p'.

(** The words of a source have a category other than [Eof]. *)
Definition no_eof_word (ws : list Word) : Prop :=
  Forall (fun w => category w ≠ Eof) ws.

(** The kinds of statement node. *)
Inductive StmtKind : Type :=
| KNull | KCompound | KSelection | KIteration | KReturn | KExpr.

Definition stmt_kind (s : Stmt) : StmtKind :=
  match s with
  | NullStmt => KNull
  | CompoundStmt _ _ => KCompound
  | SelectionStmt _ _ _ => KSelection
  | IterationStmt _ _ => KIteration
  | ReturnStmt _ _ => KReturn
  | ExprStmt _ => KExpr
  end.

(** [took p p' cs]: from [p] to [p'] the parser took words from the front
    of the stream, and [cs] are their categories. *)
Definition took (p p' : Parser) (cs : list Category) : Prop :=
  ∃ pre, words p = pre ++ words p' ∧ map category pre = cs.

(** An [=] comes right after a closing parenthesis somewhere in the
    stream. *)
Definition assign_after_paren (cs : list Category) : Prop :=
  ∃ before after, cs = before ++ [CloseParen; Assign] ++ after.

(** The states of the parser in whose stream no [=] follows a closing
    parenthesis. *)
Definition regular (p : Parser) : Prop :=
  ¬ assign_after_paren (map category (words p)).

(** A production is sound for a non-terminal of the grammar when the words
    it takes to return a node are derived from the non-terminal, in every
    regular state. *)
Definition sound_for (nt : Grammar.NonTerminal) {A} (m : Action A) : Prop :=
  ∀ p a p', m p = Returns (Some a) p' → regular p →
    ∃ cs, took p p' cs ∧ Grammar.derives nt cs.

(** The words of an expression that is a variable reference are those of a
    <var>, or end with a closing parenthesis. *)
Definition var_or_paren (e : Expr) (cs : list Category) : Prop :=
  is_var_ref e = true →
  Grammar.derives Grammar.var cs ∨ ∃ cs', cs = cs' ++ [CloseParen].

Definition sound_expr (nt : Grammar.NonTerminal) (m : Action Expr) : Prop :=
  ∀ p e p', m p = Returns (Some e) p' → regular p →
    ∃ cs, took p p' cs ∧ Grammar.derives nt cs ∧ var_or_paren e cs.

(** The loop of a left-recursive production: the words it takes extend what
    the non-terminal derives, and the node it returns is the one it started
    with when it took no word, and a binary expression otherwise. *)
Definition sound_loop (nt : Grammar.NonTerminal) (e1 : Expr) (m : Action Expr) : Prop :=
  ∀ p e p', m p = Returns (Some e) p' → regular p →
    ∃ cs, took p p' cs ∧
          (∀ a, Grammar.derives nt a → Grammar.derives nt (a ++ cs)) ∧
          ((cs = [] ∧ e = e1) ∨ is_var_ref e = false).

(** The loop of a list: the words it takes extend what the non-terminal of
    the list derives. *)
Definition sound_list (nt : Grammar.NonTerminal) {A} (m : Action A) : Prop :=
  ∀ p a p', m p = Returns (Some a) p' → regular p →
    ∃ cs, took p p' cs ∧
          (∀ l, Grammar.derives nt l → Grammar.derives nt (l ++ cs)).

(** The loop over the arguments of a call or the parameters of a function,
    which goes on until the closing parenthesis. *)
Definition sound_until_paren (nt : Grammar.NonTerminal) {A} (m : Action A) : Prop :=
  ∀ p a p', m p = Returns (Some a) p' → regular p →
    ∃ cs, took p p' cs ∧
          (∀ l, Grammar.derives nt l → Grammar.derives nt (l ++ cs)) ∧
          (category (peek_word p) = CloseParen → cs = []).

(** ** Notions for the completeness of the parser *)
(** The categories of the words that are left. *)
Definition cats (p : Parser) : list Category := map category (words p).

(** [evals f p a p']: with some recursion budget, [f] returns the node [a]
    from [p], in state [p']. *)
Definition evals {A} (f : nat → Action A) (p : Parser) (a : A) (p' : Parser) : Prop :=
  ∃ n, f n p = Returns (Some a) p'.

(** The word that comes next, if there is one, has none of the categories
    [l]. *)
Definition next_not (l rest : list Category) : Prop :=
  match rest with
  | c :: _ => c ∉ l
  | [] => True
  end.

(** The categories of the word after a production that would make the
    parser go on: after a <var> an opening bracket, after a <factor> an
    opening parenthesis or bracket, after a <term> also a multiplicative
    operator, and so on. *)
Definition follow_var : list Category := [OpenBracket].
Definition follow_factor : list Category := [OpenParen; OpenBracket].
Definition follow_term : list Category := follow_factor ++ [Multiply; Divide].
Definition follow_additive : list Category := follow_term ++ [Plus; Minus].
Definition follow_simple : list Category :=
  follow_additive ++ [LessEqual; Less; Greater; GreaterEqual; Equal; NotEqual].
Definition follow_expression : list Category := follow_simple ++ [Assign].

(** [accepts f follow cs]: from every state whose words start with [cs],
    and go on with a word that is not in [follow], the production [f]
    returns a node and has consumed [cs]. *)
Definition accepts {A} (f : nat → Action A) (follow : list Category)
    (cs : list Category) : Prop :=
  ∀ p rest, cats p = cs ++ rest → next_not follow rest →
    ∃ a p', evals f p a p' ∧ cats p' = rest.

(** The loop of a production comes from [a1] in [q] to [a] in [q']: what
    it returns from there, it returns from [q]. *)
Definition loop_to {A} (loop : nat → A → Action A) (a1 : A) (q : Parser)
    (a : A) (q' : Parser) : Prop :=
  ∀ r p'', evals (fun n => loop n a) q' r p'' → evals (fun n => loop n a1) q r p''.

(** The words of a left-recursive non-terminal: the first operand is
    parsed, and the loop comes to the end of the words. *)
Definition accepts_loop (first : nat → Action Expr) (loop : nat → Expr → Action Expr)
    (follow : list Category) (cs : list Category) : Prop :=
  ∀ p rest, cats p = cs ++ rest → next_not follow rest →
    ∃ e1 q e q', evals first p e1 q ∧ loop_to loop e1 q e q' ∧ cats q' = rest.

(** The same for the arguments of a call. *)
Definition accepts_arg_list (cs : list Category) : Prop :=
  ∀ p rest, cats p = cs ++ rest → next_not follow_expression rest →
    ∃ e1 q args q',
      evals parse_expression p e1 q ∧
      loop_to call_args_loop [e1] q args q' ∧
      cats q' = rest.

(** One word, of a category among [l]. *)
Definition one_of (l cs : list Category) : Prop := ∃ c, cs = [c] ∧ c ∈ l.

(** What the derivation of an expression, or of a part of one, gives for
    the parser. *)
Definition expression_complete (nt : Grammar.NonTerminal) (cs : list Category) : Prop :=
  match nt with
  | Grammar.expression => accepts parse_expression follow_expression cs
  | Grammar.var =>
      accepts parse_var follow_var cs ∧
      (cs = [Identifier] ∨ ∃ l, cs = Identifier :: OpenBracket :: l)
  | Grammar.simple_expression => accepts parse_simple_expression follow_simple cs
  | Grammar.relop =>
      one_of [LessEqual; Less; Greater; GreaterEqual; Equal; NotEqual] cs
  | Grammar.additive_expression =>
      accepts_loop parse_term additive_loop follow_term cs
  | Grammar.addop => one_of [Plus; Minus] cs
  | Grammar.term => accepts_loop parse_factor term_loop follow_factor cs
  | Grammar.mulop => one_of [Multiply; Divide] cs
  | Grammar.factor => accepts parse_factor follow_factor cs
  | Grammar.call =>
      accepts parse_call [] cs ∧ ∃ l, cs = Identifier :: OpenParen :: l
  | Grammar.args =>
      accepts parse_call [] (Identifier :: OpenParen :: cs ++ [CloseParen])
  | Grammar.arg_list => accepts_arg_list cs
  | _ => True
  end.


(** The first word of [cs] has one of the categories [l]. *)
Definition starts (l cs : list Category) : Prop := ∃ c r, cs = c :: r ∧ c ∈ l.

Definition first_statement : list Category :=
  [Identifier; Number; OpenParen; Semicolon; OpenCurly; If; While; Return].

Definition first_expression : list Category := [Identifier; Number; OpenParen].

Definition first_declaration : list Category := [Void; Int].

(** The first word of what a non-terminal derives. *)
Definition grammar_first (nt : Grammar.NonTerminal) (cs : list Category) : Prop :=
  match nt with
  | Grammar.statement | Grammar.expression_stmt | Grammar.compound_stmt
  | Grammar.selection_stmt | Grammar.iteration_stmt | Grammar.return_stmt =>
      starts first_statement cs
  | Grammar.statement_list => cs = [] ∨ starts first_statement cs
  | Grammar.expression | Grammar.var | Grammar.simple_expression
  | Grammar.additive_expression | Grammar.term | Grammar.factor | Grammar.call
  | Grammar.arg_list =>
      starts first_expression cs
  | Grammar.args => cs = [] ∨ starts first_expression cs
  | Grammar.program | Grammar.declaration_list | Grammar.declaration
  | Grammar.var_declaration | Grammar.type_specifier | Grammar.fun_declaration
  | Grammar.params | Grammar.param_list | Grammar.param =>
      starts first_declaration cs
  | Grammar.local_declarations => cs = [] ∨ starts first_declaration cs
  | Grammar.relop | Grammar.addop | Grammar.mulop => True
  end.

(** The [else] parts that follow a statement, each with its statement. *)
Definition flat (clauses : list (list Category)) : list Category :=
  concat (map (cons Else) clauses).

(** The statements of less than [N] words, [else] parts included, are
    parsed, with as many of the [else] parts that follow as the parser
    takes. *)
Definition statements_accepted (N : nat) : Prop :=
  ∀ cs clauses rest p,
    length cs + length (flat clauses) < N →
    Grammar.derives Grammar.statement cs →
    Forall (Grammar.derives Grammar.statement) clauses →
    next_not [Else] rest →
    cats p = cs ++ flat clauses ++ rest →
    ∃ s p' k, evals parse_statement p s p' ∧ cats p' = flat (drop k clauses) ++ rest.


(** The loop of [parse_program] from [prog] in [p] comes to [prog'] in
    [q']: what it does from there, it does from [p]. *)
Definition declarations_to (prog : Program) (p : Parser) (prog' : Program)
    (q' : Parser) : Prop :=
  ∀ r p'',
    (category (peek_word q') = Eof ∧ r = prog' ∧ p'' = q') ∨
    (category (peek_word q') ≠ Eof ∧ evals (fun n => declaration_list n prog') q' r p'') →
    evals (fun n => declaration_list n prog) p r p''.
(** * Reasoning about productions *)

(** ** Postconditions of calls *)

Lemma wp_bind {A B} (m : Action A) (k : A → Action B) Q p :
  wp m (fun r p' => match r with
                    | Some a => wp (k a) Q p'
                    | None => Q None p'
                    end) p →
  wp (bind m k) Q p.
Proof.
  unfold wp, bind. intros H r p'' E.
  destruct (m p) as [[a|] p'|] eqn:Em; try discriminate.
  - exact (H _ _ eq_refl _ _ E).
  - inversion E; subst. exact (H _ _ eq_refl).
Qed.

Lemma wp_ret {A} (a : A) (Q : option A → Parser → Prop) p :
  Q (Some a) p → wp (ret a) Q p.
Proof. unfold wp, ret. intros H r p' E. inversion E; subst. exact H. Qed.

Lemma wp_get {A} (f : Parser → A) (Q : option A → Parser → Prop) p :
  Q (Some (f p)) p → wp (get f) Q p.
Proof. unfold wp, get. intros H r p' E. inversion E; subst. exact H. Qed.

Lemma wp_run {A} (s : Step A) (Q : option A → Parser → Prop) p :
  Q (fst (s p)) (snd (s p)) → wp (run s) Q p.
Proof. unfold wp, run. intros H r p' E. inversion E; subst. exact H. Qed.

Lemma wp_with_scope {A} flags (body : Action A) (Q : option A → Parser → Prop) p :
  wp body (fun r p' => Q r (leave_scope p')) (enter_scope flags p) →
  wp (with_scope flags body) Q p.
Proof.
  unfold wp, with_scope. intros H r p' E.
  destruct (body (enter_scope flags p)) as [r0 p0|] eqn:Eb; try discriminate.
  inversion E; subst. exact (H _ _ eq_refl).
Qed.

Lemma wp_conseq {A} (m : Action A) (Q Q' : option A → Parser → Prop) p :
  wp m Q p → (∀ r p', Q r p' → Q' r p') → wp m Q' p.
Proof. unfold wp. intros H HQ r p' E. apply HQ, H, E. Qed.

Lemma wp_out_of_fuel {A} (Q : option A → Parser → Prop) p :
  wp (fun _ => OutOfFuel) Q p.
Proof. intros r p' E. discriminate. Qed.

(** ** The helpers of the parser *)

Lemma peek_word_nil p : words p = [] → category (peek_word p) = Eof.
Proof. unfold peek_word, lookahead. intros ->. reflexivity. Qed.

Lemma peek_word_not_eof p : category (peek_word p) ≠ Eof → words p ≠ [].
Proof. intros H E. apply H, peek_word_nil, E. Qed.

Lemma peek_is_true c p : peek_is c p = true ↔ category (peek_word p) = c.
Proof. unfold peek_is. apply bool_decide_eq_true. Qed.

Lemma peek_is_false c p : peek_is c p = false ↔ category (peek_word p) ≠ c.
Proof. unfold peek_is. apply bool_decide_eq_false. Qed.

(** What [try_consume] does, by cases. *)
Lemma try_consume_cases cs p :
  (category (peek_word p) ∈ cs ∧
   try_consume cs p = (Some (peek_word p), advance p)) ∨
  ((category (peek_word p) ∉ cs) ∧ try_consume cs p = (None, p)).
Proof.
  unfold try_consume. case_bool_decide; [left | right]; auto.
Qed.

(** What [expect_and_consume] does, by cases. *)
Lemma expect_and_consume_cases c p :
  (category (peek_word p) = c ∧
   expect_and_consume c p = (Some (peek_word p), advance p)) ∨
  (category (peek_word p) ≠ c ∧
   expect_and_consume c p =
     (None, report (location (peek_word p)) parser_expected_token [ParamCategory c] p)).
Proof.
  unfold expect_and_consume.
  destruct (try_consume_cases [c] p) as [[Hin ->] | [Hin ->]]; [left | right].
  - split; [|reflexivity]. apply list_elem_of_singleton in Hin. exact Hin.
  - split; [|reflexivity]. intros E. apply Hin, list_elem_of_singleton, E.
Qed.

(** What [expect_and_consume_type] does, by cases. *)
Lemma expect_and_consume_type_cases p :
  (category (peek_word p) ∈ [Void; Int] ∧
   expect_and_consume_type p = (Some (peek_word p), advance p)) ∨
  ((category (peek_word p) ∉ [Void; Int]) ∧
   expect_and_consume_type p =
     (None, report (location (peek_word p)) parser_expected_type [] p)).
Proof.
  unfold expect_and_consume_type.
  destruct (try_consume_cases [Void; Int] p) as [[Hin ->] | [Hin ->]]; [left | right]; auto.
Qed.

(** ** Stepping through the body of a production *)

(** One structural step of a goal [wp m Q p]. *)
Ltac wp_structure :=
  lazymatch goal with
  | |- wp (bind _ _) _ _ => apply wp_bind
  | |- wp (ret _) _ _ => apply wp_ret
  | |- wp (get _) _ _ => apply wp_get
  | |- wp (with_scope _ _) _ _ => apply wp_with_scope
  | |- wp (fun _ => OutOfFuel) _ _ => apply wp_out_of_fuel
  | |- wp (if negb ?b then _ else _) _ _ => destruct b eqn:?; cbn [negb]
  | |- wp (if ?b then _ else _) _ _ => destruct b eqn:?
  | |- wp (match ?x with _ => _ end) _ _ => destruct x eqn:?
  end.

(** The call of a helper: split on what the helper does. *)
Ltac wp_helper :=
  lazymatch goal with
  | |- wp (run (expect_and_consume ?c)) _ ?p =>
      apply wp_run;
      let H := fresh "Hpeek" in
      destruct (expect_and_consume_cases c p) as [[H ->] | [H ->]]; cbn [fst snd]
  | |- wp (run expect_and_consume_type) _ ?p =>
      apply wp_run;
      let H := fresh "Hpeek" in
      destruct (expect_and_consume_type_cases p) as [[H ->] | [H ->]]; cbn [fst snd]
  | |- wp (run (optional (try_consume ?cs))) _ ?p =>
      apply wp_run; unfold optional;
      let H := fresh "Hpeek" in
      destruct (try_consume_cases cs p) as [[H ->] | [H ->]]; cbn [fst snd]
  | |- wp (run consume_word) _ ?p =>
      apply wp_run; unfold consume_word, consume; cbn [fst snd]
  | |- wp (run (report_at_peek _)) _ ?p =>
      apply wp_run; unfold report_at_peek; cbn [fst snd]
  end.

(** The call of a production whose postcondition is at hand, as an induction
    hypothesis or in the hint database [db]. *)
Ltac wp_call db :=
  lazymatch goal with
  | |- wp _ _ _ =>
      eapply wp_conseq;
      [ first [ match goal with H : _ |- _ => apply H end
              | solve [eauto 2 with db] ]
      | cbv beta; intros [?|] ? ? ]
  end.

(** Introduces the arguments of a statement about [wp]. *)
Ltac intro_wp :=
  repeat lazymatch goal with
         | |- wp _ _ _ => fail
         | |- _ => intro
         end.

(** ** Productions consume words *)

Lemma remaining_advance p : remaining (advance p) = pred (remaining p).
Proof. unfold remaining, advance. simpl. destruct (words p); reflexivity. Qed.

Lemma remaining_report l d a p : remaining (report l d a p) = remaining p.
Proof. reflexivity. Qed.

Lemma remaining_peek p c :
  category (peek_word p) = c → c ≠ Eof → 1 ≤ remaining p.
Proof.
  intros E Hc. unfold remaining.
  destruct (words p) eqn:Ew; simpl; [|lia].
  exfalso. apply Hc. rewrite <- E. apply peek_word_nil, Ew.
Qed.

Lemma remaining_peek_in p (cs : list Category) :
  category (peek_word p) ∈ cs → Eof ∉ cs → 1 ≤ remaining p.
Proof.
  intros E Hc. apply (remaining_peek p (category (peek_word p))); [reflexivity|].
  intros E'. apply Hc. rewrite <- E'. exact E.
Qed.

#[global] Instance act_on_number_action w : SemaAction (act_on_number w).
Proof. intros p. unfold act_on_number. case_bool_decide; simpl; eauto. Qed.
#[global] Instance act_on_var_decl_action t i n : SemaAction (act_on_var_decl t i n).
Proof.
  intros p. unfold act_on_var_decl, declare. case_bool_decide; simpl; eauto.
  destruct scope_insert; simpl; eauto.
Qed.
#[global] Instance act_on_param_decl_action t i a : SemaAction (act_on_param_decl t i a).
Proof.
  intros p. unfold act_on_param_decl, declare. case_bool_decide; simpl; eauto.
  destruct scope_insert; simpl; eauto.
Qed.
#[global] Instance act_on_fun_decl_start_action t i : SemaAction (act_on_fun_decl_start t i).
Proof.
  intros p. unfold act_on_fun_decl_start, declare. simpl.
  destruct scope_insert; simpl; eauto.
Qed.
#[global] Instance add_param_action f x : SemaAction (add_param f x).
Proof. intros p. simpl; eauto. Qed.
#[global] Instance set_body_action f x : SemaAction (set_body f x).
Proof. intros p. simpl; eauto. Qed.
#[global] Instance act_on_fun_decl_end_action f : SemaAction (act_on_fun_decl_end f).
Proof. intros p. simpl; eauto. Qed.
#[global] Instance act_on_null_stmt_action : SemaAction act_on_null_stmt.
Proof. intros p. simpl; eauto. Qed.
#[global] Instance act_on_expr_stmt_action e : SemaAction (act_on_expr_stmt e).
Proof. intros p. simpl; eauto. Qed.
#[global] Instance act_on_compound_stmt_action d s : SemaAction (act_on_compound_stmt d s).
Proof. intros p. simpl; eauto. Qed.
#[global] Instance act_on_selection_stmt_action e s1 s2 :
  SemaAction (act_on_selection_stmt e s1 s2).
Proof. intros p. simpl; eauto. Qed.
#[global] Instance act_on_iteration_stmt_action e s : SemaAction (act_on_iteration_stmt e s).
Proof. intros p. simpl; eauto. Qed.
#[global] Instance act_on_return_stmt_action e w : SemaAction (act_on_return_stmt e w).
Proof. intros p. simpl; eauto. Qed.
#[global] Instance act_on_var_action i x : SemaAction (act_on_var i x).
Proof.
  intros p. unfold act_on_var. destruct scope_lookup as [[]|]; simpl; eauto.
Qed.
#[global] Instance act_on_call_action i a l : SemaAction (act_on_call i a l).
Proof.
  intros p. unfold act_on_call. destruct scope_lookup as [[]|]; simpl; eauto.
Qed.
#[global] Instance act_on_assign_action l r o : SemaAction (act_on_assign l r o).
Proof. intros p. simpl; eauto. Qed.
#[global] Instance act_on_binary_expr_action l r o : SemaAction (act_on_binary_expr l r o).
Proof. intros p. simpl; eauto. Qed.
#[global] Instance act_on_program_start_action : SemaAction act_on_program_start.
Proof. intros p. simpl; eauto. Qed.
#[global] Instance act_on_program_end_action x : SemaAction (act_on_program_end x).
Proof. intros p. simpl; eauto. Qed.
#[global] Instance act_on_top_level_decl_action x d : SemaAction (act_on_top_level_decl x d).
Proof. intros p. simpl; eauto. Qed.

Lemma remaining_sema_action {A} (s : Step A) `{!SemaAction s} p :
  remaining (snd (s p)) = remaining p.
Proof. unfold remaining. destruct (sema_action p) as [_ ->]. reflexivity. Qed.

Lemma remaining_enter_scope f p : remaining (enter_scope f p) = remaining p.
Proof. reflexivity. Qed.

Lemma remaining_leave_scope p : remaining (leave_scope p) = remaining p.
Proof. reflexivity. Qed.

(** The call of a semantic action, for a goal about the remaining words. *)
Ltac wp_action :=
  lazymatch goal with
  | |- wp (run ?s) _ ?p =>
      apply wp_run;
      let H := fresh "Hrem" in
      pose proof (remaining_sema_action s p) as H;
      destruct (s p) as [[?|] ?]; cbn [fst snd] in *
  end.

Ltac not_in_list :=
  let H := fresh in
  intros H;
  repeat (apply elem_of_cons in H; destruct H as [H|H]; [discriminate|]);
  apply elem_of_nil in H; exact H.

Ltac remaining_simpl :=
  repeat first
    [ progress rewrite ?remaining_advance, ?remaining_report,
        ?remaining_enter_scope, ?remaining_leave_scope
    | match goal with
      | H : context[remaining (advance _)] |- _ => rewrite remaining_advance in H
      | H : context[remaining (report _ _ _ _)] |- _ => rewrite remaining_report in H
      | H : context[remaining (enter_scope _ _)] |- _ => rewrite remaining_enter_scope in H
      | H : context[remaining (leave_scope _)] |- _ => rewrite remaining_leave_scope in H
      end ].

Ltac consumed_solve :=
  unfold consumed in *;
  repeat match goal with
         | H : _ ∧ _ |- _ => destruct H
         | H : is_Some (Some _) → _ |- _ => specialize (H (ltac:(eauto)))
         | H : category (peek_word ?p) = ?c |- _ =>
             first [ unshelve epose proof (remaining_peek p c H _); [discriminate|]
                   | idtac ];
             clear H
         | H : category (peek_word ?p) ∈ _ |- _ =>
             first [ unshelve epose proof (remaining_peek_in p _ H _); [ not_in_list | ]
                   | idtac ];
             clear H
         end;
  remaining_simpl;
  try (split; [|intros [? ?]; try discriminate]); try lia.

Create HintDb consumes_db.

Ltac consumes_step :=
  first [ wp_structure | wp_helper | wp_action | wp_call ident:(consumes_db) ].

Lemma parse_number_consumes : consumes 1 parse_number.
Proof.
  intros p. unfold parse_number. repeat consumes_step; consumed_solve.
Qed.

Lemma expression_consumes n :
  consumes 1 (parse_expression n) ∧
  consumes 1 (parse_simple_expression n) ∧
  consumes 1 (parse_additive_expression n) ∧
  (∀ e, consumes 0 (additive_loop n e)) ∧
  consumes 1 (parse_term n) ∧
  (∀ e, consumes 0 (term_loop n e)) ∧
  consumes 1 (parse_factor n) ∧
  consumes 1 (parse_var n) ∧
  consumes 1 (parse_call n) ∧
  (∀ a, consumes 0 (call_args_loop n a)).
Proof.
  induction n as [|n IH].
  { unfold consumes; repeat apply conj; intro_wp; apply wp_out_of_fuel. }
  destruct IH as (IHe & IHs & IHa & IHal & IHt & IHtl & IHf & IHv & IHc & IHcl).
  pose proof parse_number_consumes as IHn.
  unfold consumes; repeat apply conj; intro_wp; simpl.
  all: repeat consumes_step; consumed_solve.
Qed.

Lemma parse_expression_consumes n : consumes 1 (parse_expression n).
Proof. apply expression_consumes. Qed.

Lemma parse_var_declaration_consumes : consumes 1 parse_var_declaration.
Proof.
  pose proof parse_number_consumes.
  intros p. unfold parse_var_declaration. repeat consumes_step; consumed_solve.
Qed.

Lemma parse_param_consumes : consumes 1 parse_param.
Proof.
  intros p. unfold parse_param. repeat consumes_step; consumed_solve.
Qed.

Lemma parse_expr_stmt_consumes n : consumes 1 (parse_expr_stmt n).
Proof.
  pose proof (parse_expression_consumes n).
  intros p. unfold parse_expr_stmt. repeat consumes_step; consumed_solve.
Qed.

Lemma parse_return_stmt_consumes n : consumes 1 (parse_return_stmt n).
Proof.
  pose proof (parse_expression_consumes n).
  intros p. unfold parse_return_stmt. repeat consumes_step; consumed_solve.
Qed.

Lemma local_declarations_consumes n decls : consumes 0 (local_declarations n decls).
Proof.
  pose proof parse_var_declaration_consumes.
  revert decls. induction n as [|n IH]; intros decls p; simpl.
  { apply wp_out_of_fuel. }
  repeat consumes_step; consumed_solve.
Qed.

Lemma statement_consumes n :
  consumes 1 (parse_statement n) ∧
  (∀ f, consumes 1 (parse_compound_stmt n f)) ∧
  (∀ s, consumes 0 (statement_list n s)) ∧
  consumes 1 (parse_selection_stmt n) ∧
  consumes 1 (parse_iteration_stmt n).
Proof.
  induction n as [|n IH].
  { unfold consumes; repeat apply conj; intro_wp; apply wp_out_of_fuel. }
  destruct IH as (IHs & IHc & IHl & IHi & IHw).
  pose proof (parse_expression_consumes n).
  pose proof (parse_expr_stmt_consumes n).
  pose proof (parse_return_stmt_consumes n).
  pose proof (local_declarations_consumes n).
  unfold consumes; repeat apply conj; intro_wp; simpl.
  all: repeat consumes_step; consumed_solve.
Qed.

Lemma parse_compound_stmt_consumes n f : consumes 1 (parse_compound_stmt n f).
Proof. apply statement_consumes. Qed.

Lemma param_list_rest_consumes n fd : consumes 0 (param_list_rest n fd).
Proof.
  pose proof parse_param_consumes.
  induction n as [|n IH]; intros p; simpl.
  { apply wp_out_of_fuel. }
  repeat consumes_step; consumed_solve.
Qed.

Lemma parse_params_consumes n fd : consumes 0 (parse_params n fd).
Proof.
  pose proof parse_param_consumes.
  pose proof (param_list_rest_consumes n fd).
  intros p. unfold parse_params. repeat consumes_step; consumed_solve.
Qed.

Lemma parse_fun_params_and_body_consumes n fd :
  consumes 1 (parse_fun_params_and_body n fd).
Proof.
  pose proof (parse_params_consumes n fd).
  pose proof (parse_compound_stmt_consumes n).
  intros p. unfold parse_fun_params_and_body. repeat consumes_step; consumed_solve.
Qed.

Lemma parse_fun_declaration_consumes n : consumes 1 (parse_fun_declaration n).
Proof.
  pose proof (parse_fun_params_and_body_consumes n).
  intros p. unfold parse_fun_declaration. repeat consumes_step; consumed_solve.
Qed.

Lemma parse_declaration_consumes n : consumes 1 (parse_declaration n).
Proof.
  pose proof (parse_fun_declaration_consumes n).
  pose proof parse_var_declaration_consumes.
  intros p. unfold parse_declaration. repeat consumes_step; consumed_solve.
Qed.

Lemma declaration_list_consumes n prog : consumes 1 (declaration_list n prog).
Proof.
  revert prog. induction n as [|n IH]; intros prog p; simpl.
  { apply wp_out_of_fuel. }
  pose proof (parse_declaration_consumes n).
  repeat consumes_step; consumed_solve.
Qed.
(** ** Productions return *)

Lemma returns_bind {A B} (m : Action A) (k : A → Action B) p :
  returns m p →
  wp m (fun r p' => match r with
                    | Some a => returns (k a) p'
                    | None => True
                    end) p →
  returns (bind m k) p.
Proof.
  unfold returns, wp, bind. intros Hm Hk.
  destruct (m p) as [[a|] p'|] eqn:E; [|discriminate|contradiction].
  exact (Hk _ _ eq_refl).
Qed.

Lemma returns_ret {A} (a : A) p : returns (ret a) p.
Proof. discriminate. Qed.

Lemma returns_get {A} (f : Parser → A) p : returns (get f) p.
Proof. discriminate. Qed.

Lemma returns_run {A} (s : Step A) p : returns (run s) p.
Proof. discriminate. Qed.

Lemma returns_with_scope {A} flags (body : Action A) p :
  returns body (enter_scope flags p) → returns (with_scope flags body) p.
Proof.
  unfold returns, with_scope. intros H.
  destruct (body (enter_scope flags p)); [discriminate|contradiction].
Qed.

Lemma returns_bind_get {A B} (f : Parser → A) (k : A → Action B) p :
  returns (k (f p)) p → returns (bind (get f) k) p.
Proof. intros H. exact H. Qed.

Ltac returns_structure :=
  lazymatch goal with
  | |- returns (bind (get _) _) _ => apply returns_bind_get; cbv beta
  | |- returns (bind _ _) _ => apply returns_bind
  | |- returns (ret _) _ => apply returns_ret
  | |- returns (get _) _ => apply returns_get
  | |- returns (run _) _ => apply returns_run
  | |- returns (with_scope _ _) _ => apply returns_with_scope
  | |- returns (if negb ?b then _ else _) _ => destruct b eqn:?; cbn [negb]
  | |- returns (if ?b then _ else _) _ => destruct b eqn:?
  | |- returns (match ?x with _ => _ end) _ => destruct x eqn:?
  | |- match Some _ with Some _ => _ | None => _ end => cbv beta iota
  | |- match None with Some _ => _ | None => _ end => cbv beta iota
  | |- match ?x with Some _ => _ | None => True end => destruct x eqn:?; [|exact I]
  | |- True => exact I
  end.

(** The call of a production: it returns by the hypothesis on the budget,
    and what it consumed is recorded. *)
Ltac returns_call :=
  lazymatch goal with
  | |- returns _ _ =>
      match goal with
      | H : _ |- _ => apply H; unfold enough in *; consumed_solve
      end
  | |- wp _ _ _ =>
      first [ wp_structure
            | wp_helper
            | wp_action
            | eapply wp_conseq;
              [ match goal with H : _ |- _ => apply H end
              | cbv beta; intros [?|] ? ?; [|exact I] ]
            | intros [?|] ? _; [|exact I] ]
  end.

Ltac returns_step := first [ returns_structure | returns_call ].

Lemma parse_number_returns p : returns parse_number p.
Proof. unfold parse_number. repeat returns_step. Qed.

Lemma parse_var_declaration_returns p : returns parse_var_declaration p.
Proof.
  pose proof parse_number_returns.
  unfold parse_var_declaration. repeat returns_step.
Qed.

Lemma parse_param_returns p : returns parse_param p.
Proof. unfold parse_param. repeat returns_step. Qed.

Lemma expression_returns n :
  (∀ p, enough 6 p n → returns (parse_expression n) p) ∧
  (∀ p, enough 5 p n → returns (parse_simple_expression n) p) ∧
  (∀ p, enough 4 p n → returns (parse_additive_expression n) p) ∧
  (∀ e p, enough 1 p n → returns (additive_loop n e) p) ∧
  (∀ p, enough 3 p n → returns (parse_term n) p) ∧
  (∀ e p, enough 1 p n → returns (term_loop n e) p) ∧
  (∀ p, enough 2 p n → returns (parse_factor n) p) ∧
  (∀ p, enough 1 p n → returns (parse_var n) p) ∧
  (∀ p, enough 1 p n → returns (parse_call n) p) ∧
  (∀ a p, enough 1 p n → returns (call_args_loop n a) p).
Proof.
  induction n as [|n IH].
  { unfold enough. repeat apply conj; intros; lia. }
  destruct IH as (IHe & IHs & IHa & IHal & IHt & IHtl & IHf & IHv & IHc & IHcl).
  pose proof parse_number_returns as Hn.
  destruct (expression_consumes n) as (Ce & Cs & Ca & Cal & Ct & Ctl & Cf & Cv & Cc & Ccl).
  pose proof parse_number_consumes as Cn.
  repeat apply conj; intros; simpl.
  all: repeat returns_step.
Qed.

Lemma parse_expression_returns n p : enough 6 p n → returns (parse_expression n) p.
Proof. apply expression_returns. Qed.

Lemma parse_expr_stmt_returns n p : enough 6 p n → returns (parse_expr_stmt n) p.
Proof.
  intros Hn.
  pose proof (parse_expression_returns n).
  pose proof (parse_expression_consumes n).
  unfold parse_expr_stmt. repeat returns_step.
Qed.

Lemma parse_return_stmt_returns n p : enough 6 p n → returns (parse_return_stmt n) p.
Proof.
  intros Hn.
  pose proof (parse_expression_returns n).
  pose proof (parse_expression_consumes n).
  unfold parse_return_stmt. repeat returns_step.
Qed.

Lemma local_declarations_returns n decls p :
  enough 1 p n → returns (local_declarations n decls) p.
Proof.
  pose proof parse_var_declaration_returns.
  pose proof parse_var_declaration_consumes.
  revert decls p. induction n as [|n IH]; intros decls p Hn; simpl.
  { unfold enough in Hn. lia. }
  repeat returns_step.
Qed.

Lemma statement_returns n :
  (∀ p, enough 7 p n → returns (parse_statement n) p) ∧
  (∀ f p, enough 1 p n → returns (parse_compound_stmt n f) p) ∧
  (∀ s p, enough 8 p n → returns (statement_list n s) p) ∧
  (∀ p, enough 1 p n → returns (parse_selection_stmt n) p) ∧
  (∀ p, enough 1 p n → returns (parse_iteration_stmt n) p).
Proof.
  induction n as [|n IH].
  { unfold enough. repeat apply conj; intros; lia. }
  destruct IH as (IHs & IHc & IHl & IHi & IHw).
  pose proof (parse_expression_returns n).
  pose proof (parse_expr_stmt_returns n).
  pose proof (parse_return_stmt_returns n).
  pose proof (local_declarations_returns n).
  destruct (statement_consumes n) as (Cs & Cc & Cl & Ci & Cw).
  pose proof (parse_expression_consumes n).
  pose proof (parse_expr_stmt_consumes n).
  pose proof (parse_return_stmt_consumes n).
  pose proof (local_declarations_consumes n).
  repeat apply conj; intros; simpl.
  all: repeat returns_step.
Qed.

Lemma parse_compound_stmt_returns n f p :
  enough 1 p n → returns (parse_compound_stmt n f) p.
Proof. apply statement_returns. Qed.

Lemma param_list_rest_returns n fd p : enough 1 p n → returns (param_list_rest n fd) p.
Proof.
  pose proof parse_param_returns.
  pose proof parse_param_consumes.
  revert p. induction n as [|n IH]; intros p Hn; simpl.
  { unfold enough in Hn. lia. }
  repeat returns_step.
Qed.

Lemma parse_params_returns n fd p : enough 1 p n → returns (parse_params n fd) p.
Proof.
  intros Hn.
  pose proof parse_param_returns.
  pose proof parse_param_consumes.
  pose proof (param_list_rest_returns n fd).
  unfold parse_params. repeat returns_step.
Qed.

Lemma parse_fun_params_and_body_returns n fd p :
  enough 1 p n → returns (parse_fun_params_and_body n fd) p.
Proof.
  intros Hn.
  pose proof (parse_params_returns n fd).
  pose proof (parse_params_consumes n fd).
  pose proof (parse_compound_stmt_returns n).
  unfold parse_fun_params_and_body. repeat returns_step.
Qed.

Lemma parse_fun_declaration_returns n p :
  enough 1 p n → returns (parse_fun_declaration n) p.
Proof.
  intros Hn.
  pose proof (parse_fun_params_and_body_returns n).
  unfold parse_fun_declaration. repeat returns_step.
Qed.

Lemma parse_declaration_returns n p :
  enough 1 p n → returns (parse_declaration n) p.
Proof.
  intros Hn.
  pose proof (parse_fun_declaration_returns n).
  pose proof parse_var_declaration_returns.
  unfold parse_declaration. repeat returns_step.
Qed.

Lemma declaration_list_returns n prog p :
  enough 2 p n → returns (declaration_list n prog) p.
Proof.
  revert prog p. induction n as [|n IH]; intros prog p Hn; simpl.
  { unfold enough in Hn. lia. }
  pose proof (parse_declaration_returns n).
  pose proof (parse_declaration_consumes n).
  repeat returns_step.
Qed.

Lemma parse_program_returns n p :
  enough 2 p n → returns (parse_program n) p.
Proof.
  intros Hn.
  pose proof (declaration_list_returns n).
  unfold parse_program. repeat returns_step.
Qed.
(** ** A larger recursion budget changes no result *)

Lemma refines_refl {A} (m : Action A) : refines m m.
Proof. intros p r p' E. exact E. Qed.

Lemma refines_trans {A} (m1 m2 m3 : Action A) :
  refines m1 m2 → refines m2 m3 → refines m1 m3.
Proof. intros H1 H2 p r p' E. apply H2, H1, E. Qed.

Lemma refines_bind {A B} (m m' : Action A) (k k' : A → Action B) :
  refines m m' → (∀ a, refines (k a) (k' a)) → refines (bind m k) (bind m' k').
Proof.
  unfold refines, bind. intros Hm Hk p r p'' E.
  destruct (m p) as [[a|] p'|] eqn:Em; try discriminate.
  - rewrite (Hm _ _ _ Em). apply Hk, E.
  - rewrite (Hm _ _ _ Em). exact E.
Qed.

Lemma refines_with_scope {A} flags (m m' : Action A) :
  refines m m' → refines (with_scope flags m) (with_scope flags m').
Proof.
  unfold refines, with_scope. intros Hm p r p' E.
  destruct (m (enter_scope flags p)) as [r0 p0|] eqn:Em; try discriminate.
  rewrite (Hm _ _ _ Em). exact E.
Qed.

Lemma refines_out_of_fuel {A} (m : Action A) : refines (fun _ => OutOfFuel) m.
Proof. intros p r p' E. discriminate. Qed.

Ltac refines_step :=
  lazymatch goal with
  | |- refines (fun _ => OutOfFuel) _ => apply refines_out_of_fuel
  | |- refines (bind _ _) (bind _ _) => apply refines_bind; [|intros ?]
  | |- refines (with_scope _ _) (with_scope _ _) => apply refines_with_scope
  | |- refines (if ?b then _ else _) _ => destruct b
  | |- refines (match ?x with _ => _ end) _ => destruct x
  | |- refines _ _ =>
      first [ match goal with H : _ |- _ => apply H end | apply refines_refl ]
  end.

Ltac head_of t :=
  lazymatch t with
  | ?f _ => head_of f
  | _ => t
  end.

(** Unfolds the two sides of [refines (f (S n) ..) (f (S (S n)) ..)] by one
    level each. *)
Ltac unfold_fuel n :=
  lazymatch goal with
  | |- refines ?l ?r =>
      let f := head_of l in
      let rhs := fresh "rhs" in
      set (rhs := r); cbn [f]; subst rhs;
      let m := fresh "m" in
      let E := fresh "E" in
      remember (S n) as m eqn:E; cbn [f]; subst m
  end.

Lemma expression_fuel n :
  refines (parse_expression n) (parse_expression (S n)) ∧
  refines (parse_simple_expression n) (parse_simple_expression (S n)) ∧
  refines (parse_additive_expression n) (parse_additive_expression (S n)) ∧
  (∀ e, refines (additive_loop n e) (additive_loop (S n) e)) ∧
  refines (parse_term n) (parse_term (S n)) ∧
  (∀ e, refines (term_loop n e) (term_loop (S n) e)) ∧
  refines (parse_factor n) (parse_factor (S n)) ∧
  refines (parse_var n) (parse_var (S n)) ∧
  refines (parse_call n) (parse_call (S n)) ∧
  (∀ a, refines (call_args_loop n a) (call_args_loop (S n) a)).
Proof.
  induction n as [|n IH].
  { repeat apply conj; intros; apply refines_out_of_fuel. }
  destruct IH as (IHe & IHs & IHa & IHal & IHt & IHtl & IHf & IHv & IHc & IHcl).
  repeat apply conj; intros; unfold_fuel n; repeat refines_step.
Qed.

Lemma refines_le {A} (f : nat → Action A) :
  (∀ n, refines (f n) (f (S n))) → ∀ n m, n ≤ m → refines (f n) (f m).
Proof.
  intros Hs n m Hle. induction Hle as [|m Hle IH].
  - apply refines_refl.
  - eapply refines_trans; [exact IH | apply Hs].
Qed.

Lemma parse_expression_fuel n : refines (parse_expression n) (parse_expression (S n)).
Proof. apply expression_fuel. Qed.

Lemma parse_simple_expression_fuel n :
  refines (parse_simple_expression n) (parse_simple_expression (S n)).
Proof. apply expression_fuel. Qed.

Lemma parse_additive_expression_fuel n :
  refines (parse_additive_expression n) (parse_additive_expression (S n)).
Proof. apply expression_fuel. Qed.

Lemma parse_term_fuel n : refines (parse_term n) (parse_term (S n)).
Proof. apply expression_fuel. Qed.

Lemma parse_factor_fuel n : refines (parse_factor n) (parse_factor (S n)).
Proof. apply expression_fuel. Qed.

Lemma parse_var_fuel n : refines (parse_var n) (parse_var (S n)).
Proof. apply expression_fuel. Qed.

Lemma parse_call_fuel n : refines (parse_call n) (parse_call (S n)).
Proof. apply expression_fuel. Qed.

Lemma parse_expr_stmt_fuel n : refines (parse_expr_stmt n) (parse_expr_stmt (S n)).
Proof.
  pose proof (parse_expression_fuel n).
  unfold parse_expr_stmt. repeat refines_step.
Qed.

Lemma parse_return_stmt_fuel n : refines (parse_return_stmt n) (parse_return_stmt (S n)).
Proof.
  pose proof (parse_expression_fuel n).
  unfold parse_return_stmt. repeat refines_step.
Qed.

Lemma local_declarations_fuel n decls :
  refines (local_declarations n decls) (local_declarations (S n) decls).
Proof.
  revert decls. induction n as [|n IH]; intros decls.
  { apply refines_out_of_fuel. }
  unfold_fuel n; repeat refines_step.
Qed.

Lemma statement_fuel n :
  refines (parse_statement n) (parse_statement (S n)) ∧
  (∀ f, refines (parse_compound_stmt n f) (parse_compound_stmt (S n) f)) ∧
  (∀ s, refines (statement_list n s) (statement_list (S n) s)) ∧
  refines (parse_selection_stmt n) (parse_selection_stmt (S n)) ∧
  refines (parse_iteration_stmt n) (parse_iteration_stmt (S n)).
Proof.
  induction n as [|n IH].
  { repeat apply conj; intros; apply refines_out_of_fuel. }
  destruct IH as (IHs & IHc & IHl & IHi & IHw).
  pose proof (parse_expression_fuel n).
  pose proof (parse_expr_stmt_fuel n).
  pose proof (parse_return_stmt_fuel n).
  pose proof (local_declarations_fuel n).
  repeat apply conj; intros; unfold_fuel n; repeat refines_step.
Qed.

Lemma parse_compound_stmt_fuel n f :
  refines (parse_compound_stmt n f) (parse_compound_stmt (S n) f).
Proof. apply statement_fuel. Qed.

Lemma param_list_rest_fuel n fd :
  refines (param_list_rest n fd) (param_list_rest (S n) fd).
Proof.
  induction n as [|n IH].
  { apply refines_out_of_fuel. }
  unfold_fuel n; repeat refines_step.
Qed.

Lemma parse_params_fuel n fd : refines (parse_params n fd) (parse_params (S n) fd).
Proof.
  pose proof (param_list_rest_fuel n fd).
  unfold parse_params. repeat refines_step.
Qed.

Lemma parse_fun_params_and_body_fuel n fd :
  refines (parse_fun_params_and_body n fd) (parse_fun_params_and_body (S n) fd).
Proof.
  pose proof (parse_params_fuel n fd).
  pose proof (parse_compound_stmt_fuel n).
  unfold parse_fun_params_and_body. repeat refines_step.
Qed.

Lemma parse_fun_declaration_fuel n :
  refines (parse_fun_declaration n) (parse_fun_declaration (S n)).
Proof.
  pose proof (parse_fun_params_and_body_fuel n).
  unfold parse_fun_declaration. repeat refines_step.
Qed.

Lemma parse_declaration_fuel n : refines (parse_declaration n) (parse_declaration (S n)).
Proof.
  pose proof (parse_fun_declaration_fuel n).
  unfold parse_declaration. repeat refines_step.
Qed.

Lemma declaration_list_fuel n prog :
  refines (declaration_list n prog) (declaration_list (S n) prog).
Proof.
  revert prog. induction n as [|n IH]; intros prog.
  { apply refines_out_of_fuel. }
  pose proof (parse_declaration_fuel n).
  unfold_fuel n; repeat refines_step.
Qed.

Lemma parse_program_fuel n : refines (parse_program n) (parse_program (S n)).
Proof.
  pose proof (declaration_list_fuel n).
  unfold parse_program. repeat refines_step.
Qed.
(** ** Running a production forward *)

Lemma bind_some {A B} (m : Action A) (k : A → Action B) p a p' :
  m p = Returns (Some a) p' → bind m k p = k a p'.
Proof. unfold bind. intros ->. reflexivity. Qed.


Lemma bind_get {A B} (f : Parser → A) (k : A → Action B) p :
  bind (get f) k p = k (f p) p.
Proof. reflexivity. Qed.

Lemma bind_run {A B} (s : Step A) (k : A → Action B) p :
  bind (run s) k p =
    match fst (s p) with
    | Some a => k a (snd (s p))
    | None => Returns None (snd (s p))
    end.
Proof. reflexivity. Qed.

Lemma try_consume_in (cs : list Category) p :
  category (peek_word p) ∈ cs → try_consume cs p = (Some (peek_word p), advance p).
Proof.
  intros H. destruct (try_consume_cases cs p) as [[_ E] | [Hn _]]; [exact E | contradiction].
Qed.

Lemma try_consume_not_in (cs : list Category) p :
  category (peek_word p) ∉ cs → try_consume cs p = (None, p).
Proof.
  intros H. destruct (try_consume_cases cs p) as [[Hn _] | [_ E]]; [contradiction | exact E].
Qed.

Lemma expect_and_consume_match c p :
  category (peek_word p) = c → expect_and_consume c p = (Some (peek_word p), advance p).
Proof.
  intros H. destruct (expect_and_consume_cases c p) as [[_ E] | [Hn _]];
    [exact E | contradiction].
Qed.

Lemma expect_and_consume_miss c p :
  category (peek_word p) ≠ c →
  expect_and_consume c p =
    (None, report (location (peek_word p)) parser_expected_token [ParamCategory c] p).
Proof.
  intros H. destruct (expect_and_consume_cases c p) as [[Hn _] | [_ E]];
    [contradiction | exact E].
Qed.

(** The loops of the left-recursive productions associate to the left. *)
Lemma additive_loop_left n rest :
  ∀ a p p',
    operands [Plus; Minus] (parse_term n) p rest p' →
    additive_loop (S (length rest + n)) a p = Returns (Some (left_assoc a rest)) p'.
Proof.
  induction rest as [|[op e] rest IH]; intros a p p' Hops; inversion Hops; subst.
  - cbn [additive_loop length]. rewrite bind_run. unfold optional.
    rewrite try_consume_not_in by assumption. reflexivity.
  - cbn [additive_loop length]. rewrite bind_run. unfold optional.
    rewrite try_consume_in by assumption. cbn [fst snd].
    erewrite bind_some; cycle 1.
    { eapply (refines_le parse_term parse_term_fuel n); [|eassumption]. lia. }
    rewrite bind_run. cbn [act_on_binary_expr pure fst snd].
    change (S (length rest) + n) with (S (length rest + n)).
    apply IH. assumption.
Qed.

Lemma term_loop_left n rest :
  ∀ a p p',
    operands [Multiply; Divide] (parse_factor n) p rest p' →
    term_loop (S (length rest + n)) a p = Returns (Some (left_assoc a rest)) p'.
Proof.
  induction rest as [|[op e] rest IH]; intros a p p' Hops; inversion Hops; subst.
  - cbn [term_loop length]. rewrite bind_run. unfold optional.
    rewrite try_consume_not_in by assumption. reflexivity.
  - cbn [term_loop length]. rewrite bind_run. unfold optional.
    rewrite try_consume_in by assumption. cbn [fst snd].
    erewrite bind_some; cycle 1.
    { eapply (refines_le parse_factor parse_factor_fuel n); [|eassumption]. lia. }
    rewrite bind_run. cbn [act_on_binary_expr pure fst snd].
    change (S (length rest) + n) with (S (length rest + n)).
    apply IH. assumption.
Qed.

Lemma parse_additive_expression_left n p0 a p1 rest p' :
  parse_term n p0 = Returns (Some a) p1 →
  operands [Plus; Minus] (parse_term n) p1 rest p' →
  parse_additive_expression (S (S (length rest + n))) p0
    = Returns (Some (left_assoc a rest)) p'.
Proof.
  intros Ha Hops. cbn [parse_additive_expression].
  erewrite bind_some; cycle 1.
  { eapply (refines_le parse_term parse_term_fuel n); [|eassumption]. lia. }
  apply additive_loop_left, Hops.
Qed.

Lemma parse_term_left n p0 a p1 rest p' :
  parse_factor n p0 = Returns (Some a) p1 →
  operands [Multiply; Divide] (parse_factor n) p1 rest p' →
  parse_term (S (S (length rest + n))) p0 = Returns (Some (left_assoc a rest)) p'.
Proof.
  intros Ha Hops. cbn [parse_term].
  erewrite bind_some; cycle 1.
  { eapply (refines_le parse_factor parse_factor_fuel n); [|eassumption]. lia. }
  apply term_loop_left, Hops.
Qed.

Lemma elem_of_pair (c a b : Category) : c = a ∨ c = b → c ∈ [a; b].
Proof. intros [-> | ->]; [left | right; left]. Qed.

Lemma not_elem_of_pair (c a b : Category) : c ≠ a → c ≠ b → c ∉ [a; b].
Proof.
  intros Ha Hb H. apply elem_of_cons in H as [H|H]; [contradiction|].
  apply elem_of_cons in H as [H|H]; [contradiction|]. apply elem_of_nil in H. exact H.
Qed.
(** * The properties of the parser *)

(** ** The choice between the two declarations *)

(** C6: [parse_declaration] parses a <fun-declaration> exactly when the
    third word of the window, [lookahead(2)], is an open parenthesis, and a
    <var-declaration> otherwise; so a declaration it returns is a function
    exactly when that word is an open parenthesis. *)
Theorem parse_declaration_by_third_word n p :
  parse_declaration n p =
    (if bool_decide (category (lookahead 2 p) = OpenParen)
     then map_outcome DFun (parse_fun_declaration n p)
     else map_outcome DVar (parse_var_declaration p)) ∧
  (∀ d p', parse_declaration n p = Returns (Some d) p' →
     (is_fun_decl d = true ↔ category (lookahead 2 p) = OpenParen) ∧
     (is_var_decl d = true ↔ category (lookahead 2 p) ≠ OpenParen)).
Proof.
  assert (E : parse_declaration n p =
    (if bool_decide (category (lookahead 2 p) = OpenParen)
     then map_outcome DFun (parse_fun_declaration n p)
     else map_outcome DVar (parse_var_declaration p))).
  { unfold parse_declaration, bind, get, lookahead_is, ret.
    case_bool_decide.
    - destruct (parse_fun_declaration n p) as [[d|] q|]; reflexivity.
    - destruct (parse_var_declaration p) as [[d|] q|]; reflexivity. }
  split; [exact E|].
  intros d p' Hd. rewrite E in Hd.
  case_bool_decide as Hc.
  - destruct (parse_fun_declaration n p) as [[f|] q|]; inversion Hd; subst.
    simpl. split; split; intros; congruence.
  - destruct (parse_var_declaration p) as [[v|] q|]; inversion Hd; subst.
    simpl. split; split; intros; congruence.
Qed.

(** [int f(void) { }] is a function: its third word is an open
    parenthesis. *)
Lemma parse_declaration_by_third_word_witness :
  let p := enter_scope NoFlags (make_parser "int f(void) { }") in
  ∃ d p', parse_declaration 20 p = Returns (Some d) p' ∧ is_fun_decl d = true.
Proof.
  intros p.
  destruct (parse_declaration 20 p) as [[d|] p'|] eqn:E;
    [ | vm_compute in E; discriminate E | vm_compute in E; discriminate E].
  exists d, p'. split; [reflexivity|].
  apply (proj2 (parse_declaration_by_third_word 20 p) d p' E).
  vm_compute. reflexivity.
Defined.

(** A function and a variable, told apart by the third word. *)
Example parse_declaration_fun :
  ∃ d p', parse_declaration 20 (enter_scope NoFlags (make_parser "int f(void) { }"))
          = Returns (Some (DFun d)) p'.
Proof. vm_compute. eauto. Qed.

Example parse_declaration_var :
  ∃ d p', parse_declaration 20 (enter_scope NoFlags (make_parser "int f[3];"))
          = Returns (Some (DVar d)) p'.
Proof. vm_compute. eauto. Qed.

(** ** The empty program *)

Lemma parse_program_no_words n p :
  words p = [] →
  parse_program (S n) p =
    Returns None (report (source_end p) parser_expected_type [] (enter_scope NoFlags p)).
Proof.
  intros Hw. destruct p as [ws se ds sm]. simpl in Hw. subst ws. reflexivity.
Qed.

(** C8: the empty program holds no word; on it [parse_program] still tries
    a declaration, emits [parser_expected_type] and returns null, and the
    driver exits with a code that is not zero.  The same goes for every
    source without a word. *)
Theorem empty_program_expected_type :
  fst (scan_source empty_program) = [] ∧
  (∃ p', parse empty_program = Returns None p' ∧
         map code (diags p') = [parser_expected_type]) ∧
  exit_code empty_program ≠ 0 ∧
  (∀ n p, words p = [] →
     ∃ p', parse_program (S n) p = Returns None p' ∧
           diags p' = diags p ++ [mkDiagnostic (source_end p) parser_expected_type [] []]).
Proof.
  split; [reflexivity|].
  split; [eexists; split; reflexivity|].
  split; [vm_compute; discriminate|].
  intros n p Hw. rewrite (parse_program_no_words n p Hw).
  eexists; split; reflexivity.
Qed.

(** The empty program, at the smallest budget. *)
Lemma empty_program_expected_type_witness :
  let p := make_parser empty_program in
  words p = [] ∧
  ∃ p', parse_program 1 p = Returns None p' ∧
        diags p' = diags p ++ [mkDiagnostic (source_end p) parser_expected_type [] []].
Proof.
  intros p.
  assert (Hw : words p = []) by (vm_compute; reflexivity).
  split; [exact Hw|].
  exact (proj2 (proj2 (proj2 empty_program_expected_type)) 0 p Hw).
Defined.

(** ** Left association *)

(** C7: [parse_additive_expression] and [parse_term] loop over their
    operands and associate them to the left: when the operands [a], [b] and
    [c] are parsed in turn, with an operator of the production before [b]
    and before [c] and none after [c], the node returned is
    [BinaryExpr(BinaryExpr(a, op1, b), op2, c)]. *)
Theorem left_recursive_productions_associate_left n p0 a p1 b p2 c p3 :
  (parse_term n p0 = Returns (Some a) p1 →
   category (peek_word p1) = Plus ∨ category (peek_word p1) = Minus →
   parse_term n (advance p1) = Returns (Some b) p2 →
   category (peek_word p2) = Plus ∨ category (peek_word p2) = Minus →
   parse_term n (advance p2) = Returns (Some c) p3 →
   category (peek_word p3) ≠ Plus ∧ category (peek_word p3) ≠ Minus →
   parse_additive_expression (n + 4) p0 =
     Returns (Some (EBinaryExpr (category (peek_word p2))
                      (EBinaryExpr (category (peek_word p1)) a b) c)) p3) ∧
  (parse_factor n p0 = Returns (Some a) p1 →
   category (peek_word p1) = Multiply ∨ category (peek_word p1) = Divide →
   parse_factor n (advance p1) = Returns (Some b) p2 →
   category (peek_word p2) = Multiply ∨ category (peek_word p2) = Divide →
   parse_factor n (advance p2) = Returns (Some c) p3 →
   category (peek_word p3) ≠ Multiply ∧ category (peek_word p3) ≠ Divide →
   parse_term (n + 4) p0 =
     Returns (Some (EBinaryExpr (category (peek_word p2))
                      (EBinaryExpr (category (peek_word p1)) a b) c)) p3).
Proof.
  split; intros Ha Ho1 Hb Ho2 Hc [Hn1 Hn2].
  - assert (Hops : operands [Plus; Minus] (parse_term n) p1
                     [(category (peek_word p1), b); (category (peek_word p2), c)] p3).
    { eapply operands_more; [apply elem_of_pair, Ho1 | exact Hb |].
      eapply operands_more; [apply elem_of_pair, Ho2 | exact Hc |].
      apply operands_done, not_elem_of_pair; assumption. }
    replace (n + 4) with (S (S (2 + n))) by lia.
    exact (parse_additive_expression_left n p0 a p1 _ p3 Ha Hops).
  - assert (Hops : operands [Multiply; Divide] (parse_factor n) p1
                     [(category (peek_word p1), b); (category (peek_word p2), c)] p3).
    { eapply operands_more; [apply elem_of_pair, Ho1 | exact Hb |].
      eapply operands_more; [apply elem_of_pair, Ho2 | exact Hc |].
      apply operands_done, not_elem_of_pair; assumption. }
    replace (n + 4) with (S (S (2 + n))) by lia.
    exact (parse_term_left n p0 a p1 _ p3 Ha Hops).
Qed.

(** [7 - 2 + 1] is [(7 - 2) + 1], and [8 / 4 * 2] is [(8 / 4) * 2]. *)
Lemma left_recursive_productions_associate_left_witness :
  (let p0 := make_parser "7 - 2 + 1" in
   parse_additive_expression (3 + 4) p0 =
     Returns (Some (EBinaryExpr Plus (EBinaryExpr Minus (ENumber 7) (ENumber 2))
                      (ENumber 1)))
             (advance (advance (advance (advance (advance p0)))))) ∧
  (let p0 := make_parser "8 / 4 * 2" in
   parse_term (2 + 4) p0 =
     Returns (Some (EBinaryExpr Multiply (EBinaryExpr Divide (ENumber 8) (ENumber 4))
                      (ENumber 2)))
             (advance (advance (advance (advance (advance p0)))))).
Proof.
  split; intros p0.
  - pose proof (proj1 (left_recursive_productions_associate_left 3 p0
                  (ENumber 7) (advance p0)
                  (ENumber 2) (advance (advance (advance p0)))
                  (ENumber 1) (advance (advance (advance (advance (advance p0)))))))
      as H.
    assert (H1 : parse_term 3 p0 = Returns (Some (ENumber 7)) (advance p0))
      by (vm_compute; reflexivity).
    assert (H2 : category (peek_word (advance p0)) = Plus
                 ∨ category (peek_word (advance p0)) = Minus)
      by (right; vm_compute; reflexivity).
    assert (H3 : parse_term 3 (advance (advance p0))
                 = Returns (Some (ENumber 2)) (advance (advance (advance p0))))
      by (vm_compute; reflexivity).
    assert (H4 : category (peek_word (advance (advance (advance p0)))) = Plus
                 ∨ category (peek_word (advance (advance (advance p0)))) = Minus)
      by (left; vm_compute; reflexivity).
    assert (H5 : parse_term 3 (advance (advance (advance (advance p0))))
                 = Returns (Some (ENumber 1))
                     (advance (advance (advance (advance (advance p0))))))
      by (vm_compute; reflexivity).
    assert (H6 : category (peek_word (advance (advance (advance (advance (advance p0))))))
                   ≠ Plus
                 ∧ category (peek_word (advance (advance (advance (advance (advance p0))))))
                   ≠ Minus)
      by (split; vm_compute; discriminate).
    specialize (H H1 H2 H3 H4 H5 H6).
    vm_compute in H. vm_compute. exact H.
  - pose proof (proj2 (left_recursive_productions_associate_left 2 p0
                  (ENumber 8) (advance p0)
                  (ENumber 4) (advance (advance (advance p0)))
                  (ENumber 2) (advance (advance (advance (advance (advance p0)))))))
      as H.
    assert (H1 : parse_factor 2 p0 = Returns (Some (ENumber 8)) (advance p0))
      by (vm_compute; reflexivity).
    assert (H2 : category (peek_word (advance p0)) = Multiply
                 ∨ category (peek_word (advance p0)) = Divide)
      by (right; vm_compute; reflexivity).
    assert (H3 : parse_factor 2 (advance (advance p0))
                 = Returns (Some (ENumber 4)) (advance (advance (advance p0))))
      by (vm_compute; reflexivity).
    assert (H4 : category (peek_word (advance (advance (advance p0)))) = Multiply
                 ∨ category (peek_word (advance (advance (advance p0)))) = Divide)
      by (left; vm_compute; reflexivity).
    assert (H5 : parse_factor 2 (advance (advance (advance (advance p0))))
                 = Returns (Some (ENumber 2))
                     (advance (advance (advance (advance (advance p0))))))
      by (vm_compute; reflexivity).
    assert (H6 : category (peek_word (advance (advance (advance (advance (advance p0))))))
                   ≠ Multiply
                 ∧ category (peek_word (advance (advance (advance (advance (advance p0))))))
                   ≠ Divide)
      by (split; vm_compute; discriminate).
    specialize (H H1 H2 H3 H4 H5 H6).
    vm_compute in H. vm_compute. exact H.
Defined.

(** Any number of operands: the loop folds them to the left. *)
Lemma additive_expression_folds_left n p0 a p1 rest p' :
  parse_term n p0 = Returns (Some a) p1 →
  operands [Plus; Minus] (parse_term n) p1 rest p' →
  ∃ m, parse_additive_expression m p0 = Returns (Some (left_assoc a rest)) p'.
Proof. intros Ha Hr. eexists. eapply parse_additive_expression_left; eassumption. Qed.
(** ** Assignment *)

Lemma as_var_expr_is_var_ref e lvalue :
  as_var_expr e = Some lvalue → lvalue = e ∧ is_var_ref e = true.
Proof. destruct e; simpl; intros E; inversion E; auto. Qed.

Lemma as_var_expr_none e : as_var_expr e = None → is_var_ref e = false.
Proof. destruct e; simpl; intros E; inversion E; auto. Qed.

Lemma parse_expression_by_the_spec n p :
  parse_expression (S n) p =
    expression_by_the_spec (parse_simple_expression n) (parse_expression n) p.
Proof.
  cbn [parse_expression]. unfold expression_by_the_spec, bind at 1.
  destruct (parse_simple_expression n p) as [[expr1|] p1|]; try reflexivity.
  destruct (as_var_expr expr1) as [lvalue|] eqn:Ev.
  - apply as_var_expr_is_var_ref in Ev as [-> ->]. cbn [andb].
    rewrite bind_run. unfold optional, peek_is.
    destruct (try_consume_cases [Assign] p1) as [[Hin ->] | [Hin ->]]; cbn [fst snd].
    + apply list_elem_of_singleton in Hin.
      rewrite bool_decide_eq_true_2 by exact Hin.
      unfold bind. destruct (parse_expression n (advance p1)) as [[expr2|] p2|]; reflexivity.
    + rewrite bool_decide_eq_false_2; [reflexivity|].
      intros E. apply Hin, list_elem_of_singleton, E.
  - apply as_var_expr_none in Ev. rewrite Ev. reflexivity.
Qed.

Lemma act_on_var_node id index p :
  ∃ d, fst (act_on_var id index p) = Some (EVarRef d index).
Proof. unfold act_on_var. destruct scope_lookup as [[]|]; simpl; eauto. Qed.

Lemma act_on_call_node id args l p :
  ∃ d, fst (act_on_call id args l p) = Some (EFunCall d args).
Proof. unfold act_on_call. destruct scope_lookup as [[]|]; simpl; eauto. Qed.

Lemma act_on_number_node w p : ∃ v, fst (act_on_number w p) = Some (ENumber v).
Proof. unfold act_on_number. case_bool_decide; simpl; eauto. Qed.

Lemma assign_wf_all_snoc es e :
  assign_wf_all es → assign_wf e = true → assign_wf_all (es ++ [e]).
Proof.
  unfold assign_wf_all. intros H1 H2. rewrite forallb_app, H1. simpl. rewrite H2. reflexivity.
Qed.

(** The call of a semantic action that builds an expression node. *)
Ltac wp_node :=
  lazymatch goal with
  | |- wp (run (act_on_var ?i ?x)) _ ?p =>
      apply wp_run; let d := fresh "d" in
      destruct (act_on_var_node i x p) as [d ->]
  | |- wp (run (act_on_call ?i ?a ?l)) _ ?p =>
      apply wp_run; let d := fresh "d" in
      destruct (act_on_call_node i a l p) as [d ->]
  | |- wp (run (act_on_number ?w)) _ ?p =>
      apply wp_run; let v := fresh "v" in
      destruct (act_on_number_node w p) as [v ->]
  | |- wp (run (act_on_binary_expr _ _ _)) _ _ => apply wp_run; cbn [act_on_binary_expr pure fst snd]
  | |- wp (run (act_on_assign _ _ _)) _ _ => apply wp_run; cbn [act_on_assign pure fst snd]
  end.

Ltac yields_call :=
  lazymatch goal with
  | |- wp _ _ _ =>
      eapply wp_conseq;
      [ match goal with H : _ |- _ => apply H; try assumption end
      | cbv beta;
        let H := fresh "Hwf" in
        intros [?|] ? H; [specialize (H _ eq_refl)|] ]
  end.

Ltac yields_solve :=
  try (let a := fresh in let E := fresh in
       intros a E; inversion E; subst; clear E);
  repeat match goal with
         | H : as_var_expr _ = Some _ |- _ => apply as_var_expr_is_var_ref in H as [-> ?]
         end;
  try discriminate;
  unfold assign_wf_all in *; rewrite ?forallb_app; cbn [assign_wf forallb];
  repeat match goal with
         | Hpeek : ?c ∈ _ |- context[bool_decide (?c = Assign)] =>
             rewrite (bool_decide_eq_false_2 (c = Assign))
               by (let E := fresh in
                   intros E; rewrite E in Hpeek; revert Hpeek; not_in_list)
         end;
  repeat match goal with
         | H : assign_wf _ = true |- _ => rewrite H
         | H : is_var_ref _ = true |- _ => rewrite H
         | H : forallb assign_wf _ = true |- _ => rewrite H
         end;
  try reflexivity.

Ltac yields_step :=
  first [ wp_structure | wp_helper | wp_node | yields_call ].

Lemma parse_number_wf : yields (fun e => assign_wf e = true) parse_number.
Proof.
  intros p. unfold parse_number. repeat yields_step; yields_solve.
Qed.

Lemma expression_wf n :
  yields (fun e => assign_wf e = true) (parse_expression n) ∧
  yields (fun e => assign_wf e = true) (parse_simple_expression n) ∧
  yields (fun e => assign_wf e = true) (parse_additive_expression n) ∧
  (∀ e, assign_wf e = true → yields (fun e => assign_wf e = true) (additive_loop n e)) ∧
  yields (fun e => assign_wf e = true) (parse_term n) ∧
  (∀ e, assign_wf e = true → yields (fun e => assign_wf e = true) (term_loop n e)) ∧
  yields (fun e => assign_wf e = true) (parse_factor n) ∧
  yields (fun e => assign_wf e = true) (parse_var n) ∧
  yields (fun e => assign_wf e = true) (parse_call n) ∧
  (∀ a, assign_wf_all a → yields assign_wf_all (call_args_loop n a)).
Proof.
  induction n as [|n IH].
  { unfold yields; repeat apply conj; intro_wp; apply wp_out_of_fuel. }
  destruct IH as (IHe & IHs & IHa & IHal & IHt & IHtl & IHf & IHv & IHc & IHcl).
  pose proof parse_number_wf as IHn.
  unfold yields; repeat apply conj; intro_wp; simpl.
  all: repeat yields_step; yields_solve.
Qed.

(** C4: [parse_expression] parses a <simple-expression>; exactly when the
    node is a [VarRef] and the next word is [=], it consumes the [=],
    recurses for the right-hand side (so that assignment associates to the
    right) and builds the [BinaryExpr] with [op = Assign] over the two
    nodes; otherwise it returns the node of the simple expression as it is.
    Every assignment node of an expression it returns has a [VarRef] as its
    left-hand side. *)
Theorem parse_expression_assignment n p :
  parse_expression (S n) p =
    expression_by_the_spec (parse_simple_expression n) (parse_expression n) p ∧
  (∀ e p', parse_expression n p = Returns (Some e) p' → assign_wf e = true).
Proof.
  split; [apply parse_expression_by_the_spec|].
  intros e p' He.
  destruct (expression_wf n) as (Hwf & _).
  exact (Hwf p _ _ He e eq_refl).
Qed.

(** [a = b = 3] is [a = (b = 3)]. *)
Lemma parse_expression_assignment_witness :
  let p0 := make_parser "a = b = 3" in
  let e := EBinaryExpr Assign (EVarRef None None)
             (EBinaryExpr Assign (EVarRef None None) (ENumber 3)) in
  (∃ p', parse_expression 12 p0 = Returns (Some e) p') ∧ assign_wf e = true.
Proof.
  intros p0 e.
  assert (H : ∃ p', parse_expression 12 p0 = Returns (Some e) p').
  { eexists. vm_compute. reflexivity. }
  split; [exact H|].
  destruct H as [p' H].
  exact (proj2 (parse_expression_assignment 12 p0) e p' H).
Defined.

(** The two cases of the production, read off the equation. *)
Lemma parse_expression_returns_simple n p expr1 p1 :
  parse_simple_expression n p = Returns (Some expr1) p1 →
  is_var_ref expr1 = false ∨ category (peek_word p1) ≠ Assign →
  parse_expression (S n) p = Returns (Some expr1) p1.
Proof.
  intros Hs Hc. rewrite parse_expression_by_the_spec. unfold expression_by_the_spec.
  rewrite Hs. destruct Hc as [-> | Hc]; [reflexivity|].
  unfold peek_is. rewrite bool_decide_eq_false_2 by exact Hc.
  rewrite andb_false_r. reflexivity.
Qed.

Lemma parse_expression_builds_assign n p expr1 p1 expr2 p2 :
  parse_simple_expression n p = Returns (Some expr1) p1 →
  is_var_ref expr1 = true →
  category (peek_word p1) = Assign →
  parse_expression n (advance p1) = Returns (Some expr2) p2 →
  parse_expression (S n) p = Returns (Some (EBinaryExpr Assign expr1 expr2)) p2.
Proof.
  intros Hs Hv Hc He. rewrite parse_expression_by_the_spec. unfold expression_by_the_spec.
  rewrite Hs, Hv. unfold peek_is. rewrite bool_decide_eq_true_2 by exact Hc.
  cbn [andb]. rewrite He. reflexivity.
Qed.
(** ** What the grammar derives *)

Lemma last_cons_default (c prev : Category) a :
  List.last (c :: a) prev = List.last a c.
Proof.
  revert c prev. induction a as [|c' a IH]; intros c prev; [reflexivity|].
  change (List.last (c :: c' :: a) prev) with (List.last (c' :: a) prev).
  rewrite (IH c' prev), (IH c' c). reflexivity.
Qed.

Lemma assign_follows_var_app prev a b :
  assign_follows_var prev (a ++ b) =
    assign_follows_var prev a && assign_follows_var (List.last a prev) b.
Proof.
  revert prev. induction a as [|c a IH]; intros prev.
  - reflexivity.
  - cbn [app assign_follows_var]. rewrite IH, andb_assoc, last_cons_default.
    reflexivity.
Qed.

(** In a word stream that the grammar derives, every [=] comes right after
    the last word of a <var>; and a <var> ends with an identifier or a
    closing bracket. *)
Lemma derives_assign_follows_var nt ws :
  Grammar.derives nt ws →
  (∀ prev, assign_follows_var prev ws = true) ∧
  (nt = Grammar.var → ∀ prev, ends_var (List.last ws prev) = true).
Proof.
  induction 1;
    repeat match goal with
           | H : _ ∧ _ |- _ => destruct H
           | H : Grammar.var = Grammar.var → _ |- _ => specialize (H eq_refl)
           end;
    (split; [| try discriminate]).
  all: try (intros prev;
            repeat first [ rewrite assign_follows_var_app
                         | match goal with
                           | H : ∀ prev, assign_follows_var prev _ = true |- _ => rewrite H
                           | H : ∀ prev, ends_var _ = true |- _ => rewrite H
                           end
                         | progress cbn [app assign_follows_var andb bool_decide
                                         decide_rel Category_eq_dec] ];
            reflexivity).
  all: intros _ prev; try reflexivity.
  rewrite app_assoc, last_last. reflexivity.
Qed.

Lemma derives_no_assign_after_paren nt before after :
  ¬ Grammar.derives nt (before ++ [CloseParen; Assign] ++ after).
Proof.
  intros H. apply derives_assign_follows_var in H as [H _].
  specialize (H Eof). rewrite assign_follows_var_app in H.
  cbn [app assign_follows_var] in H.
  rewrite bool_decide_eq_false_2 in H by discriminate.
  rewrite bool_decide_eq_true_2 in H by reflexivity.
  cbn [ends_var] in H. rewrite !andb_false_r, ?andb_false_l in H.
  cbn [andb] in H. rewrite ?andb_false_r in H. discriminate.
Qed.

(** ** A parenthesized variable on the left of [=] *)

Lemma parse_factor_var m q :
  category (peek_word q) = Identifier →
  category (lookahead 1 q) ≠ OpenParen →
  parse_factor (S m) q = parse_var m q.
Proof.
  intros Hp Hl. cbn [parse_factor]. rewrite bind_get, Hp, bind_get.
  unfold lookahead_is. rewrite bool_decide_eq_false_2 by exact Hl. reflexivity.
Qed.

Lemma parse_factor_paren m q e q1 :
  category (peek_word q) = OpenParen →
  parse_expression m (advance q) = Returns (Some e) q1 →
  category (peek_word q1) = CloseParen →
  parse_factor (S m) q = Returns (Some e) (advance q1).
Proof.
  intros Hp He Hc. cbn [parse_factor]. rewrite bind_get, Hp.
  rewrite bind_run. cbn [consume_word consume fst snd].
  rewrite (bind_some _ _ _ _ _ He), bind_run.
  rewrite (expect_and_consume_match _ _ Hc). reflexivity.
Qed.

Lemma parse_term_single m q e q1 :
  parse_factor m q = Returns (Some e) q1 →
  category (peek_word q1) ∉ [Multiply; Divide] →
  parse_term (S (S m)) q = Returns (Some e) q1.
Proof.
  intros He Hn.
  exact (parse_term_left m q e q1 [] q1 He (operands_done _ _ _ Hn)).
Qed.

Lemma parse_additive_expression_single m q e q1 :
  parse_term m q = Returns (Some e) q1 →
  category (peek_word q1) ∉ [Plus; Minus] →
  parse_additive_expression (S (S m)) q = Returns (Some e) q1.
Proof.
  intros He Hn.
  exact (parse_additive_expression_left m q e q1 [] q1 He (operands_done _ _ _ Hn)).
Qed.

Lemma parse_simple_expression_single m q e q1 :
  parse_additive_expression m q = Returns (Some e) q1 →
  category (peek_word q1) ∉ [LessEqual; Less; Greater; GreaterEqual; Equal; NotEqual] →
  parse_simple_expression (S m) q = Returns (Some e) q1.
Proof.
  intros He Hn. cbn [parse_simple_expression].
  rewrite (bind_some _ _ _ _ _ He), bind_run. unfold optional.
  rewrite (try_consume_not_in _ _ Hn). reflexivity.
Qed.

(** An operand followed by a word that is no operator goes up the chain of
    productions from <factor> to <simple-expression> as it is. *)
Lemma parse_simple_expression_of_factor m q e q1 c :
  parse_factor m q = Returns (Some e) q1 →
  category (peek_word q1) = c →
  c ∈ [CloseParen; Assign] →
  parse_simple_expression (m + 5) q = Returns (Some e) q1.
Proof.
  intros He Hc Hin.
  assert (Hno : ∀ cs : list Category, CloseParen ∉ cs → Assign ∉ cs →
                category (peek_word q1) ∉ cs).
  { intros cs H1 H2. rewrite Hc.
    apply elem_of_cons in Hin as [-> | Hin]; [exact H1|].
    apply elem_of_cons in Hin as [-> | Hin]; [exact H2|].
    apply elem_of_nil in Hin. contradiction. }
  replace (m + 5) with (S (S (S (S (S m))))) by lia.
  apply parse_simple_expression_single; [|apply Hno; not_in_list].
  apply parse_additive_expression_single; [|apply Hno; not_in_list].
  apply parse_term_single; [exact He|apply Hno; not_in_list].
Qed.

Lemma parse_var_is_var_ref n : yields (fun e => is_var_ref e = true) (parse_var n).
Proof.
  intros p. destruct n as [|n]; [apply wp_out_of_fuel|]. cbn [parse_var].
  repeat first [ wp_structure | wp_helper | wp_node
               | intros [?|] ? _; cbv beta iota ].
  all: intros a E; inversion E; reflexivity.
Qed.

Lemma parse_var_success n q v q1 :
  parse_var n q = Returns (Some v) q1 →
  category (peek_word q) = Identifier ∧ is_var_ref v = true.
Proof.
  intros H. split; [|exact (parse_var_is_var_ref n q _ _ H v eq_refl)].
  destruct n as [|n]; [discriminate|]. cbn [parse_var] in H.
  rewrite bind_run in H.
  destruct (expect_and_consume_cases Identifier q) as [[Hp _] | [_ E]]; [exact Hp|].
  rewrite E in H. discriminate.
Qed.

(** C9: on [( var ) = expr], a variable reference in parentheses followed
    by [=], [parse_expression] builds the assignment whose left-hand side
    is that variable reference: [parse_factor] gives back the node of the
    expression in the parentheses, and the test for an assignment only
    looks whether that node is a [VarRef].  The grammar derives no such
    stream: none of its productions puts a [=] after a closing
    parenthesis. *)
Theorem parenthesized_var_is_assignable n p v p1 expr2 p2 :
  category (peek_word p) = OpenParen →
  category (lookahead 1 (advance p)) ≠ OpenParen →
  parse_var n (advance p) = Returns (Some v) p1 →
  category (peek_word p1) = CloseParen →
  category (peek_word (advance p1)) = Assign →
  parse_expression n (advance (advance p1)) = Returns (Some expr2) p2 →
  is_var_ref v = true ∧
  parse_expression (n + 14) p = Returns (Some (EBinaryExpr Assign v expr2)) p2 ∧
  (∀ nt before, ¬ Grammar.derives nt (before ++ map category (words p1))).
Proof.
  intros Hopen Hnocall Hvar Hclose Hassign Hrhs.
  destruct (parse_var_success _ _ _ _ Hvar) as [Hid Hv].
  split; [exact Hv|]. split.
  - (* the expression in the parentheses *)
    assert (Hf : parse_factor (S n) (advance p) = Returns (Some v) p1).
    { rewrite parse_factor_var by assumption. exact Hvar. }
    assert (Hs : parse_simple_expression (S n + 5) (advance p) = Returns (Some v) p1).
    { eapply parse_simple_expression_of_factor; [exact Hf | exact Hclose |].
      apply elem_of_cons; left; reflexivity. }
    assert (He : parse_expression (S (S n + 5)) (advance p) = Returns (Some v) p1).
    { apply parse_expression_returns_simple; [exact Hs|].
      right. rewrite Hclose. discriminate. }
    (* the parentheses *)
    assert (Hf' : parse_factor (S (S (S n + 5))) p = Returns (Some v) (advance p1)).
    { eapply parse_factor_paren; eassumption. }
    assert (Hs' : parse_simple_expression (S (S (S n + 5)) + 5) p
                  = Returns (Some v) (advance p1)).
    { eapply parse_simple_expression_of_factor; [exact Hf' | exact Hassign |].
      apply elem_of_cons; right; apply elem_of_cons; left; reflexivity. }
    (* the assignment *)
    replace (n + 14) with (S (S (S (S n + 5)) + 5)) by lia.
    apply parse_expression_builds_assign with (p1 := advance p1); try assumption.
    eapply (refines_le parse_expression parse_expression_fuel n); [|exact Hrhs]. lia.
  - intros nt before.
    assert (Hw : ∃ w1 w2 rest, words p1 = w1 :: w2 :: rest ∧
                               category w1 = CloseParen ∧ category w2 = Assign).
    { unfold peek_word, lookahead, advance, set_words in Hclose, Hassign.
      cbn [words] in Hassign.
      destruct (words p1) as [|w1 [|w2 rest]]; cbn in Hclose, Hassign;
        try discriminate.
      eauto 6. }
    destruct Hw as (w1 & w2 & rest & -> & Hc1 & Hc2).
    cbn [map]. rewrite Hc1, Hc2.
    apply (derives_no_assign_after_paren nt before (map category rest)).
Qed.

(** [(x) = 1] at the head of a statement. *)
Lemma parenthesized_var_is_assignable_witness :
  let p := make_parser "(x) = 1;" in
  is_var_ref (EVarRef None None) = true ∧
  parse_expression (6 + 14) p =
    Returns (Some (EBinaryExpr Assign (EVarRef None None) (ENumber 1)))
            (report 1 sema_undeclared_identifier [ParamRange (mkRange 1 "x")]
               (advance (advance (advance (advance (advance p)))))) ∧
  (∀ nt before,
     ¬ Grammar.derives nt (before ++ [CloseParen; Assign; Number; Semicolon])).
Proof.
  intros p.
  pose proof (parenthesized_var_is_assignable 6 p (EVarRef None None)
           (report 1 sema_undeclared_identifier [ParamRange (mkRange 1 "x")]
              (advance (advance p)))
           (ENumber 1)
           (report 1 sema_undeclared_identifier [ParamRange (mkRange 1 "x")]
              (advance (advance (advance (advance (advance p))))))) as H.
  assert (H1 : category (peek_word p) = OpenParen) by (vm_compute; reflexivity).
  assert (H2 : category (lookahead 1 (advance p)) ≠ OpenParen)
    by (vm_compute; discriminate).
  assert (H3 : parse_var 6 (advance p) =
               Returns (Some (EVarRef None None))
                 (report 1 sema_undeclared_identifier [ParamRange (mkRange 1 "x")]
                    (advance (advance p))))
    by (vm_compute; reflexivity).
  assert (H4 : category (peek_word
                 (report 1 sema_undeclared_identifier [ParamRange (mkRange 1 "x")]
                    (advance (advance p)))) = CloseParen)
    by (vm_compute; reflexivity).
  assert (H5 : category (peek_word (advance
                 (report 1 sema_undeclared_identifier [ParamRange (mkRange 1 "x")]
                    (advance (advance p))))) = Assign)
    by (vm_compute; reflexivity).
  assert (H6 : parse_expression 6 (advance (advance
                 (report 1 sema_undeclared_identifier [ParamRange (mkRange 1 "x")]
                    (advance (advance p))))) =
               Returns (Some (ENumber 1))
                 (report 1 sema_undeclared_identifier [ParamRange (mkRange 1 "x")]
                    (advance (advance (advance (advance (advance p)))))))
    by (vm_compute; reflexivity).
  specialize (H H1 H2 H3 H4 H5 H6).
  vm_compute in H. vm_compute. exact H.
Defined.

(** ** What the parser accepts and the grammar does not *)

(** C1: the parser returns a program for [int f(void) { (x) = 1; }], whose
    word stream the grammar does not derive. *)
Theorem parse_accepts_underivable_stream :
  let src := "int f(void) { (x) = 1; }" in
  (∃ program p', parse src = Returns (Some program) p') ∧
  categories_of src =
    [Int; Identifier; OpenParen; Void; CloseParen; OpenCurly;
     OpenParen; Identifier; CloseParen; Assign; Number; Semicolon; CloseCurly] ∧
  ¬ Grammar.derives Grammar.program (categories_of src).
Proof.
  intros src. split; [|split].
  - eexists _, _. vm_compute. reflexivity.
  - vm_compute. reflexivity.
  - intros H.
    assert (E : categories_of src =
      [Int; Identifier; OpenParen; Void; CloseParen; OpenCurly; OpenParen; Identifier]
         ++ [CloseParen; Assign] ++ [Number; Semicolon; CloseCurly])
      by (vm_compute; reflexivity).
    rewrite E in H. exact (derives_no_assign_after_paren _ _ _ H).
Qed.
(** ** Failure goes up the call chain *)

Lemma count_expected_app a b :
  count_expected (a ++ b) = count_expected a + count_expected b.
Proof. unfold count_expected. rewrite List.filter_app, length_app. reflexivity. Qed.

Lemma emitted_refl p : emitted p p 0.
Proof. exists []. rewrite app_nil_r. split; reflexivity. Qed.

Lemma emitted_trans p q r j k : emitted p q j → emitted q r k → emitted p r (j + k).
Proof.
  intros (ds1 & E1 & C1) (ds2 & E2 & C2). exists (ds1 ++ ds2).
  rewrite E2, E1, app_assoc, count_expected_app, C1, C2. split; reflexivity.
Qed.

Lemma emitted_report l d a p :
  emitted p (report l d a p) (if is_expected (mkDiagnostic l d a []) then 1 else 0).
Proof.
  eexists. split; [reflexivity|]. unfold count_expected. cbn [List.filter].
  destruct is_expected; reflexivity.
Qed.

Lemma emitted_same p q : diags q = diags p → emitted p q 0.
Proof. intros E. exists []. rewrite E, app_nil_r. split; reflexivity. Qed.

Lemma emitted_declare id sym p : emitted p (declare id sym p) 0.
Proof.
  unfold declare. destruct scope_insert.
  - apply emitted_same. reflexivity.
  - apply (emitted_report _ sema_redefinition).
Qed.

#[global] Instance act_on_number_quiet w : QuietAction (act_on_number w).
Proof.
  intros p. unfold act_on_number. case_bool_decide; cbn [fst snd]; split; eauto.
  - apply emitted_refl.
  - apply (emitted_report _ parser_number_too_big).
Qed.
#[global] Instance act_on_var_decl_quiet t i n : QuietAction (act_on_var_decl t i n).
Proof.
  intros p. unfold act_on_var_decl. case_bool_decide; cbn [fst snd]; split; eauto.
  - apply (emitted_report _ sema_var_cannot_be_void).
  - apply emitted_declare.
Qed.
#[global] Instance act_on_param_decl_quiet t i a : QuietAction (act_on_param_decl t i a).
Proof.
  intros p. unfold act_on_param_decl. case_bool_decide; cbn [fst snd]; split; eauto.
  - apply (emitted_report _ sema_var_cannot_be_void).
  - apply emitted_declare.
Qed.
#[global] Instance act_on_fun_decl_start_quiet t i : QuietAction (act_on_fun_decl_start t i).
Proof.
  intros p. unfold act_on_fun_decl_start. cbn [fst snd]. split; eauto.
  eapply (emitted_trans _ _ _ 0 0); [|apply emitted_declare].
  apply emitted_same. reflexivity.
Qed.
#[global] Instance add_param_quiet f x : QuietAction (add_param f x).
Proof. intros p. split; [eauto | apply emitted_same; reflexivity]. Qed.
#[global] Instance set_body_quiet f x : QuietAction (set_body f x).
Proof. intros p. split; [eauto | apply emitted_same; reflexivity]. Qed.
#[global] Instance act_on_fun_decl_end_quiet f : QuietAction (act_on_fun_decl_end f).
Proof. intros p. split; [cbn; eauto | apply emitted_same; reflexivity]. Qed.
#[global] Instance act_on_null_stmt_quiet : QuietAction act_on_null_stmt.
Proof. intros p. split; [eauto | apply emitted_same; reflexivity]. Qed.
#[global] Instance act_on_expr_stmt_quiet e : QuietAction (act_on_expr_stmt e).
Proof. intros p. split; [eauto | apply emitted_same; reflexivity]. Qed.
#[global] Instance act_on_compound_stmt_quiet d s : QuietAction (act_on_compound_stmt d s).
Proof. intros p. split; [eauto | apply emitted_same; reflexivity]. Qed.
#[global] Instance act_on_selection_stmt_quiet e s1 s2 :
  QuietAction (act_on_selection_stmt e s1 s2).
Proof. intros p. split; [eauto | apply emitted_same; reflexivity]. Qed.
#[global] Instance act_on_iteration_stmt_quiet e s : QuietAction (act_on_iteration_stmt e s).
Proof. intros p. split; [eauto | apply emitted_same; reflexivity]. Qed.
#[global] Instance act_on_return_stmt_quiet e w : QuietAction (act_on_return_stmt e w).
Proof. intros p. split; [eauto | apply emitted_same; reflexivity]. Qed.
#[global] Instance act_on_var_quiet i x : QuietAction (act_on_var i x).
Proof.
  intros p. unfold act_on_var. destruct scope_lookup as [[]|]; cbn [fst snd]; split; eauto.
  all: first [ apply emitted_refl
             | apply (emitted_report _ sema_var_is_not_a_var)
             | apply (emitted_report _ sema_undeclared_identifier) ].
Qed.
#[global] Instance act_on_call_quiet i a l : QuietAction (act_on_call i a l).
Proof.
  intros p. unfold act_on_call. destruct scope_lookup as [[]|]; cbn [fst snd]; split; eauto.
  all: first [ apply emitted_refl
             | apply (emitted_report _ sema_fun_is_not_a_fun)
             | apply (emitted_report _ sema_undeclared_identifier) ].
Qed.
#[global] Instance act_on_assign_quiet l r o : QuietAction (act_on_assign l r o).
Proof. intros p. split; [eauto | apply emitted_same; reflexivity]. Qed.
#[global] Instance act_on_binary_expr_quiet l r o : QuietAction (act_on_binary_expr l r o).
Proof. intros p. split; [eauto | apply emitted_same; reflexivity]. Qed.
#[global] Instance act_on_program_start_quiet : QuietAction act_on_program_start.
Proof. intros p. split; [eauto | apply emitted_same; reflexivity]. Qed.
#[global] Instance act_on_program_end_quiet x : QuietAction (act_on_program_end x).
Proof. intros p. split; [eauto | apply emitted_same; reflexivity]. Qed.
#[global] Instance act_on_top_level_decl_quiet x d : QuietAction (act_on_top_level_decl x d).
Proof. intros p. split; [eauto | apply emitted_same; reflexivity]. Qed.

(** The call of a semantic action, for a goal about the diagnostics. *)
Ltac wp_quiet :=
  lazymatch goal with
  | |- wp (run ?s) _ ?p =>
      apply wp_run;
      let H := fresh "Hsome" in
      let E := fresh "Hemit" in
      destruct (quiet_action (s:=s) p) as [H E];
      destruct (s p) as [[?|] ?]; cbn [fst snd] in *;
      [clear H | destruct H as [? H]; discriminate H]
  end.

Ltac propagates_call :=
  lazymatch goal with
  | |- wp _ _ _ =>
      eapply wp_conseq;
      [ match goal with H : _ |- _ => apply H end
      | cbv beta; unfold propagated; intros [?|] ? ? ]
  end.

(** Chains the facts [emitted _ _ _] at hand from the first state to the
    last one. *)
Ltac emitted_solve :=
  unfold propagated, emitted, misses in *;
  cbn [diags advance set_words report enter_scope leave_scope set_sema] in *;
  repeat match goal with
         | H : ∃ _, _ |- _ => destruct H as (? & ? & ?)
         end;
  repeat match goal with
         | H : diags ?q = _ |- _ => rewrite H in *; clear H
         end;
  eexists; split;
  [ rewrite <- ?app_assoc; first [ reflexivity | rewrite app_nil_r; reflexivity ]
  | rewrite ?count_expected_app; cbn; lia ].

Ltac propagates_step :=
  first [ wp_structure | wp_helper | wp_quiet | propagates_call ].

Lemma parse_number_propagates : propagates parse_number.
Proof.
  intros p. unfold parse_number. repeat propagates_step; emitted_solve.
Qed.

Lemma expression_propagates n :
  propagates (parse_expression n) ∧
  propagates (parse_simple_expression n) ∧
  propagates (parse_additive_expression n) ∧
  (∀ e, propagates (additive_loop n e)) ∧
  propagates (parse_term n) ∧
  (∀ e, propagates (term_loop n e)) ∧
  propagates (parse_factor n) ∧
  propagates (parse_var n) ∧
  propagates (parse_call n) ∧
  (∀ a, propagates (call_args_loop n a)).
Proof.
  induction n as [|n IH].
  { unfold propagates; repeat apply conj; intro_wp; apply wp_out_of_fuel. }
  destruct IH as (IHe & IHs & IHa & IHal & IHt & IHtl & IHf & IHv & IHc & IHcl).
  pose proof parse_number_propagates as IHn.
  unfold propagates; repeat apply conj; intro_wp; simpl.
  all: repeat propagates_step; emitted_solve.
Qed.

Lemma parse_expression_propagates n : propagates (parse_expression n).
Proof. apply expression_propagates. Qed.

Lemma parse_var_declaration_propagates : propagates parse_var_declaration.
Proof.
  pose proof parse_number_propagates.
  intros p. unfold parse_var_declaration. repeat propagates_step; emitted_solve.
Qed.

Lemma parse_param_propagates : propagates parse_param.
Proof.
  intros p. unfold parse_param. repeat propagates_step; emitted_solve.
Qed.

Lemma parse_expr_stmt_propagates n : propagates (parse_expr_stmt n).
Proof.
  pose proof (parse_expression_propagates n).
  intros p. unfold parse_expr_stmt. repeat propagates_step; emitted_solve.
Qed.

Lemma parse_return_stmt_propagates n : propagates (parse_return_stmt n).
Proof.
  pose proof (parse_expression_propagates n).
  intros p. unfold parse_return_stmt. repeat propagates_step; emitted_solve.
Qed.

Lemma local_declarations_propagates n decls : propagates (local_declarations n decls).
Proof.
  pose proof parse_var_declaration_propagates.
  revert decls. induction n as [|n IH]; intros decls p; simpl.
  { apply wp_out_of_fuel. }
  repeat propagates_step; emitted_solve.
Qed.

Lemma statement_propagates n :
  propagates (parse_statement n) ∧
  (∀ f, propagates (parse_compound_stmt n f)) ∧
  (∀ s, propagates (statement_list n s)) ∧
  propagates (parse_selection_stmt n) ∧
  propagates (parse_iteration_stmt n).
Proof.
  induction n as [|n IH].
  { unfold propagates; repeat apply conj; intro_wp; apply wp_out_of_fuel. }
  destruct IH as (IHs & IHc & IHl & IHi & IHw).
  pose proof (parse_expression_propagates n).
  pose proof (parse_expr_stmt_propagates n).
  pose proof (parse_return_stmt_propagates n).
  pose proof (local_declarations_propagates n).
  unfold propagates; repeat apply conj; intro_wp; simpl.
  all: repeat propagates_step; emitted_solve.
Qed.

Lemma parse_statement_propagates n : propagates (parse_statement n).
Proof. apply statement_propagates. Qed.

Lemma parse_compound_stmt_propagates n f : propagates (parse_compound_stmt n f).
Proof. apply statement_propagates. Qed.

Lemma param_list_rest_propagates n fd : propagates (param_list_rest n fd).
Proof.
  pose proof parse_param_propagates.
  induction n as [|n IH]; intros p; simpl.
  { apply wp_out_of_fuel. }
  repeat propagates_step; emitted_solve.
Qed.

Lemma parse_params_propagates n fd : propagates (parse_params n fd).
Proof.
  pose proof parse_param_propagates.
  pose proof (param_list_rest_propagates n fd).
  intros p. unfold parse_params. repeat propagates_step; emitted_solve.
Qed.

Lemma parse_fun_params_and_body_propagates n fd :
  propagates (parse_fun_params_and_body n fd).
Proof.
  pose proof (parse_params_propagates n fd).
  pose proof (parse_compound_stmt_propagates n).
  intros p. unfold parse_fun_params_and_body. repeat propagates_step; emitted_solve.
Qed.

Lemma parse_fun_declaration_propagates n : propagates (parse_fun_declaration n).
Proof.
  pose proof (parse_fun_params_and_body_propagates n).
  intros p. unfold parse_fun_declaration. repeat propagates_step; emitted_solve.
Qed.

Lemma parse_declaration_propagates n : propagates (parse_declaration n).
Proof.
  pose proof (parse_fun_declaration_propagates n).
  pose proof parse_var_declaration_propagates.
  intros p. unfold parse_declaration. repeat propagates_step; emitted_solve.
Qed.

Lemma declaration_list_propagates n prog : propagates (declaration_list n prog).
Proof.
  revert prog. induction n as [|n IH]; intros prog p; simpl.
  { apply wp_out_of_fuel. }
  pose proof (parse_declaration_propagates n).
  repeat propagates_step; emitted_solve.
Qed.

Lemma parse_program_propagates n : propagates (parse_program n).
Proof.
  pose proof (declaration_list_propagates n).
  intros p. unfold parse_program. repeat propagates_step; emitted_solve.
Qed.

(** C3: a miss of [expect_and_consume] or of [expect_and_consume_type]
    emits the [parser_expected_*] diagnostic for it and gives null; every
    production returns a node only if no such diagnostic was emitted while
    it ran, and null with exactly one emitted, so that the null of a miss
    goes up the call chain; and [parse_program] returns, with null exactly
    when a miss was reported. *)
Theorem failure_propagates :
  (∀ c p, category (peek_word p) ≠ c →
     expect_and_consume c p =
       (None, report (location (peek_word p)) parser_expected_token [ParamCategory c] p)) ∧
  (∀ p, category (peek_word p) ∉ [Void; Int] →
     expect_and_consume_type p =
       (None, report (location (peek_word p)) parser_expected_type [] p)) ∧
  (∀ n,
     propagates (parse_program n) ∧
     propagates (parse_declaration n) ∧
     propagates parse_var_declaration ∧
     propagates (parse_fun_declaration n) ∧
     propagates parse_param ∧
     propagates (parse_statement n) ∧
     propagates (parse_expr_stmt n) ∧
     (∀ flags, propagates (parse_compound_stmt n flags)) ∧
     propagates (parse_selection_stmt n) ∧
     propagates (parse_iteration_stmt n) ∧
     propagates (parse_return_stmt n) ∧
     propagates (parse_expression n) ∧
     propagates (parse_simple_expression n) ∧
     propagates (parse_additive_expression n) ∧
     propagates (parse_term n) ∧
     propagates (parse_factor n) ∧
     propagates parse_number ∧
     propagates (parse_var n) ∧
     propagates (parse_call n)) ∧
  (∀ p, ∃ r p' ds,
     parse_program (fuel_for p) p = Returns r p' ∧
     diags p' = diags p ++ ds ∧
     (r = None ↔ count_expected ds ≠ 0)).
Proof.
  split; [exact expect_and_consume_miss|].
  split.
  { intros p Hp.
    destruct (expect_and_consume_type_cases p) as [[Hin _] | [_ E]];
      [contradiction | exact E]. }
  split.
  { intros n.
    destruct (expression_propagates n) as (He & Hs & Ha & _ & Ht & _ & Hf & Hv & Hc & _).
    destruct (statement_propagates n) as (Hst & Hco & _ & Hse & Hit).
    repeat apply conj; try assumption.
    - apply parse_program_propagates.
    - apply parse_declaration_propagates.
    - apply parse_var_declaration_propagates.
    - apply parse_fun_declaration_propagates.
    - apply parse_param_propagates.
    - apply parse_expr_stmt_propagates.
    - apply parse_return_stmt_propagates.
    - apply parse_number_propagates. }
  intros p.
  assert (Hret : returns (parse_program (fuel_for p)) p).
  { apply parse_program_returns. unfold enough, fuel_for, remaining. lia. }
  unfold returns in Hret.
  destruct (parse_program (fuel_for p) p) as [r p'|] eqn:E; [|contradiction].
  destruct (parse_program_propagates _ p _ _ E) as (ds & Hds & Hk).
  exists r, p', ds. split; [reflexivity|]. split; [exact Hds|].
  rewrite Hk. destruct r; simpl; split; intros; try discriminate; try lia.
  reflexivity.
Qed.

(** [int x] without its semicolon: the miss is reported, and the parse
    gives null. *)
Lemma failure_propagates_witness :
  let p := make_parser "int x" in
  expect_and_consume Semicolon (advance (advance p)) =
    (None, report 5 parser_expected_token [ParamCategory Semicolon] (advance (advance p))) ∧
  expect_and_consume_type (advance p) =
    (None, report 4 parser_expected_type [] (advance p)) ∧
  (∃ p', parse_program (fuel_for p) p = Returns None p' ∧
         map code (diags p') = [parser_expected_token]).
Proof.
  intros p.
  destruct failure_propagates as (H1 & H2 & _ & H4).
  split; [|split].
  - assert (Hp : category (peek_word (advance (advance p))) ≠ Semicolon)
      by (vm_compute; discriminate).
    pose proof (H1 Semicolon (advance (advance p)) Hp) as H.
    vm_compute in H. vm_compute. exact H.
  - assert (Hp : category (peek_word (advance p)) ∉ [Void; Int]).
    { apply not_elem_of_pair; vm_compute; discriminate. }
    pose proof (H2 (advance p) Hp) as H.
    vm_compute in H. vm_compute. exact H.
  - destruct (H4 p) as (r & p' & ds & E & Hds & Hnone).
    assert (E' : parse_program (fuel_for p) p =
                 Returns None (report 5 parser_expected_token [ParamCategory Semicolon]
                                 (enter_scope NoFlags (advance (advance p)))))
      by (vm_compute; reflexivity).
    rewrite E' in E. inversion E; subst r p'.
    eexists. split; [reflexivity|]. vm_compute. reflexivity.
Defined.
(** ** Scopes *)

#[global] Instance act_on_number_pure w : PureAction (act_on_number w).
Proof. intros p. unfold act_on_number. case_bool_decide; reflexivity. Qed.
#[global] Instance act_on_var_pure i x : PureAction (act_on_var i x).
Proof. intros p. unfold act_on_var. destruct scope_lookup as [[]|]; reflexivity. Qed.
#[global] Instance act_on_call_pure i a l : PureAction (act_on_call i a l).
Proof. intros p. unfold act_on_call. destruct scope_lookup as [[]|]; reflexivity. Qed.
#[global] Instance act_on_assign_pure l r o : PureAction (act_on_assign l r o).
Proof. intros p. reflexivity. Qed.
#[global] Instance act_on_binary_expr_pure l r o : PureAction (act_on_binary_expr l r o).
Proof. intros p. reflexivity. Qed.
#[global] Instance act_on_null_stmt_pure : PureAction act_on_null_stmt.
Proof. intros p. reflexivity. Qed.
#[global] Instance act_on_expr_stmt_pure e : PureAction (act_on_expr_stmt e).
Proof. intros p. reflexivity. Qed.
#[global] Instance act_on_compound_stmt_pure d s : PureAction (act_on_compound_stmt d s).
Proof. intros p. reflexivity. Qed.
#[global] Instance act_on_selection_stmt_pure e s1 s2 :
  PureAction (act_on_selection_stmt e s1 s2).
Proof. intros p. reflexivity. Qed.
#[global] Instance act_on_iteration_stmt_pure e s : PureAction (act_on_iteration_stmt e s).
Proof. intros p. reflexivity. Qed.
#[global] Instance act_on_return_stmt_pure e w : PureAction (act_on_return_stmt e w).
Proof. intros p. reflexivity. Qed.
#[global] Instance act_on_fun_decl_end_pure f : PureAction (act_on_fun_decl_end f).
Proof. intros p. reflexivity. Qed.
#[global] Instance act_on_top_level_decl_pure x d : PureAction (act_on_top_level_decl x d).
Proof. intros p. reflexivity. Qed.

Ltac wp_pure :=
  lazymatch goal with
  | |- wp (run ?s) _ ?p =>
      apply wp_run;
      let H := fresh "Hsema" in
      pose proof (pure_action (s:=s) p) as H;
      destruct (s p) as [[?|] ?]; cbn [fst snd] in *
  end.

Ltac sema_call :=
  lazymatch goal with
  | |- wp _ _ _ =>
      eapply wp_conseq;
      [ match goal with H : _ |- _ => apply H end
      | cbv beta; intros [?|] ? ? ]
  end.

Ltac sema_solve :=
  cbn [sema advance set_words report] in *;
  repeat match goal with
         | H : sema ?q = _ |- _ => rewrite H in *; clear H
         end;
  try reflexivity.

Ltac keeps_sema_step :=
  first [ wp_structure | wp_helper | wp_pure | sema_call ].

Lemma parse_number_keeps_sema : keeps_sema parse_number.
Proof.
  intros p. unfold parse_number. repeat keeps_sema_step; sema_solve.
Qed.

Lemma expression_keeps_sema n :
  keeps_sema (parse_expression n) ∧
  keeps_sema (parse_simple_expression n) ∧
  keeps_sema (parse_additive_expression n) ∧
  (∀ e, keeps_sema (additive_loop n e)) ∧
  keeps_sema (parse_term n) ∧
  (∀ e, keeps_sema (term_loop n e)) ∧
  keeps_sema (parse_factor n) ∧
  keeps_sema (parse_var n) ∧
  keeps_sema (parse_call n) ∧
  (∀ a, keeps_sema (call_args_loop n a)).
Proof.
  induction n as [|n IH].
  { unfold keeps_sema; repeat apply conj; intro_wp; apply wp_out_of_fuel. }
  destruct IH as (IHe & IHs & IHa & IHal & IHt & IHtl & IHf & IHv & IHc & IHcl).
  pose proof parse_number_keeps_sema as IHn.
  unfold keeps_sema; repeat apply conj; intro_wp; simpl.
  all: repeat keeps_sema_step; sema_solve.
Qed.

Lemma parse_expression_keeps_sema n : keeps_sema (parse_expression n).
Proof. apply expression_keeps_sema. Qed.

Lemma parse_expr_stmt_keeps_sema n : keeps_sema (parse_expr_stmt n).
Proof.
  pose proof (parse_expression_keeps_sema n).
  intros p. unfold parse_expr_stmt. repeat keeps_sema_step; sema_solve.
Qed.

Lemma parse_return_stmt_keeps_sema n : keeps_sema (parse_return_stmt n).
Proof.
  pose proof (parse_expression_keeps_sema n).
  intros p. unfold parse_return_stmt. repeat keeps_sema_step; sema_solve.
Qed.

Lemma frames_grow_refl ss : frames_grow ss ss.
Proof. split; [reflexivity|]. destruct (head ss); auto. Qed.

Lemma frames_grow_trans a b c : frames_grow a b → frames_grow b c → frames_grow a c.
Proof.
  intros [T1 H1] [T2 H2]. split; [congruence|].
  destruct (head a), (head b), (head c); try contradiction; auto.
  destruct H1 as [F1 S1], H2 as [F2 S2]. split; [congruence|].
  etransitivity; eassumption.
Qed.

Lemma top_grows_refl s : top_grows s s.
Proof. split; [apply frames_grow_refl | reflexivity]. Qed.

Lemma top_grows_trans a b c : top_grows a b → top_grows b c → top_grows a c.
Proof.
  intros [F1 E1] [F2 E2]. split; [eapply frames_grow_trans; eassumption | congruence].
Qed.

Lemma scope_insert_grows name sym ss ss' :
  scope_insert name sym ss = Some ss' → frames_grow ss ss'.
Proof.
  unfold scope_insert. destruct ss as [|t outer]; [discriminate|].
  destruct (symbols t !! name) eqn:E; [discriminate|].
  intros H. inversion H; subst. split; [reflexivity|].
  cbn. split; [reflexivity|]. apply insert_subseteq, E.
Qed.

Lemma declare_top_grows id sym p : top_grows (sema p) (sema (declare id sym p)).
Proof.
  unfold declare. destruct scope_insert eqn:E.
  - split; [|reflexivity]. cbn. eapply scope_insert_grows, E.
  - apply top_grows_refl.
Qed.

#[global] Instance act_on_var_decl_decl t i n : DeclAction (act_on_var_decl t i n).
Proof.
  intros p. unfold act_on_var_decl. case_bool_decide; cbn [snd].
  - apply top_grows_refl.
  - apply declare_top_grows.
Qed.
#[global] Instance act_on_param_decl_decl t i a : DeclAction (act_on_param_decl t i a).
Proof.
  intros p. unfold act_on_param_decl. case_bool_decide; cbn [snd].
  - apply top_grows_refl.
  - apply declare_top_grows.
Qed.

Ltac wp_decl :=
  lazymatch goal with
  | |- wp (run ?s) _ ?p =>
      apply wp_run;
      let H := fresh "Hdecl" in
      pose proof (decl_action (s:=s) p) as H;
      destruct (s p) as [[?|] ?]; cbn [fst snd] in *
  end.

Ltac declares_solve :=
  cbn [sema advance set_words report] in *;
  repeat match goal with
         | H : sema ?q = _ |- _ => rewrite H in *; clear H
         end;
  solve [ eauto 6 using top_grows_refl, top_grows_trans ].

Ltac declares_step :=
  first [ wp_structure | wp_helper | wp_pure | wp_decl | sema_call ].

Lemma parse_var_declaration_declares : declares parse_var_declaration.
Proof.
  pose proof parse_number_keeps_sema.
  intros p. unfold parse_var_declaration. repeat declares_step; declares_solve.
Qed.


Lemma local_declarations_declares n decls : declares (local_declarations n decls).
Proof.
  pose proof parse_var_declaration_declares.
  revert decls. induction n as [|n IH]; intros decls p; simpl.
  { apply wp_out_of_fuel. }
  repeat declares_step; declares_solve.
Qed.

(** Leaving the scope entered: the state of the semantic actions is what
    it was before the frame was pushed, whatever was declared in the frame. *)
Lemma leave_after_enter flags p q :
  top_grows (sema (enter_scope flags p)) (sema q) →
  sema (leave_scope q) = sema p.
Proof.
  intros [[Ht _] Hf]. unfold leave_scope. cbn in *.
  rewrite Ht, Hf. destruct (sema p). reflexivity.
Qed.

Lemma statement_keeps_sema n :
  keeps_sema (parse_statement n) ∧
  (∀ f, keeps_sema (parse_compound_stmt n f)) ∧
  (∀ s, keeps_sema (statement_list n s)) ∧
  keeps_sema (parse_selection_stmt n) ∧
  keeps_sema (parse_iteration_stmt n).
Proof.
  induction n as [|n IH].
  { unfold keeps_sema; repeat apply conj; intro_wp; apply wp_out_of_fuel. }
  destruct IH as (IHs & IHc & IHl & IHi & IHw).
  pose proof (parse_expression_keeps_sema n).
  pose proof (parse_expr_stmt_keeps_sema n).
  pose proof (parse_return_stmt_keeps_sema n).
  pose proof (local_declarations_declares n).
  unfold keeps_sema; repeat apply conj; intro_wp; simpl.
  all: repeat declares_step.
  all: try solve [sema_solve].
  all: match goal with
       | H : top_grows (sema (enter_scope ?f ?p1)) (sema _) |- sema (leave_scope ?q) = _ =>
           apply (leave_after_enter f p1 q);
           cbn [sema advance set_words report] in *;
           repeat match goal with
                  | E : sema ?x = _ |- context[sema ?x] => rewrite E
                  end;
           exact H
       end.
Qed.

Lemma parse_statement_keeps_sema n : keeps_sema (parse_statement n).
Proof. apply statement_keeps_sema. Qed.















(** ** The scopes of a function declaration *)

Lemma lookahead_advance k p : lookahead k (advance p) = lookahead (S k) p.
Proof.
  unfold lookahead, advance, set_words, eof_word. cbn [words source_end].
  destruct (words p); destruct k; reflexivity.
Qed.

Lemma peek_word_lookahead p : peek_word p = lookahead 0 p.
Proof. reflexivity. Qed.





Lemma bind_some_inv {A B} (m : Action A) (k : A → Action B) p b p'' :
  bind m k p = Returns (Some b) p'' →
  ∃ a p', m p = Returns (Some a) p' ∧ k a p' = Returns (Some b) p''.
Proof.
  unfold bind. destruct (m p) as [[a|] p'|]; intros E; try discriminate. eauto.
Qed.

Lemma run_expect_and_consume_inv c p w p' :
  run (expect_and_consume c) p = Returns (Some w) p' →
  category (peek_word p) = c ∧ p' = advance p.
Proof.
  unfold run.
  destruct (expect_and_consume_cases c p) as [[Hc ->] | [_ ->]]; cbn [fst snd];
    intros E; inversion E; auto.
Qed.

Lemma frames_grow_cons t outer ss' :
  frames_grow (t :: outer) ss' →
  ∃ t', ss' = t' :: outer ∧ scope_flags t' = scope_flags t ∧ symbols t ⊆ symbols t'.
Proof.
  intros [Ht Hh]. destruct ss' as [|t' outer']; cbn in *; [contradiction|].
  destruct Hh as [Hf Hs]. subst. eauto.
Qed.






(** ** End of input *)

(** The loop of [parse_program] stops after the declaration that leaves
    [Eof] in the window, and goes on otherwise. *)
Lemma declaration_list_stops_at_eof n program p d p1 :
  parse_declaration n p = Returns (Some d) p1 →
  declaration_list (S n) program p =
    if bool_decide (category (peek_word p1) = Eof)
    then Returns (Some (mkProgram (program_decls program ++ [d]))) p1
    else declaration_list n (mkProgram (program_decls program ++ [d])) p1.
Proof.
  intros Hd. cbn [declaration_list]. rewrite (bind_some _ _ _ _ _ Hd).
  rewrite bind_run. cbn [act_on_top_level_decl pure fst snd]. rewrite bind_get.
  unfold peek_is. case_bool_decide; reflexivity.
Qed.
(** * Further properties of the parser *)

(** ** The words a production takes *)

Lemma ahead_refl p : ahead p p.
Proof. exists 0. reflexivity. Qed.

Lemma ahead_same p q : words q = words p → ahead p q.
Proof. intros E. exists 0. exact E. Qed.

Lemma ahead_trans p q r : ahead p q → ahead q r → ahead p r.
Proof.
  intros [j Ej] [k Ek]. exists (j + k). rewrite Ek, Ej, drop_drop. reflexivity.
Qed.

Lemma words_advance p : words (advance p) = drop 1 (words p).
Proof. unfold advance. cbn. destruct (words p); reflexivity. Qed.

Lemma ahead_sema_action {A} (s : Step A) `{!SemaAction s} p : ahead p (snd (s p)).
Proof. apply ahead_same. apply sema_action. Qed.

Ltac wp_ahead_action :=
  lazymatch goal with
  | |- wp (run ?s) _ ?p =>
      apply wp_run;
      let H := fresh "Hahead" in
      pose proof (ahead_sema_action s p) as H;
      destruct (s p) as [[?|] ?]; cbn [fst snd] in *
  end.

Ltac ahead_call :=
  lazymatch goal with
  | |- wp _ _ _ =>
      eapply wp_conseq;
      [ match goal with H : _ |- _ => apply H end
      | cbv beta; intros [?|] ? ? ]
  end.

Ltac ahead_solve :=
  unfold ahead in *;
  cbn [words report enter_scope leave_scope set_sema] in *;
  repeat rewrite words_advance;
  repeat match goal with
         | H : context[words (advance _)] |- _ => rewrite words_advance in H
         end;
  repeat match goal with
         | H : ∃ _, _ |- _ => destruct H as [? H]
         end;
  repeat match goal with
         | H : words ?q = _ |- _ => rewrite H in *; clear H
         end;
  rewrite ?drop_drop;
  first [ eexists; reflexivity | exists 0; reflexivity ].

Ltac ahead_step :=
  first [ wp_structure | wp_helper | wp_ahead_action | ahead_call ].

Lemma parse_number_only_consumes : only_consumes parse_number.
Proof.
  intros p. unfold parse_number. repeat ahead_step; ahead_solve.
Qed.

Lemma expression_only_consumes n :
  only_consumes (parse_expression n) ∧
  only_consumes (parse_simple_expression n) ∧
  only_consumes (parse_additive_expression n) ∧
  (∀ e, only_consumes (additive_loop n e)) ∧
  only_consumes (parse_term n) ∧
  (∀ e, only_consumes (term_loop n e)) ∧
  only_consumes (parse_factor n) ∧
  only_consumes (parse_var n) ∧
  only_consumes (parse_call n) ∧
  (∀ a, only_consumes (call_args_loop n a)).
Proof.
  induction n as [|n IH].
  { unfold only_consumes; repeat apply conj; intro_wp; apply wp_out_of_fuel. }
  destruct IH as (IHe & IHs & IHa & IHal & IHt & IHtl & IHf & IHv & IHc & IHcl).
  pose proof parse_number_only_consumes as IHn.
  unfold only_consumes; repeat apply conj; intro_wp; simpl.
  all: repeat ahead_step; ahead_solve.
Qed.

Lemma parse_expression_only_consumes n : only_consumes (parse_expression n).
Proof. apply expression_only_consumes. Qed.

Lemma parse_var_declaration_only_consumes : only_consumes parse_var_declaration.
Proof.
  pose proof parse_number_only_consumes.
  intros p. unfold parse_var_declaration. repeat ahead_step; ahead_solve.
Qed.

Lemma parse_param_only_consumes : only_consumes parse_param.
Proof.
  intros p. unfold parse_param. repeat ahead_step; ahead_solve.
Qed.

Lemma parse_expr_stmt_only_consumes n : only_consumes (parse_expr_stmt n).
Proof.
  pose proof (parse_expression_only_consumes n).
  intros p. unfold parse_expr_stmt. repeat ahead_step; ahead_solve.
Qed.

Lemma parse_return_stmt_only_consumes n : only_consumes (parse_return_stmt n).
Proof.
  pose proof (parse_expression_only_consumes n).
  intros p. unfold parse_return_stmt. repeat ahead_step; ahead_solve.
Qed.

Lemma local_declarations_only_consumes n decls :
  only_consumes (local_declarations n decls).
Proof.
  pose proof parse_var_declaration_only_consumes.
  revert decls. induction n as [|n IH]; intros decls p; simpl.
  { apply wp_out_of_fuel. }
  repeat ahead_step; ahead_solve.
Qed.

Lemma statement_only_consumes n :
  only_consumes (parse_statement n) ∧
  (∀ f, only_consumes (parse_compound_stmt n f)) ∧
  (∀ s, only_consumes (statement_list n s)) ∧
  only_consumes (parse_selection_stmt n) ∧
  only_consumes (parse_iteration_stmt n).
Proof.
  induction n as [|n IH].
  { unfold only_consumes; repeat apply conj; intro_wp; apply wp_out_of_fuel. }
  destruct IH as (IHs & IHc & IHl & IHi & IHw).
  pose proof (parse_expression_only_consumes n).
  pose proof (parse_expr_stmt_only_consumes n).
  pose proof (parse_return_stmt_only_consumes n).
  pose proof (local_declarations_only_consumes n).
  unfold only_consumes; repeat apply conj; intro_wp; simpl.
  all: repeat ahead_step; ahead_solve.
Qed.

Lemma parse_compound_stmt_only_consumes n f : only_consumes (parse_compound_stmt n f).
Proof. apply statement_only_consumes. Qed.

Lemma param_list_rest_only_consumes n fd : only_consumes (param_list_rest n fd).
Proof.
  pose proof parse_param_only_consumes.
  induction n as [|n IH]; intros p; simpl.
  { apply wp_out_of_fuel. }
  repeat ahead_step; ahead_solve.
Qed.

Lemma parse_params_only_consumes n fd : only_consumes (parse_params n fd).
Proof.
  pose proof parse_param_only_consumes.
  pose proof (param_list_rest_only_consumes n fd).
  intros p. unfold parse_params. repeat ahead_step; ahead_solve.
Qed.

Lemma parse_fun_params_and_body_only_consumes n fd :
  only_consumes (parse_fun_params_and_body n fd).
Proof.
  pose proof (parse_params_only_consumes n fd).
  pose proof (parse_compound_stmt_only_consumes n).
  intros p. unfold parse_fun_params_and_body. repeat ahead_step; ahead_solve.
Qed.

Lemma parse_fun_declaration_only_consumes n : only_consumes (parse_fun_declaration n).
Proof.
  pose proof (parse_fun_params_and_body_only_consumes n).
  intros p. unfold parse_fun_declaration. repeat ahead_step; ahead_solve.
Qed.

Lemma parse_declaration_only_consumes n : only_consumes (parse_declaration n).
Proof.
  pose proof (parse_fun_declaration_only_consumes n).
  pose proof parse_var_declaration_only_consumes.
  intros p. unfold parse_declaration. repeat ahead_step; ahead_solve.
Qed.

Lemma declaration_list_only_consumes n prog : only_consumes (declaration_list n prog).
Proof.
  revert prog. induction n as [|n IH]; intros prog p; simpl.
  { apply wp_out_of_fuel. }
  pose proof (parse_declaration_only_consumes n).
  repeat ahead_step; ahead_solve.
Qed.

Lemma parse_program_only_consumes n : only_consumes (parse_program n).
Proof.
  pose proof (declaration_list_only_consumes n).
  intros p. unfold parse_program. repeat ahead_step; ahead_solve.
Qed.

Lemma parse_program_consumes n : consumes 1 (parse_program n).
Proof.
  pose proof (declaration_list_consumes n).
  intros p. unfold parse_program. repeat consumes_step; consumed_solve.
Qed.

(** The value of a call on a concrete state, by evaluation. *)
Ltac computed E m :=
  let v := eval vm_compute in m in
  assert (E : m = v) by (vm_compute; reflexivity).

Lemma takes_front_intro {A} (m : Action A) :
  only_consumes m → consumes 1 m → takes_front m.
Proof.
  intros Ho Hc p r p' E.
  destruct (Ho p r p' E) as [k Hk].
  destruct (Hc p r p' E) as [_ Hlen]. unfold remaining in Hlen.
  exists (min k (length (words p))). split; [lia|]. split.
  - rewrite Hk. destruct (decide (k ≤ length (words p))) as [Hle|Hgt].
    + rewrite Nat.min_l by exact Hle. reflexivity.
    + rewrite Nat.min_r by lia. rewrite !drop_ge by lia. reflexivity.
  - intros Hr. specialize (Hlen Hr). rewrite Hk, length_drop in Hlen. lia.
Qed.

(** X1: every production takes its words from the front of the stream, in
    order, and leaves the words behind them untouched; a production that
    returns a node has taken at least one word. *)
Theorem productions_take_words_from_the_front n :
  takes_front (parse_program n) ∧
  takes_front (parse_declaration n) ∧
  takes_front parse_var_declaration ∧
  takes_front (parse_fun_declaration n) ∧
  takes_front parse_param ∧
  takes_front (parse_statement n) ∧
  takes_front (parse_expr_stmt n) ∧
  (∀ flags, takes_front (parse_compound_stmt n flags)) ∧
  takes_front (parse_selection_stmt n) ∧
  takes_front (parse_iteration_stmt n) ∧
  takes_front (parse_return_stmt n) ∧
  takes_front (parse_expression n) ∧
  takes_front (parse_simple_expression n) ∧
  takes_front (parse_additive_expression n) ∧
  takes_front (parse_term n) ∧
  takes_front (parse_factor n) ∧
  takes_front parse_number ∧
  takes_front (parse_var n) ∧
  takes_front (parse_call n).
Proof.
  destruct (expression_only_consumes n) as (He & Hs & Ha & _ & Ht & _ & Hf & Hv & Hc & _).
  destruct (expression_consumes n) as (He' & Hs' & Ha' & _ & Ht' & _ & Hf' & Hv' & Hc' & _).
  destruct (statement_only_consumes n) as (Hst & Hco & _ & Hse & Hit).
  destruct (statement_consumes n) as (Hst' & Hco' & _ & Hse' & Hit').
  repeat apply conj; intros; apply takes_front_intro; try assumption; auto.
  - apply parse_program_only_consumes.
  - apply parse_program_consumes.
  - apply parse_declaration_only_consumes.
  - apply parse_declaration_consumes.
  - apply parse_var_declaration_only_consumes.
  - apply parse_var_declaration_consumes.
  - apply parse_fun_declaration_only_consumes.
  - apply parse_fun_declaration_consumes.
  - apply parse_param_only_consumes.
  - apply parse_param_consumes.
  - apply parse_expr_stmt_only_consumes.
  - apply parse_expr_stmt_consumes.
  - apply parse_return_stmt_only_consumes.
  - apply parse_return_stmt_consumes.
  - apply parse_number_only_consumes.
  - apply parse_number_consumes.
Qed.

(** The first declaration of [int x; int y;] takes three of the six
    words. *)
Lemma productions_take_words_from_the_front_witness :
  let p := make_parser "int x; int y;" in
  ∃ d p' k, parse_declaration 8 p = Returns (Some d) p' ∧
            (1 ≤ k ∧ k ≤ 6)%nat ∧ words p' = drop k (words p).
Proof.
  intros p.
  destruct (productions_take_words_from_the_front 8) as (_ & H & _).
  destruct (parse_declaration 8 p) as [[d|] p'|] eqn:E;
    try (vm_compute in E; discriminate).
  destruct (H p _ _ E) as (k & Hk & Hw & H1).
  exists d, p', k. split; [reflexivity|]. split; [|exact Hw].
  split; [apply H1; eauto|]. vm_compute in Hk. exact Hk.
Defined.
(** ** Where a parse stops *)

Lemma stopped_some {A} (a : A) q : stopped_at_miss (Some a) q.
Proof. intros E. discriminate. Qed.

Lemma stopped_none {A B} q :
  stopped_at_miss (@None A) q → stopped_at_miss (@None B) q.
Proof. intros H _. exact (H eq_refl). Qed.

Lemma stopped_leave_scope {A} (r : option A) q :
  stopped_at_miss r q → stopped_at_miss r (leave_scope q).
Proof. intros H E. exact (H E). Qed.

Lemma stopped_report {A} d a p :
  is_expected (mkDiagnostic (location (peek_word p)) d a []) = true →
  stopped_at_miss (@None A) (report (location (peek_word p)) d a p).
Proof.
  intros Hd _. eexists. split; [|split; [exact Hd|reflexivity]].
  cbn [report diags]. apply last_snoc.
Qed.

Ltac wp_miss_action :=
  lazymatch goal with
  | |- wp (run ?s) _ ?p =>
      apply wp_run;
      let H := fresh "Hsome" in
      pose proof (proj1 (@sema_action _ s _ p)) as H;
      destruct (s p) as [[?|] ?]; cbn [fst snd] in *;
      [ | destruct H as [? H]; discriminate ]
  end.

Ltac miss_call :=
  lazymatch goal with
  | |- wp _ _ _ =>
      eapply wp_conseq;
      [ match goal with H : _ |- _ => apply H end
      | cbv beta; intros [?|] ? ? ]
  end.

Ltac miss_solve :=
  repeat lazymatch goal with
         | |- stopped_at_miss _ (leave_scope _) => apply stopped_leave_scope
         end;
  first [ assumption
        | apply stopped_some
        | apply stopped_report; reflexivity
        | match goal with
          | H : stopped_at_miss None ?q |- stopped_at_miss None ?q =>
              exact (stopped_none q H)
          end ].

Ltac miss_step :=
  first [ wp_structure | wp_helper | wp_miss_action | miss_call ].

Lemma parse_number_stops_at_miss : stops_at_miss parse_number.
Proof.
  intros p. unfold parse_number. repeat miss_step; miss_solve.
Qed.

Lemma expression_stops_at_miss n :
  stops_at_miss (parse_expression n) ∧
  stops_at_miss (parse_simple_expression n) ∧
  stops_at_miss (parse_additive_expression n) ∧
  (∀ e, stops_at_miss (additive_loop n e)) ∧
  stops_at_miss (parse_term n) ∧
  (∀ e, stops_at_miss (term_loop n e)) ∧
  stops_at_miss (parse_factor n) ∧
  stops_at_miss (parse_var n) ∧
  stops_at_miss (parse_call n) ∧
  (∀ a, stops_at_miss (call_args_loop n a)).
Proof.
  induction n as [|n IH].
  { unfold stops_at_miss; repeat apply conj; intro_wp; apply wp_out_of_fuel. }
  destruct IH as (IHe & IHs & IHa & IHal & IHt & IHtl & IHf & IHv & IHc & IHcl).
  pose proof parse_number_stops_at_miss as IHn.
  unfold stops_at_miss; repeat apply conj; intro_wp; simpl.
  all: repeat miss_step; miss_solve.
Qed.

Lemma parse_expression_stops_at_miss n : stops_at_miss (parse_expression n).
Proof. apply expression_stops_at_miss. Qed.

Lemma parse_var_declaration_stops_at_miss : stops_at_miss parse_var_declaration.
Proof.
  pose proof parse_number_stops_at_miss.
  intros p. unfold parse_var_declaration. repeat miss_step; miss_solve.
Qed.

Lemma parse_param_stops_at_miss : stops_at_miss parse_param.
Proof.
  intros p. unfold parse_param. repeat miss_step; miss_solve.
Qed.

Lemma parse_expr_stmt_stops_at_miss n : stops_at_miss (parse_expr_stmt n).
Proof.
  pose proof (parse_expression_stops_at_miss n).
  intros p. unfold parse_expr_stmt. repeat miss_step; miss_solve.
Qed.

Lemma parse_return_stmt_stops_at_miss n : stops_at_miss (parse_return_stmt n).
Proof.
  pose proof (parse_expression_stops_at_miss n).
  intros p. unfold parse_return_stmt. repeat miss_step; miss_solve.
Qed.

Lemma local_declarations_stops_at_miss n decls :
  stops_at_miss (local_declarations n decls).
Proof.
  pose proof parse_var_declaration_stops_at_miss.
  revert decls. induction n as [|n IH]; intros decls p; simpl.
  { apply wp_out_of_fuel. }
  repeat miss_step; miss_solve.
Qed.

Lemma statement_stops_at_miss n :
  stops_at_miss (parse_statement n) ∧
  (∀ f, stops_at_miss (parse_compound_stmt n f)) ∧
  (∀ s, stops_at_miss (statement_list n s)) ∧
  stops_at_miss (parse_selection_stmt n) ∧
  stops_at_miss (parse_iteration_stmt n).
Proof.
  induction n as [|n IH].
  { unfold stops_at_miss; repeat apply conj; intro_wp; apply wp_out_of_fuel. }
  destruct IH as (IHs & IHc & IHl & IHi & IHw).
  pose proof (parse_expression_stops_at_miss n).
  pose proof (parse_expr_stmt_stops_at_miss n).
  pose proof (parse_return_stmt_stops_at_miss n).
  pose proof (local_declarations_stops_at_miss n).
  unfold stops_at_miss; repeat apply conj; intro_wp; simpl.
  all: repeat miss_step; miss_solve.
Qed.

Lemma parse_compound_stmt_stops_at_miss n f : stops_at_miss (parse_compound_stmt n f).
Proof. apply statement_stops_at_miss. Qed.

Lemma param_list_rest_stops_at_miss n fd : stops_at_miss (param_list_rest n fd).
Proof.
  pose proof parse_param_stops_at_miss.
  induction n as [|n IH]; intros p; simpl.
  { apply wp_out_of_fuel. }
  repeat miss_step; miss_solve.
Qed.

Lemma parse_params_stops_at_miss n fd : stops_at_miss (parse_params n fd).
Proof.
  pose proof parse_param_stops_at_miss.
  pose proof (param_list_rest_stops_at_miss n fd).
  intros p. unfold parse_params. repeat miss_step; miss_solve.
Qed.

Lemma parse_fun_params_and_body_stops_at_miss n fd :
  stops_at_miss (parse_fun_params_and_body n fd).
Proof.
  pose proof (parse_params_stops_at_miss n fd).
  pose proof (parse_compound_stmt_stops_at_miss n).
  intros p. unfold parse_fun_params_and_body. repeat miss_step; miss_solve.
Qed.

Lemma parse_fun_declaration_stops_at_miss n : stops_at_miss (parse_fun_declaration n).
Proof.
  pose proof (parse_fun_params_and_body_stops_at_miss n).
  intros p. unfold parse_fun_declaration. repeat miss_step; miss_solve.
Qed.

Lemma parse_declaration_stops_at_miss n : stops_at_miss (parse_declaration n).
Proof.
  pose proof (parse_fun_declaration_stops_at_miss n).
  pose proof parse_var_declaration_stops_at_miss.
  intros p. unfold parse_declaration. repeat miss_step; miss_solve.
Qed.

Lemma declaration_list_stops_at_miss n prog : stops_at_miss (declaration_list n prog).
Proof.
  revert prog. induction n as [|n IH]; intros prog p; simpl.
  { apply wp_out_of_fuel. }
  pose proof (parse_declaration_stops_at_miss n).
  repeat miss_step; miss_solve.
Qed.

Lemma parse_program_stops_at_miss n : stops_at_miss (parse_program n).
Proof.
  pose proof (declaration_list_stops_at_miss n).
  intros p. unfold parse_program. repeat miss_step; miss_solve.
Qed.

(** X2: a production that gives null has stopped at the miss: the
    diagnostic emitted last is the [parser_expected_*] one, and its location
    is that of the word in [peek_word], the first word not consumed; nothing
    is skipped or parsed after a miss. *)
Theorem null_stops_at_the_reported_word n :
  stops_at_miss (parse_program n) ∧
  stops_at_miss (parse_declaration n) ∧
  stops_at_miss parse_var_declaration ∧
  stops_at_miss (parse_fun_declaration n) ∧
  stops_at_miss parse_param ∧
  stops_at_miss (parse_statement n) ∧
  stops_at_miss (parse_expr_stmt n) ∧
  (∀ flags, stops_at_miss (parse_compound_stmt n flags)) ∧
  stops_at_miss (parse_selection_stmt n) ∧
  stops_at_miss (parse_iteration_stmt n) ∧
  stops_at_miss (parse_return_stmt n) ∧
  stops_at_miss (parse_expression n) ∧
  stops_at_miss (parse_simple_expression n) ∧
  stops_at_miss (parse_additive_expression n) ∧
  stops_at_miss (parse_term n) ∧
  stops_at_miss (parse_factor n) ∧
  stops_at_miss parse_number ∧
  stops_at_miss (parse_var n) ∧
  stops_at_miss (parse_call n).
Proof.
  destruct (expression_stops_at_miss n) as (He & Hs & Ha & _ & Ht & _ & Hf & Hv & Hc & _).
  destruct (statement_stops_at_miss n) as (Hst & Hco & _ & Hse & Hit).
  repeat apply conj; try assumption.
  - apply parse_program_stops_at_miss.
  - apply parse_declaration_stops_at_miss.
  - apply parse_var_declaration_stops_at_miss.
  - apply parse_fun_declaration_stops_at_miss.
  - apply parse_param_stops_at_miss.
  - apply parse_expr_stmt_stops_at_miss.
  - apply parse_return_stmt_stops_at_miss.
  - apply parse_number_stops_at_miss.
Qed.

(** [int f(void) { x = + 1; }]: the parse stops at the [+], where an
    expression is missed. *)
Lemma null_stops_at_the_reported_word_witness :
  let p := make_parser "int f(void) { x = + 1; }" in
  ∃ p' d, parse_program (fuel_for p) p = Returns None p' ∧
          last (diags p') = Some d ∧
          code d = parser_expected_expression ∧
          loc d = location (peek_word p') ∧
          category (peek_word p') = Plus.
Proof.
  intros p. computed E (parse_program (fuel_for p) p).
  destruct (null_stops_at_the_reported_word (fuel_for p)) as (H & _).
  destruct (H p _ _ E eq_refl) as (d & Hlast & _ & Hloc).
  eexists _, d. split; [exact E|]. split; [exact Hlast|].
  split; [|split; [exact Hloc | vm_compute; reflexivity]].
  vm_compute in Hlast. inversion Hlast. reflexivity.
Defined.
(** ** The recursion budget *)

Lemma settled_intro {A} (f : nat → Action A) rank :
  (∀ n p, enough rank p n → returns (f n) p) →
  (∀ n, refines (f n) (f (S n))) →
  settled f rank.
Proof.
  intros Hret Hfuel p n Hn.
  assert (Hr : returns (f n) p) by (apply Hret; exact Hn).
  unfold returns in Hr.
  destruct (f n p) as [r p'|] eqn:E; [|contradiction].
  exists r, p'. split; [reflexivity|].
  intros m Hm. exact (refines_le f Hfuel n m Hm p r p' E).
Qed.

(** X3: the recursion and the loops of the parser end: on every state each
    production returns once the budget of the model is eight per word left
    plus a constant, and the result is the same for every greater budget,
    so that it is the result of the unbounded recursion of the code. *)
Theorem productions_return_within_budget :
  settled parse_program 2 ∧
  settled parse_declaration 1 ∧
  settled parse_fun_declaration 1 ∧
  settled parse_statement 7 ∧
  (∀ flags, settled (fun n => parse_compound_stmt n flags) 1) ∧
  settled parse_selection_stmt 1 ∧
  settled parse_iteration_stmt 1 ∧
  settled parse_return_stmt 6 ∧
  settled parse_expr_stmt 6 ∧
  settled parse_expression 6 ∧
  settled parse_simple_expression 5 ∧
  settled parse_additive_expression 4 ∧
  settled parse_term 3 ∧
  settled parse_factor 2 ∧
  settled parse_var 1 ∧
  settled parse_call 1.
Proof.
  repeat apply conj; intros; apply settled_intro; intros n.
  - apply parse_program_returns.
  - apply parse_program_fuel.
  - apply parse_declaration_returns.
  - apply parse_declaration_fuel.
  - apply parse_fun_declaration_returns.
  - apply parse_fun_declaration_fuel.
  - apply statement_returns.
  - apply statement_fuel.
  - intros p. apply statement_returns.
  - apply statement_fuel.
  - apply statement_returns.
  - apply statement_fuel.
  - apply statement_returns.
  - apply statement_fuel.
  - apply parse_return_stmt_returns.
  - apply parse_return_stmt_fuel.
  - apply parse_expr_stmt_returns.
  - apply parse_expr_stmt_fuel.
  - apply expression_returns.
  - apply expression_fuel.
  - apply expression_returns.
  - apply expression_fuel.
  - apply expression_returns.
  - apply expression_fuel.
  - apply expression_returns.
  - apply expression_fuel.
  - apply expression_returns.
  - apply expression_fuel.
  - apply expression_returns.
  - apply expression_fuel.
  - apply expression_returns.
  - apply expression_fuel.
Qed.

(** [int x;]: three words, and a budget of 26 or more. *)
Lemma productions_return_within_budget_witness :
  let p := make_parser "int x;" in
  ∃ r p', parse_program 26 p = Returns r p' ∧
          ∀ m, (26 ≤ m)%nat → parse_program m p = Returns r p'.
Proof.
  intros p. destruct productions_return_within_budget as (H & _).
  apply (H p 26). vm_compute. lia.
Defined.

(** ** Taking a returned node apart *)

Lemma with_scope_some_inv {A} flags (body : Action A) p a p' :
  with_scope flags body p = Returns (Some a) p' →
  ∃ q, body (enter_scope flags p) = Returns (Some a) q ∧ p' = leave_scope q.
Proof.
  unfold with_scope.
  destruct (body (enter_scope flags p)) as [r q|]; intros E; inversion E; subst.
  eauto.
Qed.

Lemma run_some_inv {A} (s : Step A) p a p' :
  run s p = Returns (Some a) p' → fst (s p) = Some a ∧ p' = snd (s p).
Proof. unfold run. intros E. inversion E. auto. Qed.

Lemma run_try_consume_inv cs p o p' :
  run (optional (try_consume cs)) p = Returns (Some o) p' →
  (category (peek_word p) ∈ cs ∧ o = Some (peek_word p) ∧ p' = advance p) ∨
  ((category (peek_word p) ∉ cs) ∧ o = None ∧ p' = p).
Proof.
  unfold run, optional.
  destruct (try_consume_cases cs p) as [[H ->] | [H ->]]; cbn [fst snd];
    intros E; inversion E; subst; auto.
Qed.

Lemma run_expect_and_consume_type_inv p w p' :
  run expect_and_consume_type p = Returns (Some w) p' →
  category (peek_word p) ∈ [Void; Int] ∧ w = peek_word p ∧ p' = advance p.
Proof.
  unfold run.
  destruct (expect_and_consume_type_cases p) as [[H ->] | [H ->]]; cbn [fst snd];
    intros E; inversion E; subst; auto.
Qed.

(** Takes the call chain of [H : m p = Returns (Some a) p'] apart, down to
    the calls of the productions and of the helpers. *)
Ltac invert_call H :=
  repeat first
    [ rewrite bind_get in H; cbv beta in H
    | apply bind_some_inv in H as (? & ? & ? & H)
    | apply with_scope_some_inv in H as (? & H & ->)
    | match type of H with
      | (match ?o with _ => _ end) _ = _ => destruct o eqn:?
      | (if negb ?b then _ else _) _ = _ => destruct b eqn:?; cbn [negb] in H
      | (if ?b then _ else _) _ = _ => destruct b eqn:?
      end ].

(** ** The first word of a production *)

Lemma starts_with_bind {A B} cs (m : Action A) (k : A → Action B) :
  starts_with cs m → starts_with cs (bind m k).
Proof.
  intros H p b p' E. apply bind_some_inv in E as (a & q & Em & _).
  exact (H _ _ _ Em).
Qed.

Lemma starts_with_out_of_fuel {A} cs : starts_with cs (fun _ => @OutOfFuel A).
Proof. intros p a p' E. discriminate. Qed.

Lemma starts_with_expect c cs :
  c ∈ cs → starts_with cs (run (expect_and_consume c)).
Proof.
  intros Hc p w p' E. apply run_expect_and_consume_inv in E as [-> _]. exact Hc.
Qed.

Lemma starts_with_type : starts_with [Void; Int] (run expect_and_consume_type).
Proof.
  intros p w p' E. apply run_expect_and_consume_type_inv in E as (H & _). exact H.
Qed.

Ltac in_list :=
  repeat (apply elem_of_cons; first [ left; reflexivity | right ]).

Lemma parse_number_starts : starts_with [Identifier; Number; OpenParen] parse_number.
Proof. apply starts_with_bind, starts_with_expect. in_list. Qed.

Lemma parse_var_starts n : starts_with [Identifier; Number; OpenParen] (parse_var n).
Proof.
  destruct n; [apply starts_with_out_of_fuel|].
  apply starts_with_bind, starts_with_expect. in_list.
Qed.

Lemma parse_call_starts n : starts_with [Identifier; Number; OpenParen] (parse_call n).
Proof.
  destruct n; [apply starts_with_out_of_fuel|].
  apply starts_with_bind, starts_with_expect. in_list.
Qed.

Lemma parse_factor_starts n : starts_with [Identifier; Number; OpenParen] (parse_factor n).
Proof.
  destruct n; [apply starts_with_out_of_fuel|].
  intros p a p' E. cbn [parse_factor] in E. rewrite bind_get in E.
  destruct (category (peek_word p)) eqn:Hc; try (in_list; fail);
    unfold run, report_at_peek in E; cbn [fst snd] in E; discriminate.
Qed.

Lemma parse_term_starts n : starts_with [Identifier; Number; OpenParen] (parse_term n).
Proof.
  destruct n; [apply starts_with_out_of_fuel|].
  apply starts_with_bind, parse_factor_starts.
Qed.

Lemma parse_additive_expression_starts n :
  starts_with [Identifier; Number; OpenParen] (parse_additive_expression n).
Proof.
  destruct n; [apply starts_with_out_of_fuel|].
  apply starts_with_bind, parse_term_starts.
Qed.

Lemma parse_simple_expression_starts n :
  starts_with [Identifier; Number; OpenParen] (parse_simple_expression n).
Proof.
  destruct n; [apply starts_with_out_of_fuel|].
  apply starts_with_bind, parse_additive_expression_starts.
Qed.

Lemma parse_expression_starts n :
  starts_with [Identifier; Number; OpenParen] (parse_expression n).
Proof.
  destruct n; [apply starts_with_out_of_fuel|].
  apply starts_with_bind, parse_simple_expression_starts.
Qed.

Lemma parse_statement_starts n :
  starts_with [Identifier; Number; OpenParen; Semicolon; OpenCurly; If; While; Return]
    (parse_statement n).
Proof.
  destruct n; [apply starts_with_out_of_fuel|].
  intros p a p' E. cbn [parse_statement] in E. rewrite bind_get in E.
  destruct (category (peek_word p)) eqn:Hc; try (in_list; fail);
    unfold run, report_at_peek in E; cbn [fst snd] in E; discriminate.
Qed.

Lemma parse_declaration_starts n : starts_with [Void; Int] (parse_declaration n).
Proof.
  intros p a p' E. unfold parse_declaration in E. rewrite bind_get in E.
  destruct (lookahead_is 2 OpenParen p);
    apply bind_some_inv in E as (d & q & E & _);
    apply bind_some_inv in E as (w & q' & E & _);
    exact (starts_with_type _ _ _ E).
Qed.

Lemma parse_program_starts n : starts_with [Void; Int] (parse_program n).
Proof.
  intros p a p' E. unfold parse_program in E.
  apply bind_some_inv in E as (prog & q & Estart & E).
  apply run_some_inv in Estart as [_ ->].
  apply bind_some_inv in E as (prog' & q & E & _).
  destruct n; [discriminate|]. cbn [declaration_list] in E.
  apply bind_some_inv in E as (d & q' & E & _).
  exact (parse_declaration_starts _ _ _ _ E).
Qed.

(** X4: the first word of what a production accepts: a program and a
    declaration start with [void] or [int], a statement with one of eight
    categories, and an expression with an identifier, a number or an
    opening parenthesis, so that no expression starts with a sign. *)
Theorem productions_first_words n :
  starts_with [Void; Int] (parse_program n) ∧
  starts_with [Void; Int] (parse_declaration n) ∧
  starts_with [Identifier; Number; OpenParen; Semicolon; OpenCurly; If; While; Return]
    (parse_statement n) ∧
  starts_with [Identifier; Number; OpenParen] (parse_expression n) ∧
  starts_with [Identifier; Number; OpenParen] (parse_simple_expression n) ∧
  starts_with [Identifier; Number; OpenParen] (parse_additive_expression n) ∧
  starts_with [Identifier; Number; OpenParen] (parse_term n) ∧
  starts_with [Identifier; Number; OpenParen] (parse_factor n).
Proof.
  repeat apply conj.
  - apply parse_program_starts.
  - apply parse_declaration_starts.
  - apply parse_statement_starts.
  - apply parse_expression_starts.
  - apply parse_simple_expression_starts.
  - apply parse_additive_expression_starts.
  - apply parse_term_starts.
  - apply parse_factor_starts.
Qed.

(** [(a + 1) * 2] is an expression, and starts with an opening
    parenthesis. *)
Lemma productions_first_words_witness :
  let p := make_parser "(a + 1) * 2" in
  category (peek_word p) ∈ [Identifier; Number; OpenParen].
Proof.
  intros p. destruct (productions_first_words 20) as (_ & _ & _ & H & _).
  computed E (parse_expression 20 p).
  exact (H p _ _ E).
Defined.
(** ** The statements that the parser builds *)

Ltac solve_kind H :=
  apply run_some_inv in H as [H _];
  cbn in H; inversion H; subst; cbn; auto; discriminate.

Lemma parse_expr_stmt_kind n p s p' :
  parse_expr_stmt n p = Returns (Some s) p' →
  stmt_kind s = KNull ∨ stmt_kind s = KExpr.
Proof.
  intros E. unfold parse_expr_stmt in E. invert_call E; solve_kind E.
Qed.

Lemma parse_return_stmt_kind n p s p' :
  parse_return_stmt n p = Returns (Some s) p' → stmt_kind s = KReturn.
Proof.
  intros E. unfold parse_return_stmt in E. invert_call E; solve_kind E.
Qed.

Lemma parse_compound_stmt_kind n f p s p' :
  parse_compound_stmt n f p = Returns (Some s) p' → stmt_kind s = KCompound.
Proof.
  intros E. destruct n; [discriminate|]. cbn [parse_compound_stmt] in E.
  invert_call E; solve_kind E.
Qed.

Lemma parse_iteration_stmt_kind n p s p' :
  parse_iteration_stmt n p = Returns (Some s) p' → stmt_kind s = KIteration.
Proof.
  intros E. destruct n; [discriminate|]. cbn [parse_iteration_stmt] in E.
  invert_call E; solve_kind E.
Qed.

(** An [if] without [else] is returned only when the next word is not
    [else]. *)
Lemma parse_selection_stmt_without_else n p c t p' :
  parse_selection_stmt n p = Returns (Some (SelectionStmt c t None)) p' →
  category (peek_word p') ≠ Else.
Proof.
  intros E. destruct n; [discriminate|]. cbn [parse_selection_stmt] in E.
  repeat apply bind_some_inv in E as (? & ? & ? & E).
  match goal with
  | H : run (optional (try_consume [Else])) _ = _ |- _ =>
      apply run_try_consume_inv in H as [(_ & -> & ->) | (Hn & -> & ->)]
  end.
  - apply bind_some_inv in E as (? & ? & _ & E).
    apply run_some_inv in E as [E _]. cbn in E. discriminate.
  - apply run_some_inv in E as [_ ->]. cbn [act_on_selection_stmt pure snd].
    intros He. apply Hn. rewrite He. in_list.
Qed.

Lemma parse_statement_without_else n p c t p' :
  parse_statement n p = Returns (Some (SelectionStmt c t None)) p' →
  category (peek_word p') ≠ Else.
Proof.
  intros E. destruct n; [discriminate|]. cbn [parse_statement] in E.
  rewrite bind_get in E.
  destruct (category (peek_word p));
    try (unfold run, report_at_peek in E; cbn [fst snd] in E; discriminate);
    try (apply parse_expr_stmt_kind in E as [E|E]; discriminate);
    try (apply parse_compound_stmt_kind in E; discriminate);
    try (apply parse_iteration_stmt_kind in E; discriminate);
    try (apply parse_return_stmt_kind in E; discriminate).
  exact (parse_selection_stmt_without_else _ _ _ _ _ E).
Qed.

(** X5: an [else] belongs to the nearest [if]: a selection statement is
    returned without its [else] part only when the next word is not
    [else], and so no statement has an [else] part after a selection
    statement without one. *)
Theorem else_belongs_to_nearest_if n p p' :
  (∀ c t, parse_statement n p = Returns (Some (SelectionStmt c t None)) p' →
     category (peek_word p') ≠ Else) ∧
  (∀ c c2 t2 e,
     parse_statement n p ≠
       Returns (Some (SelectionStmt c (SelectionStmt c2 t2 None) (Some e))) p').
Proof.
  split; [intros c t E; exact (parse_statement_without_else _ _ _ _ _ E)|].
  intros c c2 t2 e E. destruct n; [discriminate|]. cbn [parse_statement] in E.
  rewrite bind_get in E.
  destruct (category (peek_word p));
    try (unfold run, report_at_peek in E; cbn [fst snd] in E; discriminate);
    try (apply parse_expr_stmt_kind in E as [E|E]; discriminate);
    try (apply parse_compound_stmt_kind in E; discriminate);
    try (apply parse_iteration_stmt_kind in E; discriminate);
    try (apply parse_return_stmt_kind in E; discriminate).
  destruct n; [discriminate|]. cbn [parse_selection_stmt] in E.
  repeat apply bind_some_inv in E as (? & ? & ? & E).
  match goal with
  | H : run (optional (try_consume [Else])) _ = _ |- _ =>
      apply run_try_consume_inv in H as [(Hin & -> & ->) | (_ & -> & ->)]
  end.
  - apply bind_some_inv in E as (? & ? & _ & E).
    apply run_some_inv in E as [E _]. cbn in E. inversion E; subst.
    match goal with
    | H : parse_statement _ _ = Returns (Some (SelectionStmt _ _ None)) _ |- _ =>
        apply parse_statement_without_else in H; apply H
    end.
    apply list_elem_of_singleton in Hin. exact Hin.
  - apply run_some_inv in E as [E _]. cbn in E. discriminate.
Qed.

(** In [if (a) if (b) x; else y;] the [else] goes to the inner [if]. *)
Lemma else_belongs_to_nearest_if_witness :
  let p := make_parser "if (a) if (b) x; else y;" in
  ∃ c c2 t2 e p',
    parse_statement 40 p =
      Returns (Some (SelectionStmt c (SelectionStmt c2 t2 (Some e)) None)) p' ∧
    category (peek_word p') ≠ Else.
Proof.
  intros p. computed E (parse_statement 40 p).
  eexists _, _, _, _, _. split; [exact E|].
  exact (proj1 (else_belongs_to_nearest_if 40 p _) _ _ E).
Defined.

(** ** The end of a block and of a program *)

Lemma statement_list_ends_at_close_curly n :
  ∀ stms p r p',
    statement_list n stms p = Returns (Some r) p' →
    category (peek_word p') = CloseCurly.
Proof.
  induction n as [|n IH]; intros stms p r p' E; [discriminate|].
  cbn [statement_list] in E. rewrite bind_get in E.
  destruct (peek_is CloseCurly p) eqn:Hp; cbn [negb] in E.
  - inversion E; subst. apply peek_is_true. exact Hp.
  - apply bind_some_inv in E as (s & q & _ & E). exact (IH _ _ _ _ E).
Qed.

Lemma declaration_list_ends_at_eof n :
  ∀ prog p r p',
    declaration_list n prog p = Returns (Some r) p' →
    category (peek_word p') = Eof ∧ program_decls r ≠ [].
Proof.
  induction n as [|n IH]; intros prog p r p' E; [discriminate|].
  cbn [declaration_list] in E.
  apply bind_some_inv in E as (d & q & _ & E).
  rewrite bind_run in E. cbn [act_on_top_level_decl pure fst snd] in E.
  rewrite bind_get in E.
  destruct (peek_is Eof q) eqn:Hp; cbn [negb] in E.
  - inversion E; subst. split; [apply peek_is_true; exact Hp|].
    cbn [program_decls]. intros Hnil. apply app_eq_nil in Hnil as [_ Hnil].
    discriminate.
  - exact (IH _ _ _ _ E).
Qed.

Lemma ahead_at_eof p p' :
  ahead p p' → no_eof_word (words p) → category (peek_word p') = Eof → words p' = [].
Proof.
  intros [k Hk] Hall Hpeek.
  assert (Hall' : no_eof_word (words p')).
  { rewrite Hk. apply Forall_drop. exact Hall. }
  destruct (words p') as [|w ws] eqn:Hw; [reflexivity|].
  apply Forall_cons in Hall' as [Hne _].
  exfalso. apply Hne. unfold peek_word, lookahead in Hpeek. rewrite Hw in Hpeek.
  exact Hpeek.
Qed.

Lemma no_eof_word_check ws :
  forallb (fun w => negb (bool_decide (category w = Eof))) ws = true → no_eof_word ws.
Proof.
  induction ws as [|w ws IH]; cbn [forallb]; intros H; [apply Forall_nil_2|].
  apply andb_prop in H as [Hw Hws]. apply Forall_cons_2; [|exact (IH Hws)].
  apply negb_true_iff, bool_decide_eq_false in Hw. exact Hw.
Qed.

(** X6: [parse_program] returns a program only at the end of the input: the
    word in [peek_word] is then [Eof], the program has one declaration at
    least, and when no word of the stream has the category [Eof] all the
    words were consumed. *)
Theorem accepted_program_is_consumed_whole n p prog p' :
  parse_program n p = Returns (Some prog) p' →
  category (peek_word p') = Eof ∧
  program_decls prog ≠ [] ∧
  (no_eof_word (words p) → words p' = []).
Proof.
  intros E.
  pose proof (parse_program_only_consumes n p _ _ E) as Hahead.
  unfold parse_program in E.
  apply bind_some_inv in E as (prog0 & q & _ & E).
  apply bind_some_inv in E as (prog1 & q1 & Hlist & E).
  apply run_some_inv in E as [E ->]. cbn in E. inversion E; subst prog1.
  apply declaration_list_ends_at_eof in Hlist as [Heof Hdecls].
  assert (Hpeek : category (peek_word (snd (act_on_program_end prog q1))) = Eof)
    by exact Heof.
  split; [exact Hpeek|]. split; [exact Hdecls|].
  intros Hall. exact (ahead_at_eof _ _ Hahead Hall Hpeek).
Qed.

(** A variable and a function: all the words are consumed. *)
Lemma accepted_program_is_consumed_whole_witness :
  let p := make_parser "int x; void f(void) { }" in
  ∃ prog p', parse_program (fuel_for p) p = Returns (Some prog) p' ∧
             category (peek_word p') = Eof ∧ program_decls prog ≠ [] ∧ words p' = [].
Proof.
  intros p. computed E (parse_program (fuel_for p) p).
  destruct (accepted_program_is_consumed_whole _ _ _ _ E) as (H1 & H2 & H3).
  eexists _, _. split; [exact E|]. split; [exact H1|]. split; [exact H2|].
  apply H3. apply no_eof_word_check. vm_compute. reflexivity.
Defined.

(** X7: the assertion of [parse_compound_stmt] holds: when the loop over the
    statements of a block is left with the statements parsed, the word in
    [peek_word] is the closing curly bracket, which [consume] then takes. *)
Theorem compound_stmt_assertion_holds n stms p r p' :
  statement_list n stms p = Returns (Some r) p' →
  category (peek_word p') = CloseCurly ∧ words p' ≠ [] ∧
  words p' = peek_word p' :: words (advance p').
Proof.
  intros E. apply statement_list_ends_at_close_curly in E.
  split; [exact E|].
  assert (Hne : words p' ≠ []).
  { apply peek_word_not_eof. rewrite E. discriminate. }
  split; [exact Hne|].
  unfold peek_word, lookahead, advance. cbn [words set_words].
  destruct (words p'); [contradiction|reflexivity].
Qed.

(** The statements of a block, up to its closing curly bracket. *)
Lemma compound_stmt_assertion_holds_witness :
  let p := make_parser "x = 1; return; } int y;" in
  ∃ r p', statement_list 40 [] p = Returns (Some r) p' ∧
          category (peek_word p') = CloseCurly.
Proof.
  intros p. computed E (statement_list 40 [] p).
  eexists _, _. split; [exact E|].
  exact (proj1 (compound_stmt_assertion_holds _ _ _ _ _ E)).
Defined.
(** ** The words taken and the grammar *)

Lemma took_refl p : took p p [].
Proof. exists []. split; reflexivity. Qed.

Lemma took_same p q : words q = words p → took p q [].
Proof. intros E. exists []. rewrite E. split; reflexivity. Qed.

Lemma took_trans p q r a b : took p q a → took q r b → took p r (a ++ b).
Proof.
  intros (x & Ex & Hx) (y & Ey & Hy). exists (x ++ y). split.
  - rewrite Ex, Ey, app_assoc. reflexivity.
  - rewrite map_app, Hx, Hy. reflexivity.
Qed.

Lemma took_advance p c :
  category (peek_word p) = c → c ≠ Eof → took p (advance p) [c].
Proof.
  intros Hc Hne. assert (Hw : words p ≠ []).
  { apply peek_word_not_eof. rewrite Hc. exact Hne. }
  exists [peek_word p]. split; [|cbn [map]; rewrite Hc; reflexivity].
  unfold peek_word, lookahead, advance. cbn [words set_words].
  destruct (words p); [contradiction|reflexivity].
Qed.

Lemma took_sema_action {A} (s : Step A) `{!SemaAction s} p : took p (snd (s p)) [].
Proof. apply took_same. apply sema_action. Qed.

Lemma regular_took p q cs : regular p → took p q cs → regular q.
Proof.
  intros Hp (pre & E & _) (b & a & Hq). apply Hp.
  exists (map category pre ++ b), a.
  rewrite E, map_app, Hq, <- app_assoc. reflexivity.
Qed.

Lemma regular_paren_assign p q cs :
  regular p → took p q (cs ++ [CloseParen]) → category (peek_word q) ≠ Assign.
Proof.
  intros Hp (pre & E & Hpre) Hq. apply Hp.
  assert (Hw : words q ≠ []).
  { apply peek_word_not_eof. rewrite Hq. discriminate. }
  destruct (words q) as [|w ws] eqn:Ew; [contradiction|].
  exists cs, (map category ws).
  rewrite E, map_app, Hpre. cbn [map].
  unfold peek_word, lookahead in Hq. rewrite Ew in Hq. cbn [nth] in Hq.
  rewrite Hq, <- app_assoc. reflexivity.
Qed.
Lemma took_advance_in p (cs : list Category) :
  category (peek_word p) ∈ cs → Eof ∉ cs → took p (advance p) [category (peek_word p)].
Proof.
  intros Hin Hne. apply took_advance; [reflexivity|].
  intros E. apply Hne. rewrite <- E. exact Hin.
Qed.

Lemma derives_type_specifier p :
  category (peek_word p) ∈ [Void; Int] →
  Grammar.derives Grammar.type_specifier [category (peek_word p)].
Proof.
  intros H. apply elem_of_cons in H as [H|H]; [rewrite H; constructor|].
  apply list_elem_of_singleton in H. rewrite H. constructor.
Qed.

(** Turns what the tests on the window gave into facts on [peek_word]. *)
Ltac peek_facts :=
  repeat match goal with
         | H : peek_is _ _ = true |- _ => apply peek_is_true in H
         | H : peek_is _ _ = false |- _ => apply peek_is_false in H
         | H : _ || _ = false |- _ => apply orb_false_elim in H as [? ?]
         | H : _ && _ = true |- _ => apply andb_prop in H as [? ?]
         | H : lookahead_is 0 ?c ?q = true |- _ =>
             apply bool_decide_eq_true in H;
             change (category (peek_word q) = c) in H
         end.

(** One call of the chain of a production, from the state that the words
    taken so far lead to. *)
Ltac track_step :=
  match goal with
  | Hcur : took ?p0 ?q ?cs, Hc : run (expect_and_consume ?c) ?q = Returns (Some _) _ |- _ =>
      apply run_expect_and_consume_inv in Hc as [Hc ->];
      let H := fresh "Hcur" in
      pose proof (took_trans _ _ _ _ _ Hcur
                    (took_advance q c Hc ltac:(discriminate))) as H
  | Hcur : took ?p0 ?q ?cs, Hc : run expect_and_consume_type ?q = Returns (Some _) _ |- _ =>
      apply run_expect_and_consume_type_inv in Hc as (Hc & -> & ->);
      let H := fresh "Hcur" in
      pose proof (took_trans _ _ _ _ _ Hcur
                    (took_advance_in q _ Hc ltac:(not_in_list))) as H;
      apply derives_type_specifier in Hc
  | Hcur : took ?p0 ?q ?cs, Hc : run (optional (try_consume _)) ?q = Returns (Some (Some _)) _ |- _ =>
      apply run_try_consume_inv in Hc as [(Hc & _ & ->) | (_ & Hc & _)];
      [ | discriminate ];
      let H := fresh "Hcur" in
      pose proof (took_trans _ _ _ _ _ Hcur
                    (took_advance_in q _ Hc ltac:(not_in_list))) as H
  | Hcur : took ?p0 ?q ?cs, Hc : run (optional (try_consume _)) ?q = Returns (Some None) _ |- _ =>
      apply run_try_consume_inv in Hc as [(_ & Hc & _) | (Hc & _ & ->)];
      [ discriminate | ]
  | Hcur : took ?p0 ?q ?cs, Hp : category (peek_word ?q) = ?c,
    Hc : run consume_word ?q = Returns (Some _) ?q' |- _ =>
      apply run_some_inv in Hc as [_ Hc];
      change (q' = advance q) in Hc; subst q';
      let H := fresh "Hcur" in
      pose proof (took_trans _ _ _ _ _ Hcur
                    (took_advance q c Hp ltac:(discriminate))) as H
  | Hcur : took ?p0 ?q ?cs, Hc : run ?s ?q = Returns (Some _) _ |- _ =>
      let Hres := fresh "Hres" in
      apply run_some_inv in Hc as [Hres ->];
      let H := fresh "Hcur" in
      pose proof (took_trans _ _ _ _ _ Hcur (took_sema_action s q)) as H
  | Hc : ret _ _ = Returns (Some _) _ |- _ =>
      inversion Hc; subst; clear Hc
  | Hcur : took ?p0 ?q ?cs, Hc : _ (enter_scope ?f ?q) = Returns _ _ |- _ =>
      change (took p0 (enter_scope f q) cs) in Hcur
  | Hcur : took ?p0 ?q ?cs, Hc : _ (leave_scope ?q) = Returns _ _ |- _ =>
      change (took p0 (leave_scope q) cs) in Hcur
  | Hcur : took ?p0 ?q ?cs, Hok : regular ?p0, Hc : _ ?q = Returns (Some _) _ |- _ =>
      match goal with
      | IH : _ |- _ => apply IH in Hc; [ | exact (regular_took _ _ _ Hok Hcur) ]
      end;
      let H := fresh "Hcur" in
      destruct Hc as (? & H & Hc);
      apply (took_trans _ _ _ _ _ Hcur) in H
  end.

Ltac split_facts :=
  repeat match goal with
         | H : _ ∧ _ |- _ => destruct H
         | H : _ ∈ [_] |- _ => apply list_elem_of_singleton in H
         end.

(** Takes the call chains of the hypotheses apart. *)
Ltac invert_one H :=
  lazymatch type of H with
  | bind (get _) _ _ = _ => rewrite bind_get in H; cbv beta in H
  | bind _ _ _ = _ => apply bind_some_inv in H as (? & ? & ? & H)
  | with_scope _ _ _ = _ => apply with_scope_some_inv in H as (? & H & ->)
  | (if negb ?b then _ else _) _ = _ => destruct b eqn:?; cbn [negb] in H
  | (match ?o with _ => _ end) _ = _ => destruct o eqn:?
  end.

Ltac invert_calls :=
  repeat match goal with
         | H : _ = Returns (Some _) _ |- _ => invert_one H
         end;
  repeat match goal with
         | H : run (report_at_peek _) _ = Returns (Some _) _ |- _ =>
             unfold run, report_at_peek in H; cbn [fst snd] in H; discriminate
         end.

Ltac track p :=
  let H := fresh "Hcur" in
  pose proof (took_refl p) as H;
  unfold sound_for, sound_expr, sound_loop, sound_list, sound_until_paren in *;
  peek_facts;
  repeat track_step;
  split_facts.

Ltac no_report H :=
  try (unfold run, report_at_peek in H; cbn [fst snd] in H; discriminate).

Lemma act_on_number_not_var w p e :
  fst (act_on_number w p) = Some e → is_var_ref e = false.
Proof.
  unfold act_on_number. case_bool_decide; cbn [fst]; intros E; inversion E; reflexivity.
Qed.

Lemma act_on_call_not_var i a l p e :
  fst (act_on_call i a l p) = Some e → is_var_ref e = false.
Proof.
  unfold act_on_call. destruct scope_lookup as [[]|]; cbn [fst];
    intros E; inversion E; reflexivity.
Qed.

Lemma act_on_binary_expr_not_var l r o p e :
  fst (act_on_binary_expr l r o p) = Some e → is_var_ref e = false.
Proof. cbn. intros E. inversion E. reflexivity. Qed.

Lemma var_or_paren_not_var e cs : is_var_ref e = false → var_or_paren e cs.
Proof. intros H E. rewrite H in E. discriminate. Qed.


Ltac conclude :=
  match goal with
  | Hcur : took ?p0 _ ?cs |- ∃ _, took ?p0 _ _ ∧ _ =>
      exists cs; split; [exact Hcur|]
  end;
  repeat match goal with
         | H : category (peek_word ?q) = _ |- context[category (peek_word ?q)] =>
             rewrite H
         end;
  rewrite <- ?app_assoc, ?app_nil_r; cbn [app].

Lemma parse_number_took p e p' :
  parse_number p = Returns (Some e) p' → regular p →
  ∃ cs, took p p' cs ∧ cs = [Number] ∧ is_var_ref e = false.
Proof.
  intros E Hok. unfold parse_number in E. invert_calls. track p.
  conclude. split; [reflexivity|]. exact (act_on_number_not_var _ _ _ Hres).
Qed.

Lemma parse_number_sound : sound_expr Grammar.factor parse_number.
Proof.
  intros p e p' E Hok.
  destruct (parse_number_took _ _ _ E Hok) as (cs & Ht & -> & Hnv).
  exists [Number]. split; [exact Ht|]. split; [apply Grammar.factor_4|].
  apply var_or_paren_not_var. exact Hnv.
Qed.


Lemma derives_relop c :
  c ∈ [LessEqual; Less; Greater; GreaterEqual; Equal; NotEqual] →
  Grammar.derives Grammar.relop [c].
Proof.
  intros H. repeat (apply elem_of_cons in H as [->|H]; [constructor|]).
  apply elem_of_nil in H. contradiction.
Qed.

Lemma derives_addop c : c ∈ [Plus; Minus] → Grammar.derives Grammar.addop [c].
Proof.
  intros H. repeat (apply elem_of_cons in H as [->|H]; [constructor|]).
  apply elem_of_nil in H. contradiction.
Qed.

Lemma derives_mulop c : c ∈ [Multiply; Divide] → Grammar.derives Grammar.mulop [c].
Proof.
  intros H. repeat (apply elem_of_cons in H as [->|H]; [constructor|]).
  apply elem_of_nil in H. contradiction.
Qed.

Lemma app_cons_assoc {A} (a : list A) c x r : a ++ c :: x ++ r = (a ++ [c] ++ x) ++ r.
Proof. rewrite <- !app_assoc. reflexivity. Qed.

Lemma expression_sound n :
  sound_expr Grammar.expression (parse_expression n) ∧
  sound_expr Grammar.simple_expression (parse_simple_expression n) ∧
  sound_expr Grammar.additive_expression (parse_additive_expression n) ∧
  (∀ e1, sound_loop Grammar.additive_expression e1 (additive_loop n e1)) ∧
  sound_expr Grammar.term (parse_term n) ∧
  (∀ e1, sound_loop Grammar.term e1 (term_loop n e1)) ∧
  sound_expr Grammar.factor (parse_factor n) ∧
  sound_expr Grammar.var (parse_var n) ∧
  sound_expr Grammar.call (parse_call n) ∧
  (∀ a, sound_until_paren Grammar.arg_list (call_args_loop n a)).
Proof.
  induction n as [|n IH].
  { repeat apply conj; intros; intros p e p' E; discriminate. }
  destruct IH as (IHe & IHs & IHa & IHal & IHt & IHtl & IHf & IHv & IHc & IHcl).
  pose proof parse_number_sound as IHn.
  repeat apply conj.
  - intros p e p' E Hok.
    cbn [parse_expression] in E. invert_calls; track p; conclude.
    + split; [|apply var_or_paren_not_var; cbn in Hres; inversion Hres; reflexivity].
      match goal with
      | Hv : var_or_paren ?x _, Hx : as_var_expr ?x = Some _ |- _ =>
          destruct (Hv (proj2 (as_var_expr_is_var_ref _ _ Hx))) as [Hvar | [cs' ->]]
      end.
      * apply Grammar.expression_1; assumption.
      * exfalso. eapply regular_paren_assign; eauto.
    + split; [apply Grammar.expression_2|]; assumption.
    + split; [apply Grammar.expression_2|]; assumption.
  - intros p e p' E Hok.
    cbn [parse_simple_expression] in E. invert_calls; track p; conclude.
    + split; [|apply var_or_paren_not_var; cbn in Hres; inversion Hres; reflexivity].
      apply (Grammar.simple_expression_1 _ [_] _); try assumption.
      apply derives_relop. assumption.
    + split; [apply Grammar.simple_expression_2|]; assumption.
  - intros p e p' E Hok.
    cbn [parse_additive_expression] in E. invert_calls; track p; conclude.
    match goal with
    | Hext : ∀ a, _ → Grammar.derives _ (a ++ ?cs) |- _ =>
        split; [apply Hext, Grammar.additive_expression_2; assumption|]
    end.
    match goal with
    | Hor : _ ∨ _ |- _ => destruct Hor as [[-> ->] | Hnv]
    end.
    + rewrite app_nil_r. assumption.
    + apply var_or_paren_not_var. exact Hnv.
  - intros e1 p e p' E Hok.
    cbn [additive_loop] in E. invert_calls; track p; conclude.
    + split.
      * intros a Ha. rewrite app_cons_assoc.
        match goal with
        | Hext : ∀ a, _ → Grammar.derives _ (a ++ ?cs) |- _ => apply Hext
        end.
        apply Grammar.additive_expression_1; try assumption.
        apply derives_addop. assumption.
      * right.
        match goal with
        | Hor : _ ∨ _ |- _ => destruct Hor as [[_ ->] | Hnv]; [|exact Hnv]
        end.
        exact (act_on_binary_expr_not_var _ _ _ _ _ Hres).
    + split; [intros a Ha; rewrite app_nil_r; exact Ha|]. left. split; reflexivity.
  - intros p e p' E Hok.
    cbn [parse_term] in E. invert_calls; track p; conclude.
    match goal with
    | Hext : ∀ a, _ → Grammar.derives _ (a ++ ?cs) |- _ =>
        split; [apply Hext, Grammar.term_2; assumption|]
    end.
    match goal with
    | Hor : _ ∨ _ |- _ => destruct Hor as [[-> ->] | Hnv]
    end.
    + rewrite app_nil_r. assumption.
    + apply var_or_paren_not_var. exact Hnv.
  - intros e1 p e p' E Hok.
    cbn [term_loop] in E. invert_calls; track p; conclude.
    + split.
      * intros a Ha. rewrite app_cons_assoc.
        match goal with
        | Hext : ∀ a, _ → Grammar.derives _ (a ++ ?cs) |- _ => apply Hext
        end.
        apply Grammar.term_1; try assumption.
        apply derives_mulop. assumption.
      * right.
        match goal with
        | Hor : _ ∨ _ |- _ => destruct Hor as [[_ ->] | Hnv]; [|exact Hnv]
        end.
        exact (act_on_binary_expr_not_var _ _ _ _ _ Hres).
    + split; [intros a Ha; rewrite app_nil_r; exact Ha|]. left. split; reflexivity.
  - intros p e p' E Hok.
    cbn [parse_factor] in E. invert_calls; track p; conclude.
    + split; [apply Grammar.factor_3; assumption | assumption].
    + split; [apply Grammar.factor_2; assumption | intros _; left; assumption].
    + split; assumption.
    + split; [apply Grammar.factor_1; assumption|].
      intros _. right. eexists (OpenParen :: _). reflexivity.
  - intros p e p' E Hok.
    cbn [parse_var] in E. invert_calls; track p; conclude.
    + split; [apply Grammar.var_2; assumption|].
      intros _. left. apply Grammar.var_2. assumption.
    + split; [apply Grammar.var_1 | intros _; left; apply Grammar.var_1].
  - intros p e p' E Hok.
    cbn [parse_call] in E. invert_calls; track p; conclude.
    all: (split; [|apply var_or_paren_not_var;
                   exact (act_on_call_not_var _ _ _ _ _ Hres)]).
    + match goal with
      | Himp : category _ = CloseParen → _ = [] |- _ =>
          rewrite (Himp ltac:(assumption))
      end.
      apply (Grammar.call_1 []), Grammar.args_2.
    + rewrite app_assoc. apply Grammar.call_1, Grammar.args_1.
      match goal with
      | Hext : ∀ l, _ → Grammar.derives _ (l ++ _) |- _ => apply Hext
      end.
      apply Grammar.arg_list_2. assumption.
  - intros a p r p' E Hok.
    cbn [call_args_loop] in E. invert_calls; track p; conclude.
    + split; [intros l Hl; rewrite app_nil_r; exact Hl | reflexivity].
    + split.
      * intros l Hl. rewrite app_cons_assoc.
        match goal with
        | Hext : ∀ l, _ → Grammar.derives _ (l ++ _) |- _ => apply Hext
        end.
        apply Grammar.arg_list_1; assumption.
      * intros Hp. discriminate.
Qed.

Lemma parse_expression_sound n : sound_expr Grammar.expression (parse_expression n).
Proof. apply expression_sound. Qed.

Lemma parse_var_declaration_sound : sound_for Grammar.var_declaration parse_var_declaration.
Proof.
  pose proof parse_number_took as IHn.
  intros p d p' E Hok. unfold parse_var_declaration in E.
  invert_calls; track p; subst; conclude.
  - apply (Grammar.var_declaration_2 [_]). assumption.
  - apply (Grammar.var_declaration_1 [_]). assumption.
Qed.

Lemma parse_param_sound : sound_for Grammar.param parse_param.
Proof.
  intros p d p' E Hok. unfold parse_param in E.
  invert_calls; track p; conclude.
  - apply (Grammar.param_2 [_]). assumption.
  - apply (Grammar.param_1 [_]). assumption.
Qed.

Lemma parse_expr_stmt_sound n : sound_for Grammar.expression_stmt (parse_expr_stmt n).
Proof.
  pose proof (parse_expression_sound n) as IHe.
  intros p s p' E Hok. unfold parse_expr_stmt in E.
  invert_calls; track p; conclude.
  - apply Grammar.expression_stmt_2.
  - apply Grammar.expression_stmt_1. assumption.
Qed.

Lemma parse_return_stmt_sound n : sound_for Grammar.return_stmt (parse_return_stmt n).
Proof.
  pose proof (parse_expression_sound n) as IHe.
  intros p s p' E Hok. unfold parse_return_stmt in E.
  invert_calls; track p; conclude.
  - apply Grammar.return_stmt_1.
  - apply (Grammar.return_stmt_2). assumption.
Qed.

Lemma local_declarations_sound n :
  ∀ decls, sound_list Grammar.local_declarations (local_declarations n decls).
Proof.
  pose proof parse_var_declaration_sound as IHd.
  induction n as [|n IH]; intros decls p r p' E Hok; [discriminate|].
  cbn [local_declarations] in E. invert_calls; track p; conclude.
  - intros l Hl. rewrite app_assoc.
    match goal with
    | Hext : ∀ l, _ → Grammar.derives _ (l ++ _) |- _ => apply Hext
    end.
    apply Grammar.local_declarations_1; assumption.
  - intros l Hl. rewrite app_nil_r. exact Hl.
Qed.

Ltac close_curly_fact :=
  match goal with
  | H : statement_list _ _ _ = Returns (Some _) _ |- _ =>
      pose proof (statement_list_ends_at_close_curly _ _ _ _ _ H)
  end.

Lemma statement_sound n :
  sound_for Grammar.statement (parse_statement n) ∧
  (∀ f, sound_for Grammar.compound_stmt (parse_compound_stmt n f)) ∧
  (∀ s, sound_list Grammar.statement_list (statement_list n s)) ∧
  sound_for Grammar.selection_stmt (parse_selection_stmt n) ∧
  sound_for Grammar.iteration_stmt (parse_iteration_stmt n).
Proof.
  induction n as [|n IH].
  { repeat apply conj; intros; intros p e p' E; discriminate. }
  destruct IH as (IHs & IHc & IHl & IHi & IHw).
  pose proof (parse_expression_sound n) as IHe.
  pose proof (parse_expr_stmt_sound n) as IHes.
  pose proof (parse_return_stmt_sound n) as IHr.
  pose proof (local_declarations_sound n) as IHd.
  repeat apply conj.
  - intros p s p' E Hok.
    cbn [parse_statement] in E. invert_calls; track p; conclude.
    all: first [ apply Grammar.statement_1; assumption
               | apply Grammar.statement_2; assumption
               | apply Grammar.statement_3; assumption
               | apply Grammar.statement_4; assumption
               | apply Grammar.statement_5; assumption ].
  - intros f p s p' E Hok.
    cbn [parse_compound_stmt] in E. invert_calls. close_curly_fact. track p; conclude.
    apply Grammar.compound_stmt_1.
    + match goal with
      | Hext : ∀ l, _ → Grammar.derives Grammar.local_declarations (l ++ ?cs)
        |- Grammar.derives _ ?cs => apply (Hext [])
      end.
      apply Grammar.local_declarations_2.
    + match goal with
      | Hext : ∀ l, _ → Grammar.derives Grammar.statement_list (l ++ ?cs)
        |- Grammar.derives _ ?cs => apply (Hext [])
      end.
      apply Grammar.statement_list_2.
  - intros stms p r p' E Hok.
    cbn [statement_list] in E. invert_calls; track p; conclude.
    + intros l Hl. rewrite app_nil_r. exact Hl.
    + intros l Hl. rewrite app_assoc.
      match goal with
      | Hext : ∀ l, _ → Grammar.derives _ (l ++ _) |- _ => apply Hext
      end.
      apply Grammar.statement_list_1; assumption.
  - intros p s p' E Hok.
    cbn [parse_selection_stmt] in E. invert_calls; track p; conclude.
    + apply Grammar.selection_stmt_2; assumption.
    + apply Grammar.selection_stmt_1; assumption.
  - intros p s p' E Hok.
    cbn [parse_iteration_stmt] in E. invert_calls; track p; conclude.
    apply Grammar.iteration_stmt_1; assumption.
Qed.

Lemma parse_compound_stmt_sound n f :
  sound_for Grammar.compound_stmt (parse_compound_stmt n f).
Proof. apply statement_sound. Qed.

Lemma param_list_rest_sound n fd :
  sound_until_paren Grammar.param_list (param_list_rest n fd).
Proof.
  pose proof parse_param_sound as IHp.
  induction n as [|n IH]; intros p r p' E Hok; [discriminate|].
  cbn [param_list_rest] in E. invert_calls; track p; conclude.
  - split; [intros l Hl; rewrite app_nil_r; exact Hl | reflexivity].
  - split.
    + intros l Hl. rewrite app_cons_assoc.
      match goal with
      | Hext : ∀ l, _ → Grammar.derives _ (l ++ _) |- _ => apply Hext
      end.
      apply Grammar.param_list_1; assumption.
    + intros Hp. discriminate.
Qed.

Lemma parse_params_sound n fd : sound_for Grammar.params (parse_params n fd).
Proof.
  pose proof parse_param_sound as IHp.
  pose proof (param_list_rest_sound n fd) as IHr.
  intros p r p' E Hok. unfold parse_params in E.
  invert_calls; track p; conclude.
  - apply Grammar.params_2.
  - apply Grammar.params_1.
    match goal with
    | Hext : ∀ l, _ → Grammar.derives _ (l ++ _) |- _ => apply Hext
    end.
    apply Grammar.param_list_2. assumption.
Qed.

Lemma parse_fun_params_and_body_sound n fd p r p' :
  parse_fun_params_and_body n fd p = Returns (Some r) p' → regular p →
  ∃ cs, took p p' cs ∧
        ∃ ps body, cs = ps ++ [CloseParen] ++ body ∧
                   Grammar.derives Grammar.params ps ∧
                   Grammar.derives Grammar.compound_stmt body.
Proof.
  pose proof (parse_params_sound n fd) as IHp.
  pose proof (parse_compound_stmt_sound n) as IHc.
  intros E Hok. unfold parse_fun_params_and_body in E.
  invert_calls; track p; conclude.
  eexists _, _. split; [reflexivity|]. split; assumption.
Qed.

Lemma parse_fun_declaration_sound n :
  sound_for Grammar.fun_declaration (parse_fun_declaration n).
Proof.
  pose proof (parse_fun_params_and_body_sound n) as IHb.
  intros p d p' E Hok. unfold parse_fun_declaration in E.
  invert_calls; track p.
  repeat match goal with
         | H : ∃ _, _ |- _ => destruct H as [? H]
         end.
  split_facts; subst. conclude.
  apply (Grammar.fun_declaration_1 [_]); assumption.
Qed.

Lemma parse_declaration_sound n : sound_for Grammar.declaration (parse_declaration n).
Proof.
  pose proof (parse_fun_declaration_sound n) as IHf.
  pose proof parse_var_declaration_sound as IHv.
  intros p d p' E Hok. unfold parse_declaration in E.
  invert_calls; track p; conclude.
  - apply Grammar.declaration_2. assumption.
  - apply Grammar.declaration_1. assumption.
Qed.

Lemma declaration_list_sound n :
  ∀ prog p r p',
    declaration_list n prog p = Returns (Some r) p' → regular p →
    ∃ cs, took p p' cs ∧
          Grammar.derives Grammar.declaration_list cs ∧
          (∀ l, Grammar.derives Grammar.declaration_list l →
                Grammar.derives Grammar.declaration_list (l ++ cs)).
Proof.
  induction n as [|n IH]; intros prog p r p' E Hok; [discriminate|].
  pose proof (parse_declaration_sound n) as IHd.
  cbn [declaration_list] in E. invert_calls; track p.
  all: conclude.
  - split; [apply Grammar.declaration_list_2; assumption|].
    intros l Hl. apply Grammar.declaration_list_1; assumption.
  - match goal with
    | Hext : ∀ l, _ → Grammar.derives _ (l ++ _) |- _ =>
        split; [apply Hext, Grammar.declaration_list_2; assumption|];
        intros l Hl; rewrite app_assoc; apply Hext
    end.
    apply Grammar.declaration_list_1; assumption.
Qed.

Lemma parse_program_sound n : sound_for Grammar.program (parse_program n).
Proof.
  pose proof (declaration_list_sound n) as IHl.
  intros p prog p' E Hok. unfold parse_program in E.
  invert_calls; track p; conclude.
  apply Grammar.program_1. assumption.
Qed.

Lemma sound_expr_sound_for nt m : sound_expr nt m → sound_for nt m.
Proof.
  intros H p e p' E Hok. destruct (H p e p' E Hok) as (cs & Ht & Hd & _).
  exists cs. split; assumption.
Qed.

Lemma assign_follows_var_regular prev p :
  assign_follows_var prev (map category (words p)) = true → regular p.
Proof.
  intros H (b & a & E). rewrite E, assign_follows_var_app in H.
  cbn [app assign_follows_var] in H.
  rewrite bool_decide_eq_false_2 in H by discriminate.
  rewrite bool_decide_eq_true_2 in H by reflexivity.
  cbn [ends_var] in H. rewrite !andb_false_r, ?andb_false_l in H.
  cbn [andb] in H. rewrite ?andb_false_r in H. discriminate.
Qed.

(** X8: the parser is sound for the grammar given at the bottom of
    [parser.cpp], but for an [=] after a closing parenthesis: in a stream
    where no [=] follows a [)], the words that a production takes to
    return a node are derived from the non-terminal of the production. *)
Theorem accepted_words_are_derived n :
  sound_for Grammar.program (parse_program n) ∧
  sound_for Grammar.declaration (parse_declaration n) ∧
  sound_for Grammar.var_declaration parse_var_declaration ∧
  sound_for Grammar.fun_declaration (parse_fun_declaration n) ∧
  (∀ fd, sound_for Grammar.params (parse_params n fd)) ∧
  sound_for Grammar.param parse_param ∧
  sound_for Grammar.statement (parse_statement n) ∧
  sound_for Grammar.expression_stmt (parse_expr_stmt n) ∧
  (∀ flags, sound_for Grammar.compound_stmt (parse_compound_stmt n flags)) ∧
  sound_for Grammar.selection_stmt (parse_selection_stmt n) ∧
  sound_for Grammar.iteration_stmt (parse_iteration_stmt n) ∧
  sound_for Grammar.return_stmt (parse_return_stmt n) ∧
  sound_for Grammar.expression (parse_expression n) ∧
  sound_for Grammar.simple_expression (parse_simple_expression n) ∧
  sound_for Grammar.additive_expression (parse_additive_expression n) ∧
  sound_for Grammar.term (parse_term n) ∧
  sound_for Grammar.factor (parse_factor n) ∧
  sound_for Grammar.factor parse_number ∧
  sound_for Grammar.var (parse_var n) ∧
  sound_for Grammar.call (parse_call n).
Proof.
  destruct (expression_sound n) as (He & Hs & Ha & _ & Ht & _ & Hf & Hv & Hc & _).
  destruct (statement_sound n) as (Hst & Hco & _ & Hse & Hit).
  repeat apply conj; try assumption; try (apply sound_expr_sound_for; assumption).
  - apply parse_program_sound.
  - apply parse_declaration_sound.
  - apply parse_var_declaration_sound.
  - apply parse_fun_declaration_sound.
  - intros fd. apply parse_params_sound.
  - apply parse_param_sound.
  - apply parse_expr_stmt_sound.
  - apply parse_return_stmt_sound.
  - apply sound_expr_sound_for, parse_number_sound.
Qed.

(** A loop with an assignment to an array element and a call: the words
    of the statement are derived from <statement>, and the word after it is
    left. *)
Lemma accepted_words_are_derived_witness :
  let p := make_parser "while (i < n) { a[i] = f(i, 2) * (i + 1); i = i + 1; } x" in
  ∃ s p' cs, parse_statement 60 p = Returns (Some s) p' ∧
             took p p' cs ∧ Grammar.derives Grammar.statement cs ∧
             map category (words p') = [Identifier].
Proof.
  intros p. computed E (parse_statement 60 p).
  destruct (accepted_words_are_derived 60) as (_ & _ & _ & _ & _ & _ & H & _).
  assert (Hok : regular p).
  { apply (assign_follows_var_regular Eof). vm_compute. reflexivity. }
  destruct (H p _ _ E Hok) as (cs & Ht & Hd).
  eexists _, _, cs. split; [exact E|]. split; [exact Ht|]. split; [exact Hd|].
  vm_compute. reflexivity.
Defined.

Lemma parse_program_accepts_sentences n p prog p' :
  parse_program n p = Returns (Some prog) p' →
  no_eof_word (words p) →
  ¬ assign_after_paren (map category (words p)) →
  Grammar.derives Grammar.program (map category (words p)).
Proof.
  intros E Hall Hok.
  destruct (parse_program_sound n p prog p' E Hok) as (cs & (pre & Hw & Hpre) & Hd).
  pose proof (parse_program_only_consumes n p _ _ E) as Hahead.
  assert (Hend : words p' = []).
  { apply (ahead_at_eof p p' Hahead Hall).
    unfold parse_program in E. invert_call E.
    match goal with
    | H : declaration_list _ _ _ = _ |- _ =>
        apply declaration_list_ends_at_eof in H as [H _]
    end.
    apply run_some_inv in E as [_ ->]. assumption. }
  rewrite Hw, Hend, app_nil_r, Hpre. exact Hd.
Qed.

(** X9: a program that [parse_program] accepts is a sentence of the
    grammar, when no [=] follows a closing parenthesis in it: the
    categories of all the words of the stream are derived from <program>. *)
Theorem accepted_program_is_a_sentence n p prog p' :
  parse_program n p = Returns (Some prog) p' →
  no_eof_word (words p) →
  ¬ assign_after_paren (map category (words p)) →
  Grammar.derives Grammar.program (map category (words p)).
Proof. apply parse_program_accepts_sentences. Qed.

(** A program with a variable and a function. *)
Lemma accepted_program_is_a_sentence_witness :
  let p := make_parser "int g; int f(int a, int b[]) { if (a) return b[a]; else g = a; }" in
  Grammar.derives Grammar.program (map category (words p)).
Proof.
  intros p. computed E (parse_program (fuel_for p) p).
  apply (accepted_program_is_a_sentence _ _ _ _ E).
  - apply no_eof_word_check. vm_compute. reflexivity.
  - apply (assign_follows_var_regular Eof). vm_compute. reflexivity.
Defined.
(** ** Statements and the scope stack *)

(** X10: a statement or an expression leaves the state of the semantic
    actions as it found it, whether it returns a node or null: the frame
    that a compound statement pushes is popped on every way out, and the
    declarations of a block do not outlive it. *)
Theorem statements_restore_the_scopes n :
  keeps_sema (parse_statement n) ∧
  (∀ flags, keeps_sema (parse_compound_stmt n flags)) ∧
  keeps_sema (parse_selection_stmt n) ∧
  keeps_sema (parse_iteration_stmt n) ∧
  keeps_sema (parse_return_stmt n) ∧
  keeps_sema (parse_expr_stmt n) ∧
  keeps_sema (parse_expression n).
Proof.
  destruct (statement_keeps_sema n) as (Hst & Hco & _ & Hse & Hit).
  repeat apply conj; try assumption.
  - apply parse_return_stmt_keeps_sema.
  - apply parse_expr_stmt_keeps_sema.
  - apply parse_expression_keeps_sema.
Qed.

(** A block that declares [x] and then fails, inside the global frame:
    the frame of the block is gone, and [x] with it. *)
Lemma statements_restore_the_scopes_witness :
  let p := enter_scope NoFlags (make_parser "{ int x; x = ; }") in
  ∃ p', parse_statement 40 p = Returns None p' ∧
        sema p' = sema p ∧ length (scopes (sema p')) = 1.
Proof.
  intros p. computed E (parse_statement 40 p).
  destruct (statements_restore_the_scopes 40) as (H & _).
  eexists. split; [exact E|]. split; [exact (H p _ _ E)|].
  vm_compute. reflexivity.
Defined.
(** ** Every program of the grammar is accepted *)
Lemma cats_peek p c l : cats p = c :: l → category (peek_word p) = c.
Proof.
  unfold cats, peek_word, lookahead. destruct (words p); intros E; inversion E.
  reflexivity.
Qed.

Lemma cats_advance p c l : cats p = c :: l → cats (advance p) = l.
Proof.
  unfold cats, advance. cbn [words set_words].
  destruct (words p); intros E; inversion E. reflexivity.
Qed.

Lemma cats_lookahead_1 p c c' l : cats p = c :: c' :: l → category (lookahead 1 p) = c'.
Proof.
  unfold cats, lookahead. destruct (words p) as [|? [|? ?]]; intros E; inversion E.
  reflexivity.
Qed.

Lemma cats_lookahead_2 p c c' c'' l :
  cats p = c :: c' :: c'' :: l → category (lookahead 2 p) = c''.
Proof.
  unfold cats, lookahead. destruct (words p) as [|? [|? [|? ?]]]; intros E; inversion E.
  reflexivity.
Qed.

Lemma cats_next_not p l rest :
  cats p = rest → next_not l rest → Eof ∉ l → category (peek_word p) ∉ l.
Proof.
  intros E Hn He. destruct rest as [|c r].
  - unfold cats in E. apply map_eq_nil in E.
    rewrite (peek_word_nil p E). exact He.
  - rewrite (cats_peek _ _ _ E). exact Hn.
Qed.

Lemma cats_sema_action {A} (s : Step A) `{!SemaAction s} p : cats (snd (s p)) = cats p.
Proof. unfold cats. destruct (sema_action p) as [_ ->]. reflexivity. Qed.

Lemma sema_action_some {A} (s : Step A) `{!SemaAction s} p :
  ∃ a, s p = (a, snd (s p)) ∧ ∃ x, a = Some x.
Proof.
  destruct (sema_action p) as [[x Hx] _]. exists (fst (s p)). split; [|eauto].
  destruct (s p); reflexivity.
Qed.

Lemma evals_le {A} (f : nat → Action A) n m p a p' :
  (∀ n, refines (f n) (f (S n))) →
  f n p = Returns (Some a) p' → n ≤ m → f m p = Returns (Some a) p'.
Proof. intros Hf E Hle. exact (refines_le f Hf n m Hle p _ _ E). Qed.

Lemma not_in_sublist (c : Category) (l l' : list Category) :
  c ∉ l → l' ⊆ l → c ∉ l'.
Proof. intros Hn Hs Hin. apply Hn, Hs, Hin. Qed.

Lemma run_action {A} (s : Step A) `{!SemaAction s} p :
  ∃ a, run s p = Returns (Some a) (snd (s p)).
Proof.
  destruct (sema_action p) as [[a Ha] _]. exists a. unfold run. rewrite Ha. reflexivity.
Qed.

Lemma additive_loop_fuel e n : refines (additive_loop n e) (additive_loop (S n) e).
Proof. apply expression_fuel. Qed.

Lemma term_loop_fuel e n : refines (term_loop n e) (term_loop (S n) e).
Proof. apply expression_fuel. Qed.

Lemma call_args_loop_fuel a n : refines (call_args_loop n a) (call_args_loop (S n) a).
Proof. apply expression_fuel. Qed.

Lemma loop_to_refl {A} (loop : nat → A → Action A) a q : loop_to loop a q a q.
Proof. intros r p'' H. exact H. Qed.

Lemma loop_to_trans {A} (loop : nat → A → Action A) a1 q1 a2 q2 a3 q3 :
  loop_to loop a1 q1 a2 q2 → loop_to loop a2 q2 a3 q3 → loop_to loop a1 q1 a3 q3.
Proof. intros H1 H2 r p'' H. apply H1, H2, H. Qed.

(** *** Running the productions of the expressions forward *)

Lemma parse_number_accepts p l :
  cats p = Number :: l →
  ∃ e p', parse_number p = Returns (Some e) p' ∧ cats p' = l.
Proof.
  intros H. unfold parse_number.
  destruct (run_action (act_on_number (peek_word p)) (advance p)) as [e He].
  exists e, (snd (act_on_number (peek_word p) (advance p))). split.
  - rewrite bind_run, (expect_and_consume_match _ _ (cats_peek _ _ _ H)).
    cbn [fst snd]. exact He.
  - rewrite (cats_sema_action _). exact (cats_advance _ _ _ H).
Qed.

Lemma parse_factor_number p l :
  cats p = Number :: l →
  ∃ e p', evals parse_factor p e p' ∧ cats p' = l.
Proof.
  intros H. destruct (parse_number_accepts p l H) as (e & p' & E & Hl).
  exists e, p'. split; [|exact Hl]. exists 1. cbn [parse_factor].
  rewrite bind_get, (cats_peek _ _ _ H). exact E.
Qed.

Lemma parse_factor_parenthesized p e q :
  category (peek_word p) = OpenParen →
  evals parse_expression (advance p) e q →
  category (peek_word q) = CloseParen →
  evals parse_factor p e (advance q).
Proof.
  intros Hp [n E] Hq. exists (S n). exact (parse_factor_paren n p e q Hp E Hq).
Qed.

Lemma parse_factor_of_var p e q :
  category (peek_word p) = Identifier →
  category (lookahead 1 p) ≠ OpenParen →
  evals parse_var p e q →
  evals parse_factor p e q.
Proof.
  intros Hp Hl [n E]. exists (S n). rewrite (parse_factor_var n p Hp Hl). exact E.
Qed.

Lemma parse_factor_of_call p e q :
  category (peek_word p) = Identifier →
  category (lookahead 1 p) = OpenParen →
  evals parse_call p e q →
  evals parse_factor p e q.
Proof.
  intros Hp Hl [n E]. exists (S n). cbn [parse_factor].
  rewrite bind_get, Hp, bind_get. unfold lookahead_is.
  rewrite bool_decide_eq_true_2 by exact Hl. exact E.
Qed.

Lemma term_loop_stops e q :
  category (peek_word q) ∉ [Multiply; Divide] → evals (fun n => term_loop n e) q e q.
Proof.
  intros H. exists 1. cbn [term_loop]. rewrite bind_run. unfold optional.
  rewrite (try_consume_not_in _ _ H). reflexivity.
Qed.

Lemma term_loop_goes_on e q e2 q2 :
  category (peek_word q) ∈ [Multiply; Divide] →
  evals parse_factor (advance q) e2 q2 →
  loop_to term_loop e q (EBinaryExpr (category (peek_word q)) e e2) q2.
Proof.
  intros H [n E] r p'' [m Em]. exists (S (n + m)). cbn [term_loop].
  rewrite bind_run. unfold optional. rewrite (try_consume_in _ _ H). cbn [fst snd].
  rewrite (bind_some _ _ _ _ _
             (evals_le parse_factor n (n + m) _ _ _ parse_factor_fuel E ltac:(lia))).
  rewrite bind_run. cbn [act_on_binary_expr pure fst snd].
  exact (evals_le (fun k => term_loop k _) m (n + m) _ _ _ (term_loop_fuel _) Em ltac:(lia)).
Qed.

Lemma parse_term_runs p e1 q e q' :
  evals parse_factor p e1 q →
  evals (fun n => term_loop n e1) q e q' →
  evals parse_term p e q'.
Proof.
  intros [n E] [m Em]. exists (S (n + m)). cbn [parse_term].
  rewrite (bind_some _ _ _ _ _
             (evals_le parse_factor n (n + m) _ _ _ parse_factor_fuel E ltac:(lia))).
  exact (evals_le (fun k => term_loop k _) m (n + m) _ _ _ (term_loop_fuel _) Em ltac:(lia)).
Qed.

Lemma additive_loop_stops e q :
  category (peek_word q) ∉ [Plus; Minus] → evals (fun n => additive_loop n e) q e q.
Proof.
  intros H. exists 1. cbn [additive_loop]. rewrite bind_run. unfold optional.
  rewrite (try_consume_not_in _ _ H). reflexivity.
Qed.

Lemma additive_loop_goes_on e q e2 q2 :
  category (peek_word q) ∈ [Plus; Minus] →
  evals parse_term (advance q) e2 q2 →
  loop_to additive_loop e q (EBinaryExpr (category (peek_word q)) e e2) q2.
Proof.
  intros H [n E] r p'' [m Em]. exists (S (n + m)). cbn [additive_loop].
  rewrite bind_run. unfold optional. rewrite (try_consume_in _ _ H). cbn [fst snd].
  rewrite (bind_some _ _ _ _ _
             (evals_le parse_term n (n + m) _ _ _ parse_term_fuel E ltac:(lia))).
  rewrite bind_run. cbn [act_on_binary_expr pure fst snd].
  exact (evals_le (fun k => additive_loop k _) m (n + m) _ _ _
           (additive_loop_fuel _) Em ltac:(lia)).
Qed.

Lemma parse_additive_expression_runs p e1 q e q' :
  evals parse_term p e1 q →
  evals (fun n => additive_loop n e1) q e q' →
  evals parse_additive_expression p e q'.
Proof.
  intros [n E] [m Em]. exists (S (n + m)). cbn [parse_additive_expression].
  rewrite (bind_some _ _ _ _ _
             (evals_le parse_term n (n + m) _ _ _ parse_term_fuel E ltac:(lia))).
  exact (evals_le (fun k => additive_loop k _) m (n + m) _ _ _
           (additive_loop_fuel _) Em ltac:(lia)).
Qed.

Lemma parse_simple_expression_alone p e q :
  evals parse_additive_expression p e q →
  category (peek_word q) ∉ [LessEqual; Less; Greater; GreaterEqual; Equal; NotEqual] →
  evals parse_simple_expression p e q.
Proof.
  intros [n E] H. exists (S n). exact (parse_simple_expression_single n p e q E H).
Qed.

Lemma parse_simple_expression_relational p e1 q e2 q2 :
  evals parse_additive_expression p e1 q →
  category (peek_word q) ∈ [LessEqual; Less; Greater; GreaterEqual; Equal; NotEqual] →
  evals parse_additive_expression (advance q) e2 q2 →
  evals parse_simple_expression p (EBinaryExpr (category (peek_word q)) e1 e2) q2.
Proof.
  intros [n E] H [m Em]. exists (S (n + m)). cbn [parse_simple_expression].
  rewrite (bind_some _ _ _ _ _
             (evals_le parse_additive_expression n (n + m) _ _ _
                parse_additive_expression_fuel E ltac:(lia))).
  rewrite bind_run. unfold optional. rewrite (try_consume_in _ _ H). cbn [fst snd].
  rewrite (bind_some _ _ _ _ _
             (evals_le parse_additive_expression m (n + m) _ _ _
                parse_additive_expression_fuel Em ltac:(lia))).
  reflexivity.
Qed.

Lemma parse_expression_simple p e q :
  evals parse_simple_expression p e q →
  category (peek_word q) ≠ Assign →
  evals parse_expression p e q.
Proof.
  intros [n E] H. exists (S n). cbn [parse_expression].
  rewrite (bind_some _ _ _ _ _ E).
  destruct (as_var_expr e); [|reflexivity].
  rewrite bind_run. unfold optional. rewrite try_consume_not_in; [reflexivity|].
  intros Hin. apply list_elem_of_singleton in Hin. contradiction.
Qed.

Lemma parse_expression_assign p e1 q e2 q2 :
  evals parse_simple_expression p e1 q →
  is_var_ref e1 = true →
  category (peek_word q) = Assign →
  evals parse_expression (advance q) e2 q2 →
  evals parse_expression p (EBinaryExpr Assign e1 e2) q2.
Proof.
  intros [n E] Hv H [m Em]. exists (S (n + m)). cbn [parse_expression].
  rewrite (bind_some _ _ _ _ _
             (evals_le parse_simple_expression n (n + m) _ _ _
                parse_simple_expression_fuel E ltac:(lia))).
  destruct e1; try discriminate. cbn [as_var_expr].
  rewrite bind_run. unfold optional. rewrite try_consume_in; cbn [fst snd].
  - rewrite (bind_some _ _ _ _ _
               (evals_le parse_expression m (n + m) _ _ _
                  parse_expression_fuel Em ltac:(lia))).
    reflexivity.
  - rewrite H. apply list_elem_of_singleton. reflexivity.
Qed.

Lemma parse_var_plain p :
  category (peek_word p) = Identifier →
  category (peek_word (advance p)) ≠ OpenBracket →
  ∃ e p', evals parse_var p e p' ∧ cats p' = cats (advance p) ∧ is_var_ref e = true.
Proof.
  intros Hp Hb.
  destruct (act_on_var_node (peek_word p) None (advance p)) as [d Hd].
  exists (EVarRef d None), (snd (act_on_var (peek_word p) None (advance p))).
  split; [|split; [apply (cats_sema_action _) | reflexivity]].
  exists 1. cbn [parse_var].
  rewrite bind_run, (expect_and_consume_match _ _ Hp). cbn [fst snd].
  rewrite bind_get. unfold peek_is. rewrite bool_decide_eq_false_2 by exact Hb.
  unfold bind at 1, ret. unfold run. rewrite Hd. reflexivity.
Qed.

Lemma parse_var_indexed p index q :
  category (peek_word p) = Identifier →
  category (peek_word (advance p)) = OpenBracket →
  evals parse_expression (advance (advance p)) index q →
  category (peek_word q) = CloseBracket →
  ∃ e p', evals parse_var p e p' ∧ cats p' = cats (advance q) ∧ is_var_ref e = true.
Proof.
  intros Hp Hb [n E] Hq.
  destruct (act_on_var_node (peek_word p) (Some index) (advance q)) as [d Hd].
  exists (EVarRef d (Some index)),
         (snd (act_on_var (peek_word p) (Some index) (advance q))).
  split; [|split; [apply (cats_sema_action _) | reflexivity]].
  exists (S n). cbn [parse_var].
  rewrite bind_run, (expect_and_consume_match _ _ Hp). cbn [fst snd].
  rewrite bind_get. unfold peek_is. rewrite bool_decide_eq_true_2 by exact Hb.
  unfold bind at 1. rewrite bind_run. cbn [consume_word consume fst snd].
  rewrite (bind_some _ _ _ _ _ E).
  rewrite bind_run, (expect_and_consume_match _ _ Hq). cbn [fst snd ret].
  unfold run. rewrite Hd. reflexivity.
Qed.

Lemma call_args_loop_stops a q :
  category (peek_word q) = CloseParen → evals (fun n => call_args_loop n a) q a q.
Proof.
  intros H. exists 1. cbn [call_args_loop]. rewrite bind_get. unfold peek_is.
  rewrite bool_decide_eq_true_2 by exact H. reflexivity.
Qed.

Lemma call_args_loop_goes_on a q e q2 :
  category (peek_word q) = Comma →
  evals parse_expression (advance q) e q2 →
  loop_to call_args_loop a q (a ++ [e]) q2.
Proof.
  intros H [n E] r p'' [m Em]. exists (S (n + m)). cbn [call_args_loop].
  rewrite bind_get. unfold peek_is.
  rewrite bool_decide_eq_false_2 by (rewrite H; discriminate). cbn [negb].
  rewrite bind_run, (expect_and_consume_match _ _ H). cbn [fst snd].
  rewrite (bind_some _ _ _ _ _
             (evals_le parse_expression n (n + m) _ _ _ parse_expression_fuel E ltac:(lia))).
  exact (evals_le (fun k => call_args_loop k _) m (n + m) _ _ _
           (call_args_loop_fuel _) Em ltac:(lia)).
Qed.

Lemma parse_call_no_args p :
  category (peek_word p) = Identifier →
  category (peek_word (advance p)) = OpenParen →
  category (peek_word (advance (advance p))) = CloseParen →
  ∃ e p', evals parse_call p e p' ∧ cats p' = cats (advance (advance (advance p))).
Proof.
  intros Hp Ho Hc.
  destruct (act_on_call_node (peek_word p) []
              (location (peek_word (advance (advance p))))
              (advance (advance (advance p)))) as [d Hd].
  exists (EFunCall d []),
         (snd (act_on_call (peek_word p) []
                 (location (peek_word (advance (advance p))))
                 (advance (advance (advance p))))).
  split; [|apply (cats_sema_action _)].
  exists 2. cbn [parse_call].
  rewrite bind_run, (expect_and_consume_match _ _ Hp). cbn [fst snd].
  rewrite bind_run, (expect_and_consume_match _ _ Ho). cbn [fst snd].
  rewrite bind_get. unfold peek_is. rewrite bool_decide_eq_true_2 by exact Hc.
  cbn [negb]. unfold bind at 1, ret.
  assert (E1 : call_args_loop 1 [] (advance (advance p)) =
               Returns (Some []) (advance (advance p))).
  { cbn [call_args_loop]. rewrite bind_get. unfold peek_is.
    rewrite bool_decide_eq_true_2 by exact Hc. reflexivity. }
  rewrite (bind_some _ _ _ _ _ E1).
  rewrite bind_run, (expect_and_consume_match _ _ Hc). cbn [fst snd].
  unfold run. rewrite Hd. reflexivity.
Qed.

Lemma parse_call_with_args p e1 q args q' :
  category (peek_word p) = Identifier →
  category (peek_word (advance p)) = OpenParen →
  category (peek_word (advance (advance p))) ≠ CloseParen →
  evals parse_expression (advance (advance p)) e1 q →
  evals (fun n => call_args_loop n [e1]) q args q' →
  category (peek_word q') = CloseParen →
  ∃ e p', evals parse_call p e p' ∧ cats p' = cats (advance q').
Proof.
  intros Hp Ho Hc [n E] [m Em] Hq.
  destruct (act_on_call_node (peek_word p) args (location (peek_word q')) (advance q'))
    as [d Hd].
  exists (EFunCall d args),
         (snd (act_on_call (peek_word p) args (location (peek_word q')) (advance q'))).
  split; [|apply (cats_sema_action _)].
  exists (S (n + m)). cbn [parse_call].
  rewrite bind_run, (expect_and_consume_match _ _ Hp). cbn [fst snd].
  rewrite bind_run, (expect_and_consume_match _ _ Ho). cbn [fst snd].
  rewrite bind_get. unfold peek_is. rewrite bool_decide_eq_false_2 by exact Hc.
  cbn [negb]. unfold bind at 1.
  rewrite (bind_some _ _ _ _ _
             (evals_le parse_expression n (n + m) _ _ _ parse_expression_fuel E ltac:(lia))).
  cbn [ret].
  rewrite (bind_some _ _ _ _ _
             (evals_le (fun k => call_args_loop k _) m (n + m) _ _ _
                (call_args_loop_fuel _) Em ltac:(lia))).
  rewrite bind_run, (expect_and_consume_match _ _ Hq). cbn [fst snd].
  unfold run. rewrite Hd. reflexivity.
Qed.

(** *** The follow sets *)

Ltac unfold_follow :=
  cbv [follow_expression follow_simple follow_additive follow_term follow_factor
       follow_var app] in *.

Ltac sub_list :=
  let c := fresh "c" in
  let Hc := fresh "Hc" in
  intros c Hc; unfold_follow;
  repeat (apply elem_of_cons in Hc as [->|Hc]; [in_list|]);
  apply elem_of_nil in Hc; contradiction.

Lemma next_not_weaken l l' rest :
  (∀ c, c ∈ l' → c ∈ l) → next_not l rest → next_not l' rest.
Proof.
  intros Hs. destruct rest as [|c r]; [auto|]. cbn [next_not].
  intros Hn Hin. apply Hn, Hs, Hin.
Qed.

Lemma next_not_nil rest : next_not [] rest.
Proof. destruct rest; cbn [next_not]; [exact I | apply not_elem_of_nil]. Qed.

Lemma peek_next_not p l rest :
  cats p = rest → next_not l rest → Eof ∉ l → category (peek_word p) ∉ l.
Proof. apply cats_next_not. Qed.

Lemma peek_next_not_one p l rest c :
  cats p = rest → next_not l rest → Eof ∉ l → c ∈ l → category (peek_word p) ≠ c.
Proof.
  intros E Hn He Hc Heq. apply (cats_next_not p l rest E Hn He). rewrite Heq. exact Hc.
Qed.

Ltac no_eof := unfold_follow; not_in_list.

(** From the loop of a left-recursive production to the production. *)
Lemma term_complete cs :
  accepts_loop parse_factor term_loop follow_factor cs →
  accepts parse_term follow_term cs.
Proof.
  intros H p rest Hp Hn.
  destruct (H p rest Hp) as (e1 & q & e & q' & Ef & Hloop & Hq').
  { revert Hn. apply next_not_weaken. sub_list. }
  exists e, q'. split; [|exact Hq'].
  apply (parse_term_runs p e1 q e q' Ef), Hloop, term_loop_stops.
  eapply not_in_sublist; [exact (peek_next_not _ _ _ Hq' Hn ltac:(no_eof))|].
  sub_list.
Qed.

Lemma additive_complete cs :
  accepts_loop parse_term additive_loop follow_term cs →
  accepts parse_additive_expression follow_additive cs.
Proof.
  intros H p rest Hp Hn.
  destruct (H p rest Hp) as (e1 & q & e & q' & Ef & Hloop & Hq').
  { revert Hn. apply next_not_weaken. sub_list. }
  exists e, q'. split; [|exact Hq'].
  apply (parse_additive_expression_runs p e1 q e q' Ef), Hloop, additive_loop_stops.
  eapply not_in_sublist; [exact (peek_next_not _ _ _ Hq' Hn ltac:(no_eof))|].
  sub_list.
Qed.

Ltac normalize_cats H :=
  repeat (cbn [app] in H; rewrite <- app_assoc in H); cbn [app] in H.

Ltac op_cases H :=
  repeat (apply elem_of_cons in H as [->|H]);
  [ .. | apply elem_of_nil in H; contradiction ].

Lemma in_list_not_in (c : Category) (l l' : list Category) :
  c ∈ l → (∀ x, x ∈ l → x ∉ l') → c ∉ l'.
Proof. intros H Hd. exact (Hd c H). Qed.

Lemma derives_expression_complete nt cs :
  Grammar.derives nt cs → expression_complete nt cs.
Proof.
  induction 1; cbn [expression_complete] in *; try exact I.
  - (* <expression> ::= <var> = <expression> *)
    destruct IHderives1 as [Hv Hshape]. intros p rest Hp Hn. normalize_cats Hp.
    destruct (Hv p _ Hp) as (xv & q & Ev & Hq); [cbn; no_eof|].
    destruct (IHderives2 (advance q) rest (cats_advance _ _ _ Hq) Hn)
      as (x2 & q2 & E2 & Hq2).
    assert (Hpeek : category (peek_word q) = Assign) by exact (cats_peek _ _ _ Hq).
    assert (Hvar : is_var_ref xv = true).
    { destruct Ev as [n Ev]. exact (proj2 (parse_var_success n p xv q Ev)). }
    assert (Ef : evals parse_factor p xv q).
    { destruct Hshape as [-> | [l0 ->]]; cbn [app] in Hp.
      - apply parse_factor_of_var; [exact (cats_peek _ _ _ Hp) | | exact Ev].
        rewrite (cats_lookahead_1 _ _ _ _ Hp). discriminate.
      - apply parse_factor_of_var; [exact (cats_peek _ _ _ Hp) | | exact Ev].
        rewrite (cats_lookahead_1 _ _ _ _ Hp). discriminate. }
    exists (EBinaryExpr Assign xv x2), q2. split; [|exact Hq2].
    apply (parse_expression_assign p xv q x2 q2); try assumption.
    apply parse_simple_expression_alone; [|rewrite Hpeek; not_in_list].
    apply (parse_additive_expression_runs p xv q);
      [|apply additive_loop_stops; rewrite Hpeek; not_in_list].
    apply (parse_term_runs p xv q); [exact Ef|].
    apply term_loop_stops. rewrite Hpeek. not_in_list.
  - (* <expression> ::= <simple-expression> *)
    intros p rest Hp Hn.
    destruct (IHderives p rest Hp) as (x1 & q & E1 & Hq).
    { revert Hn. apply next_not_weaken. sub_list. }
    exists x1, q. split; [|exact Hq].
    apply parse_expression_simple; [exact E1|].
    apply (peek_next_not_one q _ rest Assign Hq Hn); [no_eof | unfold_follow; in_list].
  - (* <var> ::= ID *)
    split; [|left; reflexivity]. intros p rest Hp Hn. cbn [app] in Hp.
    destruct (parse_var_plain p (cats_peek _ _ _ Hp)) as (x & p' & E & Hp' & _).
    { apply (peek_next_not_one _ _ rest OpenBracket (cats_advance _ _ _ Hp) Hn);
        [no_eof | unfold_follow; in_list]. }
    exists x, p'. split; [exact E|]. rewrite Hp'. exact (cats_advance _ _ _ Hp).
  - (* <var> ::= ID [ <expression> ] *)
    split; [|right; eexists; reflexivity]. intros p rest Hp Hn. normalize_cats Hp.
    pose proof (cats_advance _ _ _ Hp) as Hp1.
    pose proof (cats_advance _ _ _ Hp1) as Hp2.
    destruct (IHderives _ _ Hp2) as (xi & q & Ei & Hq); [cbn; no_eof|].
    destruct (parse_var_indexed p xi q (cats_peek _ _ _ Hp) (cats_peek _ _ _ Hp1) Ei
                (cats_peek _ _ _ Hq)) as (x & p' & E & Hp' & _).
    exists x, p'. split; [exact E|]. rewrite Hp'. exact (cats_advance _ _ _ Hq).
  - (* <simple-expression> ::= <additive-expression> <relop> <additive-expression> *)
    destruct IHderives2 as (o & -> & Hc).
    apply additive_complete in IHderives1. apply additive_complete in IHderives3.
    intros p rest Hp Hn. normalize_cats Hp.
    destruct (IHderives1 p _ Hp) as (x1 & q & E1 & Hq).
    { cbn. clear - Hc. op_cases Hc; no_eof. }
    destruct (IHderives3 (advance q) rest (cats_advance _ _ _ Hq)) as (x2 & q2 & E2 & Hq2).
    { revert Hn. apply next_not_weaken. sub_list. }
    eexists _, q2. split; [|exact Hq2].
    apply (parse_simple_expression_relational p x1 q x2 q2 E1); [|exact E2].
    rewrite (cats_peek _ _ _ Hq). exact Hc.
  - (* <simple-expression> ::= <additive-expression> *)
    apply additive_complete in IHderives.
    intros p rest Hp Hn.
    destruct (IHderives p rest Hp) as (x1 & q & E1 & Hq).
    { revert Hn. apply next_not_weaken. sub_list. }
    exists x1, q. split; [|exact Hq].
    apply parse_simple_expression_alone; [exact E1|].
    eapply not_in_sublist; [exact (peek_next_not _ _ _ Hq Hn ltac:(no_eof))|].
    sub_list.
  - eexists. split; [reflexivity|in_list].
  - eexists. split; [reflexivity|in_list].
  - eexists. split; [reflexivity|in_list].
  - eexists. split; [reflexivity|in_list].
  - eexists. split; [reflexivity|in_list].
  - eexists. split; [reflexivity|in_list].
  - (* <additive-expression> ::= <additive-expression> <addop> <term> *)
    destruct IHderives2 as (o & -> & Hc).
    apply term_complete in IHderives3.
    intros p rest Hp Hn. normalize_cats Hp.
    destruct (IHderives1 p _ Hp) as (x1 & q & x & q' & E1 & Hloop & Hq').
    { cbn. clear - Hc. op_cases Hc; no_eof. }
    destruct (IHderives3 (advance q') rest (cats_advance _ _ _ Hq') Hn)
      as (x2 & q2 & E2 & Hq2).
    exists x1, q, (EBinaryExpr (category (peek_word q')) x x2), q2.
    split; [exact E1|]. split; [|exact Hq2].
    apply (loop_to_trans _ _ _ _ _ _ _ Hloop).
    apply additive_loop_goes_on; [|exact E2].
    rewrite (cats_peek _ _ _ Hq'). exact Hc.
  - (* <additive-expression> ::= <term> *)
    apply term_complete in IHderives.
    intros p rest Hp Hn.
    destruct (IHderives p rest Hp Hn) as (x & q & E & Hq).
    exists x, q, x, q. split; [exact E|]. split; [apply loop_to_refl | exact Hq].
  - eexists. split; [reflexivity|in_list].
  - eexists. split; [reflexivity|in_list].
  - (* <term> ::= <term> <mulop> <factor> *)
    destruct IHderives2 as (o & -> & Hc).
    intros p rest Hp Hn. normalize_cats Hp.
    destruct (IHderives1 p _ Hp) as (x1 & q & x & q' & E1 & Hloop & Hq').
    { cbn. clear - Hc. op_cases Hc; no_eof. }
    destruct (IHderives3 (advance q') rest (cats_advance _ _ _ Hq') Hn)
      as (x2 & q2 & E2 & Hq2).
    exists x1, q, (EBinaryExpr (category (peek_word q')) x x2), q2.
    split; [exact E1|]. split; [|exact Hq2].
    apply (loop_to_trans _ _ _ _ _ _ _ Hloop).
    apply term_loop_goes_on; [|exact E2].
    rewrite (cats_peek _ _ _ Hq'). exact Hc.
  - (* <term> ::= <factor> *)
    intros p rest Hp Hn.
    destruct (IHderives p rest Hp Hn) as (x & q & E & Hq).
    exists x, q, x, q. split; [exact E|]. split; [apply loop_to_refl | exact Hq].
  - eexists. split; [reflexivity|in_list].
  - eexists. split; [reflexivity|in_list].
  - (* <factor> ::= ( <expression> ) *)
    intros p rest Hp Hn. normalize_cats Hp.
    destruct (IHderives _ _ (cats_advance _ _ _ Hp)) as (x & q & E & Hq); [cbn; no_eof|].
    exists x, (advance q). split; [|exact (cats_advance _ _ _ Hq)].
    exact (parse_factor_parenthesized p x q (cats_peek _ _ _ Hp) E (cats_peek _ _ _ Hq)).
  - (* <factor> ::= <var> *)
    destruct IHderives as [Hv Hshape]. intros p rest Hp Hn.
    destruct (Hv p rest Hp) as (x & q & E & Hq).
    { revert Hn. apply next_not_weaken. sub_list. }
    exists x, q. split; [|exact Hq].
    destruct Hshape as [-> | [l0 ->]]; cbn [app] in Hp.
    + apply parse_factor_of_var; [exact (cats_peek _ _ _ Hp) | | exact E].
      rewrite <- (lookahead_advance 0 p).
      apply (peek_next_not_one _ _ rest OpenParen (cats_advance _ _ _ Hp) Hn);
        [no_eof | unfold_follow; in_list].
    + apply parse_factor_of_var; [exact (cats_peek _ _ _ Hp) | | exact E].
      rewrite (cats_lookahead_1 _ _ _ _ Hp). discriminate.
  - (* <factor> ::= <call> *)
    destruct IHderives as [Hc [l0 ->]]. intros p rest Hp Hn.
    destruct (Hc p rest Hp (next_not_nil _)) as (x & q & E & Hq).
    exists x, q. split; [|exact Hq].
    cbn [app] in Hp.
    apply parse_factor_of_call; [exact (cats_peek _ _ _ Hp) | | exact E].
    exact (cats_lookahead_1 _ _ _ _ Hp).
  - (* <factor> ::= NUM *)
    intros p rest Hp Hn. exact (parse_factor_number p rest Hp).
  - (* <call> ::= ID ( <xs> ) *)
    split; [exact IHderives | eexists; reflexivity].
  - (* <xs> ::= <arg-list> *)
    intros p rest Hp _. normalize_cats Hp.
    pose proof (cats_advance _ _ _ Hp) as Hp1.
    pose proof (cats_advance _ _ _ Hp1) as Hp2.
    destruct (IHderives _ _ Hp2) as (x1 & q & xs & q' & E1 & Hloop & Hq'); [cbn; no_eof|].
    destruct (parse_call_with_args p x1 q xs q' (cats_peek _ _ _ Hp) (cats_peek _ _ _ Hp1))
      as (x & p' & E & Hp'); try assumption.
    + destruct E1 as [n E1]. pose proof (parse_expression_starts n _ _ _ E1) as Hin.
      intros Heq. rewrite Heq in Hin. revert Hin. not_in_list.
    + apply Hloop, call_args_loop_stops. exact (cats_peek _ _ _ Hq').
    + exact (cats_peek _ _ _ Hq').
    + exists x, p'. split; [exact E|]. rewrite Hp'. exact (cats_advance _ _ _ Hq').
  - (* <xs> ::= empty *)
    intros p rest Hp _. cbn [app] in Hp.
    pose proof (cats_advance _ _ _ Hp) as Hp1.
    pose proof (cats_advance _ _ _ Hp1) as Hp2.
    destruct (parse_call_no_args p (cats_peek _ _ _ Hp) (cats_peek _ _ _ Hp1)
                (cats_peek _ _ _ Hp2)) as (x & p' & E & Hp').
    exists x, p'. split; [exact E|]. rewrite Hp'. exact (cats_advance _ _ _ Hp2).
  - (* <arg-list> ::= <arg-list> , <expression> *)
    intros p rest Hp Hn. normalize_cats Hp.
    destruct (IHderives1 p _ Hp) as (x1 & q & xs & q' & E1 & Hloop & Hq'); [cbn; no_eof|].
    destruct (IHderives2 (advance q') rest (cats_advance _ _ _ Hq') Hn)
      as (x2 & q2 & E2 & Hq2).
    exists x1, q, (xs ++ [x2]), q2. split; [exact E1|]. split; [|exact Hq2].
    apply (loop_to_trans _ _ _ _ _ _ _ Hloop).
    apply call_args_loop_goes_on; [exact (cats_peek _ _ _ Hq') | exact E2].
  - (* <arg-list> ::= <expression> *)
    intros p rest Hp Hn.
    destruct (IHderives p rest Hp Hn) as (x & q & E & Hq).
    exists x, q, [x], q. split; [exact E|]. split; [apply loop_to_refl | exact Hq].
Qed.

(** *** Running the productions of the statements forward *)

Lemma parse_statement_fuel n : refines (parse_statement n) (parse_statement (S n)).
Proof. apply statement_fuel. Qed.

Lemma statement_list_fuel s n : refines (statement_list n s) (statement_list (S n) s).
Proof. apply statement_fuel. Qed.

Lemma parse_selection_stmt_fuel n :
  refines (parse_selection_stmt n) (parse_selection_stmt (S n)).
Proof. apply statement_fuel. Qed.

Lemma parse_iteration_stmt_fuel n :
  refines (parse_iteration_stmt n) (parse_iteration_stmt (S n)).
Proof. apply statement_fuel. Qed.

Lemma compound_stmt_fuel f n :
  refines (parse_compound_stmt n f) (parse_compound_stmt (S n) f).
Proof. apply statement_fuel. Qed.

Lemma local_declarations_loop_fuel d n :
  refines (local_declarations n d) (local_declarations (S n) d).
Proof. apply local_declarations_fuel. Qed.

Lemma parse_statement_null p :
  category (peek_word p) = Semicolon →
  evals parse_statement p NullStmt (advance p).
Proof.
  intros H. exists 1. cbn [parse_statement]. rewrite bind_get, H.
  unfold parse_expr_stmt. rewrite bind_run. unfold optional.
  rewrite try_consume_in by (rewrite H; in_list). reflexivity.
Qed.

Lemma parse_statement_expression p e q :
  evals parse_expression p e q →
  category (peek_word q) = Semicolon →
  evals parse_statement p (ExprStmt e) (advance q).
Proof.
  intros [n E] Hq. pose proof (parse_expression_starts n _ _ _ E) as Hin.
  exists (S n). cbn [parse_statement]. rewrite bind_get.
  assert (Hstmt : parse_expr_stmt n p = Returns (Some (ExprStmt e)) (advance q)).
  { unfold parse_expr_stmt. rewrite bind_run. unfold optional.
    rewrite try_consume_not_in.
    - cbn [fst snd]. rewrite (bind_some _ _ _ _ _ E).
      rewrite bind_run, (expect_and_consume_match _ _ Hq). reflexivity.
    - intros Hs. apply list_elem_of_singleton in Hs. rewrite Hs in Hin.
      revert Hin. not_in_list. }
  op_cases Hin; exact Hstmt.
Qed.

Lemma parse_statement_return p :
  category (peek_word p) = Return →
  category (peek_word (advance p)) = Semicolon →
  ∃ s, evals parse_statement p s (advance (advance p)).
Proof.
  intros H Hs. eexists. exists 1. cbn [parse_statement]. rewrite bind_get, H.
  unfold parse_return_stmt.
  rewrite bind_run, (expect_and_consume_match _ _ H). cbn [fst snd].
  rewrite bind_run. unfold optional.
  rewrite try_consume_in by (rewrite Hs; in_list). reflexivity.
Qed.

Lemma parse_statement_return_value p e q :
  category (peek_word p) = Return →
  evals parse_expression (advance p) e q →
  category (peek_word q) = Semicolon →
  ∃ s, evals parse_statement p s (advance q).
Proof.
  intros H [n E] Hq. pose proof (parse_expression_starts n _ _ _ E) as Hin.
  eexists. exists (S n). cbn [parse_statement]. rewrite bind_get, H.
  unfold parse_return_stmt.
  rewrite bind_run, (expect_and_consume_match _ _ H). cbn [fst snd].
  rewrite bind_run. unfold optional. rewrite try_consume_not_in.
  - cbn [fst snd]. rewrite (bind_some _ _ _ _ _ E).
    rewrite bind_run, (expect_and_consume_match _ _ Hq). reflexivity.
  - intros Hs. apply list_elem_of_singleton in Hs. rewrite Hs in Hin.
    revert Hin. not_in_list.
Qed.

Lemma parse_statement_while p e q s q2 :
  category (peek_word p) = While →
  category (peek_word (advance p)) = OpenParen →
  evals parse_expression (advance (advance p)) e q →
  category (peek_word q) = CloseParen →
  evals parse_statement (advance q) s q2 →
  evals parse_statement p (IterationStmt e s) q2.
Proof.
  intros H Ho [n E] Hq [m Em]. exists (S (S (n + m))).
  cbn [parse_statement]. rewrite bind_get, H. cbn [parse_iteration_stmt].
  rewrite bind_run, (expect_and_consume_match _ _ H). cbn [fst snd].
  rewrite bind_run, (expect_and_consume_match _ _ Ho). cbn [fst snd].
  rewrite (bind_some _ _ _ _ _
             (evals_le parse_expression n (n + m) _ _ _ parse_expression_fuel E ltac:(lia))).
  rewrite bind_run, (expect_and_consume_match _ _ Hq). cbn [fst snd].
  rewrite (bind_some _ _ _ _ _
             (evals_le parse_statement m (n + m) _ _ _ parse_statement_fuel Em ltac:(lia))).
  reflexivity.
Qed.

Lemma parse_statement_if p e q s q2 :
  category (peek_word p) = If →
  category (peek_word (advance p)) = OpenParen →
  evals parse_expression (advance (advance p)) e q →
  category (peek_word q) = CloseParen →
  evals parse_statement (advance q) s q2 →
  category (peek_word q2) ≠ Else →
  evals parse_statement p (SelectionStmt e s None) q2.
Proof.
  intros H Ho [n E] Hq [m Em] Hn. exists (S (S (n + m))).
  cbn [parse_statement]. rewrite bind_get, H. cbn [parse_selection_stmt].
  rewrite bind_run, (expect_and_consume_match _ _ H). cbn [fst snd].
  rewrite bind_run, (expect_and_consume_match _ _ Ho). cbn [fst snd].
  rewrite (bind_some _ _ _ _ _
             (evals_le parse_expression n (n + m) _ _ _ parse_expression_fuel E ltac:(lia))).
  rewrite bind_run, (expect_and_consume_match _ _ Hq). cbn [fst snd].
  rewrite (bind_some _ _ _ _ _
             (evals_le parse_statement m (n + m) _ _ _ parse_statement_fuel Em ltac:(lia))).
  rewrite bind_run. unfold optional. rewrite try_consume_not_in; [reflexivity|].
  intros Hin. apply list_elem_of_singleton in Hin. contradiction.
Qed.

Lemma parse_statement_if_else p e q s q2 s2 q3 :
  category (peek_word p) = If →
  category (peek_word (advance p)) = OpenParen →
  evals parse_expression (advance (advance p)) e q →
  category (peek_word q) = CloseParen →
  evals parse_statement (advance q) s q2 →
  category (peek_word q2) = Else →
  evals parse_statement (advance q2) s2 q3 →
  evals parse_statement p (SelectionStmt e s (Some s2)) q3.
Proof.
  intros H Ho [n E] Hq [m Em] He [k Ek]. exists (S (S (n + m + k))).
  cbn [parse_statement]. rewrite bind_get, H. cbn [parse_selection_stmt].
  rewrite bind_run, (expect_and_consume_match _ _ H). cbn [fst snd].
  rewrite bind_run, (expect_and_consume_match _ _ Ho). cbn [fst snd].
  rewrite (bind_some _ _ _ _ _
             (evals_le parse_expression n (n + m + k) _ _ _ parse_expression_fuel E
                ltac:(lia))).
  rewrite bind_run, (expect_and_consume_match _ _ Hq). cbn [fst snd].
  rewrite (bind_some _ _ _ _ _
             (evals_le parse_statement m (n + m + k) _ _ _ parse_statement_fuel Em
                ltac:(lia))).
  rewrite bind_run. unfold optional.
  rewrite try_consume_in by (rewrite He; in_list). cbn [fst snd].
  rewrite (bind_some _ _ _ _ _
             (evals_le parse_statement k (n + m + k) _ _ _ parse_statement_fuel Ek
                ltac:(lia))).
  reflexivity.
Qed.

Lemma local_declarations_stops decls q :
  category (peek_word q) ∉ [Void; Int] →
  evals (fun n => local_declarations n decls) q decls q.
Proof.
  intros H. exists 1. cbn [local_declarations]. rewrite bind_get. unfold peek_is.
  rewrite !bool_decide_eq_false_2; [reflexivity| |];
    intros Heq; apply H; rewrite Heq; in_list.
Qed.

Lemma local_declarations_goes_on decls q d q2 :
  category (peek_word q) ∈ [Void; Int] →
  parse_var_declaration q = Returns (Some d) q2 →
  loop_to local_declarations decls q (decls ++ [d]) q2.
Proof.
  intros H E r p'' [m Em]. exists (S m). cbn [local_declarations].
  rewrite bind_get.
  assert (Hb : peek_is Void q || peek_is Int q = true).
  { unfold peek_is. op_cases H.
    - rewrite bool_decide_eq_true_2 by reflexivity. reflexivity.
    - rewrite (bool_decide_eq_true_2 (Int = Int)) by reflexivity. apply orb_true_r. }
  rewrite Hb, (bind_some _ _ _ _ _ E). exact Em.
Qed.

Lemma statement_list_stops stms q :
  category (peek_word q) = CloseCurly →
  evals (fun n => statement_list n stms) q stms q.
Proof.
  intros H. exists 1. cbn [statement_list]. rewrite bind_get. unfold peek_is.
  rewrite bool_decide_eq_true_2 by exact H. reflexivity.
Qed.

Lemma statement_list_goes_on stms q s q2 :
  category (peek_word q) ≠ CloseCurly →
  evals parse_statement q s q2 →
  loop_to statement_list stms q (stms ++ [s]) q2.
Proof.
  intros H [n E] r p'' [m Em]. exists (S (n + m)). cbn [statement_list].
  rewrite bind_get. unfold peek_is. rewrite bool_decide_eq_false_2 by exact H.
  cbn [negb].
  rewrite (bind_some _ _ _ _ _
             (evals_le parse_statement n (n + m) _ _ _ parse_statement_fuel E ltac:(lia))).
  exact (evals_le (fun k => statement_list k _) m (n + m) _ _ _
           (statement_list_fuel _) Em ltac:(lia)).
Qed.

Lemma parse_compound_stmt_runs f p decls q stms q' :
  category (peek_word p) = OpenCurly →
  evals (fun n => local_declarations n []) (enter_scope f (advance p)) decls q →
  evals (fun n => statement_list n []) q stms q' →
  evals (fun n => parse_compound_stmt n f) p (CompoundStmt decls stms)
        (leave_scope (advance q')).
Proof.
  intros H [n E] [m Em]. exists (S (n + m)). cbn [parse_compound_stmt].
  rewrite bind_run, (expect_and_consume_match _ _ H). cbn [fst snd].
  unfold with_scope.
  rewrite (bind_some _ _ _ _ _
             (evals_le (fun k => local_declarations k _) n (n + m) _ _ _
                (local_declarations_loop_fuel _) E ltac:(lia))).
  rewrite (bind_some _ _ _ _ _
             (evals_le (fun k => statement_list k _) m (n + m) _ _ _
                (statement_list_fuel _) Em ltac:(lia))).
  rewrite bind_run. cbn [consume_word consume fst snd]. reflexivity.
Qed.

Lemma parse_statement_compound p s q :
  category (peek_word p) = OpenCurly →
  evals (fun n => parse_compound_stmt n CompoundStmtFlag) p s q →
  evals parse_statement p s q.
Proof.
  intros H [n E]. exists (S n). cbn [parse_statement]. rewrite bind_get, H. exact E.
Qed.

(** *** The first word of a derivation *)

Lemma starts_app l a b : starts l a → starts l (a ++ b).
Proof. intros (c & r & -> & Hc). exists c, (r ++ b). split; [reflexivity|exact Hc]. Qed.

Lemma starts_sub l l' cs : (∀ c, c ∈ l → c ∈ l') → starts l cs → starts l' cs.
Proof. intros Hs (c & r & -> & Hc). exists c, r. split; [reflexivity|exact (Hs c Hc)]. Qed.

Lemma starts_cons (l : list Category) c r : c ∈ l → starts l (c :: r).
Proof. intros Hc. exists c, r. split; [reflexivity|exact Hc]. Qed.

Lemma starts_app_nullable l a b : a = [] ∨ starts l a → starts l b → starts l (a ++ b).
Proof. intros [-> | Ha] Hb; [exact Hb | exact (starts_app l a b Ha)]. Qed.

Ltac first_sub :=
  let c := fresh "c" in
  let Hc := fresh "Hc" in
  intros c Hc; cbv [first_statement first_expression first_declaration] in *;
  repeat (apply elem_of_cons in Hc as [->|Hc]; [in_list|]);
  apply elem_of_nil in Hc; contradiction.

Lemma derives_grammar_first nt cs : Grammar.derives nt cs → grammar_first nt cs.
Proof.
  induction 1; cbn [grammar_first] in *; try exact I; try assumption;
    try (apply starts_app; assumption);
    try (apply starts_cons; cbv [first_statement first_expression first_declaration];
         in_list; fail);
    try (right; apply starts_app_nullable; assumption);
    try (left; reflexivity);
    try (right; assumption).
  all: try (apply starts_app; revert IHderives; apply starts_sub; first_sub).
Qed.

(** *** Declarations of variables *)

Lemma expect_and_consume_type_match p :
  category (peek_word p) ∈ [Void; Int] →
  expect_and_consume_type p = (Some (peek_word p), advance p).
Proof.
  intros H. destruct (expect_and_consume_type_cases p) as [[_ E] | [Hn _]];
    [exact E | contradiction].
Qed.

Lemma derives_type_specifier_inv t :
  Grammar.derives Grammar.type_specifier t → ∃ c, t = [c] ∧ c ∈ [Void; Int].
Proof. intros H. inversion H; subst; eexists; (split; [reflexivity|in_list]). Qed.

Lemma parse_var_declaration_plain p c rest :
  cats p = c :: Identifier :: Semicolon :: rest → c ∈ [Void; Int] →
  ∃ d p', parse_var_declaration p = Returns (Some d) p' ∧ cats p' = rest.
Proof.
  intros Hp Hc.
  pose proof (cats_advance _ _ _ Hp) as Hp1.
  pose proof (cats_advance _ _ _ Hp1) as Hp2.
  destruct (run_action (act_on_var_decl (peek_word p) (peek_word (advance p)) None)
              (advance (advance (advance p)))) as [d Hd].
  eexists d, _. split.
  - unfold parse_var_declaration.
    rewrite bind_run, expect_and_consume_type_match
      by (rewrite (cats_peek _ _ _ Hp); exact Hc).
    cbn [fst snd].
    rewrite bind_run, (expect_and_consume_match _ _ (cats_peek _ _ _ Hp1)).
    cbn [fst snd]. rewrite bind_get. unfold peek_is.
    rewrite bool_decide_eq_false_2 by (rewrite (cats_peek _ _ _ Hp2); discriminate).
    unfold bind at 1, ret.
    rewrite bind_run, (expect_and_consume_match _ _ (cats_peek _ _ _ Hp2)).
    cbn [fst snd]. exact Hd.
  - rewrite (cats_sema_action _). exact (cats_advance _ _ _ Hp2).
Qed.

Lemma parse_var_declaration_array p c rest :
  cats p = c :: Identifier :: OpenBracket :: Number :: CloseBracket :: Semicolon :: rest →
  c ∈ [Void; Int] →
  ∃ d p', parse_var_declaration p = Returns (Some d) p' ∧ cats p' = rest.
Proof.
  intros Hp Hc.
  pose proof (cats_advance _ _ _ Hp) as Hp1.
  pose proof (cats_advance _ _ _ Hp1) as Hp2.
  pose proof (cats_advance _ _ _ Hp2) as Hp3.
  destruct (parse_number_accepts _ _ Hp3) as (num & q & En & Hq).
  pose proof (cats_advance _ _ _ Hq) as Hq1.
  destruct (run_action (act_on_var_decl (peek_word p) (peek_word (advance p)) (Some num))
              (advance (advance q))) as [d Hd].
  eexists d, _. split.
  - unfold parse_var_declaration.
    rewrite bind_run, expect_and_consume_type_match
      by (rewrite (cats_peek _ _ _ Hp); exact Hc).
    cbn [fst snd].
    rewrite bind_run, (expect_and_consume_match _ _ (cats_peek _ _ _ Hp1)).
    cbn [fst snd]. rewrite bind_get. unfold peek_is.
    rewrite bool_decide_eq_true_2 by exact (cats_peek _ _ _ Hp2).
    unfold bind at 1. rewrite bind_run. cbn [consume_word consume fst snd].
    rewrite (bind_some _ _ _ _ _ En).
    rewrite bind_run, (expect_and_consume_match _ _ (cats_peek _ _ _ Hq)).
    cbn [fst snd ret].
    rewrite bind_run, (expect_and_consume_match _ _ (cats_peek _ _ _ Hq1)).
    cbn [fst snd]. exact Hd.
  - rewrite (cats_sema_action _). exact (cats_advance _ _ _ Hq1).
Qed.

Lemma var_declaration_complete d :
  Grammar.derives Grammar.var_declaration d →
  ∀ p rest, cats p = d ++ rest →
    ∃ x p', parse_var_declaration p = Returns (Some x) p' ∧ cats p' = rest.
Proof.
  intros H p rest Hp. inversion H; subst;
    match goal with
    | Ht : Grammar.derives Grammar.type_specifier _ |- _ =>
        apply derives_type_specifier_inv in Ht as (c & -> & Hc)
    end; cbn [app] in Hp.
  - exact (parse_var_declaration_plain p c rest Hp Hc).
  - exact (parse_var_declaration_array p c rest Hp Hc).
Qed.

Lemma local_declarations_complete nt ds :
  Grammar.derives nt ds → nt = Grammar.local_declarations →
  ∀ p rest decls, cats p = ds ++ rest →
    ∃ decls' q', loop_to local_declarations decls p decls' q' ∧ cats q' = rest.
Proof.
  induction 1; intros Hnt; try discriminate; intros p0 rest decls Hp.
  - rewrite <- app_assoc in Hp.
    destruct (IHderives1 eq_refl p0 _ decls Hp) as (decls1 & q1 & Hloop & Hq1).
    destruct (var_declaration_complete _ H0 q1 rest Hq1) as (x & q2 & Ex & Hq2).
    exists (decls1 ++ [x]), q2. split; [|exact Hq2].
    apply (loop_to_trans _ _ _ _ _ _ _ Hloop).
    apply local_declarations_goes_on; [|exact Ex].
    destruct (derives_grammar_first _ _ H0) as (c & r & -> & Hc).
    rewrite (cats_peek _ _ _ Hq1). exact Hc.
  - exists decls, p0. split; [apply loop_to_refl | exact Hp].
Qed.

(** *** Statements *)

Lemma flat_cons c clauses : flat (c :: clauses) = Else :: c ++ flat clauses.
Proof. reflexivity. Qed.

Lemma next_not_starts l l' cs rest :
  starts l cs → (∀ c, c ∈ l → c ∉ l') → next_not l' (cs ++ rest).
Proof. intros (c & r & -> & Hc) Hd. cbn. exact (Hd c Hc). Qed.

Ltac disjoint_lists :=
  let c := fresh "c" in
  let Hc := fresh "Hc" in
  intros c Hc; cbv [first_statement first_expression first_declaration] in Hc;
  unfold_follow;
  repeat (apply elem_of_cons in Hc as [->|Hc]; [not_in_list|]);
  apply elem_of_nil in Hc; contradiction.

Lemma statement_list_complete N nt ss :
  statements_accepted N →
  Grammar.derives nt ss → nt = Grammar.statement_list → length ss < N →
  ∀ p rest stms, cats p = ss ++ rest → next_not [Else] rest →
    ∃ stms' q', loop_to statement_list stms p stms' q' ∧ cats q' = rest.
Proof.
  intros Hacc. induction 1; intros Hnt; try discriminate;
    intros Hlen p0 rest stms Hp Hn.
  - rewrite length_app in Hlen. rewrite <- app_assoc in Hp.
    pose proof (derives_grammar_first _ _ H0) as Hfirst. cbn in Hfirst.
    destruct (IHderives1 eq_refl ltac:(lia) p0 _ stms Hp) as (stms1 & q1 & Hloop & Hq1).
    { apply (next_not_starts _ _ _ _ Hfirst). disjoint_lists. }
    destruct (Hacc s [] rest q1) as (x & q2 & k & Ex & Hq2);
      [cbn; lia | exact H0 | constructor | exact Hn | exact Hq1 |].
    rewrite drop_nil in Hq2. cbn in Hq2.
    exists (stms1 ++ [x]), q2. split; [|exact Hq2].
    apply (loop_to_trans _ _ _ _ _ _ _ Hloop).
    apply statement_list_goes_on; [|exact Ex].
    destruct Hfirst as (c & r & -> & Hc). rewrite (cats_peek _ _ _ Hq1).
    intros ->. revert Hc. cbv [first_statement]. not_in_list.
  - exists stms, p0. split; [apply loop_to_refl | exact Hp].
Qed.

Lemma compound_stmt_complete N f ds ss :
  statements_accepted N →
  Grammar.derives Grammar.local_declarations ds →
  Grammar.derives Grammar.statement_list ss →
  length ss < N →
  ∀ p rest, cats p = OpenCurly :: ds ++ ss ++ CloseCurly :: rest →
    ∃ s p', evals (fun n => parse_compound_stmt n f) p s p' ∧ cats p' = rest.
Proof.
  intros Hacc Hds Hss Hlen p rest Hp.
  pose proof (cats_advance _ _ _ Hp) as Hp1.
  destruct (local_declarations_complete _ _ Hds eq_refl (enter_scope f (advance p)) _ []
              Hp1) as (decls & q & Hdecls & Hq).
  destruct (statement_list_complete N _ _ Hacc Hss eq_refl Hlen q _ [] Hq)
    as (stms & q' & Hstms & Hq'); [cbn; not_in_list|].
  exists (CompoundStmt decls stms), (leave_scope (advance q')).
  split; [|exact (cats_advance _ _ _ Hq')].
  apply (parse_compound_stmt_runs f p decls q stms q' (cats_peek _ _ _ Hp)).
  - apply Hdecls, local_declarations_stops.
    pose proof (derives_grammar_first _ _ Hss) as [-> | (c & r & -> & Hc)];
      cbn [app] in Hq; rewrite (cats_peek _ _ _ Hq); [not_in_list|].
    revert Hc. generalize c. disjoint_lists.
  - apply Hstms, statement_list_stops. exact (cats_peek _ _ _ Hq').
Qed.

Lemma flat_app a b : flat (a ++ b) = flat a ++ flat b.
Proof. unfold flat. rewrite map_app, concat_app. reflexivity. Qed.

Lemma flat_drop_length k clauses : length (flat (drop k clauses)) ≤ length (flat clauses).
Proof.
  rewrite <- (take_drop k clauses) at 2. rewrite flat_app, length_app. lia.
Qed.

Lemma peek_not_else q rest :
  cats q = rest → next_not [Else] rest → category (peek_word q) ≠ Else.
Proof.
  intros E Hn. apply (peek_next_not_one q [Else] rest Else E Hn); [not_in_list|in_list].
Qed.

(** The rest of a selection statement, from its closing parenthesis: the
    then-branch takes some of the [else] parts that follow, and the
    statement the next one, if there is one left. *)
Lemma selection_stmt_complete N p e q s cl rest :
  statements_accepted N →
  category (peek_word p) = If →
  category (peek_word (advance p)) = OpenParen →
  evals parse_expression (advance (advance p)) e q →
  category (peek_word q) = CloseParen →
  Grammar.derives Grammar.statement s →
  Forall (Grammar.derives Grammar.statement) cl →
  next_not [Else] rest →
  cats (advance q) = s ++ flat cl ++ rest →
  length s + length (flat cl) < N →
  ∃ x p' k, evals parse_statement p x p' ∧
            cats p' = flat (drop k cl) ++ rest ∧ (cl = [] ∨ 1 ≤ k).
Proof.
  intros Hacc Hif Hopen Ee Hclose Hs Hcl Hn Hq Hlen.
  destruct (Hacc s cl rest (advance q) Hlen Hs Hcl Hn Hq) as (x1 & q2 & k & E1 & Hq2).
  destruct (drop k cl) as [|c cl'] eqn:Hdrop.
  - cbn in Hq2. exists (SelectionStmt e x1 None), q2, k.
    split; [|split].
    + apply (parse_statement_if p e q x1 q2); try assumption.
      exact (peek_not_else q2 rest Hq2 Hn).
    + rewrite Hdrop. exact Hq2.
    + destruct cl as [|c0 cl0]; [left; reflexivity|right].
      destruct k; [discriminate|lia].
  - rewrite flat_cons in Hq2. normalize_cats Hq2.
    assert (Hc : Grammar.derives Grammar.statement c ∧
                 Forall (Grammar.derives Grammar.statement) cl').
    { apply Forall_cons. rewrite <- Hdrop. apply Forall_drop. exact Hcl. }
    destruct Hc as [Hc Hcl'].
    pose proof (flat_drop_length k cl) as Hle. rewrite Hdrop, flat_cons in Hle.
    cbn [length] in Hle. rewrite length_app in Hle.
    destruct (Hacc c cl' rest (advance q2) ltac:(lia) Hc Hcl' Hn
                (cats_advance _ _ _ Hq2)) as (x2 & q3 & k2 & E2 & Hq3).
    exists (SelectionStmt e x1 (Some x2)), q3, (k + 1 + k2).
    split; [|split; [|right; lia]].
    + apply (parse_statement_if_else p e q x1 q2 x2 q3); try assumption.
      exact (cats_peek _ _ _ Hq2).
    + rewrite Hq3. f_equal. f_equal.
      rewrite <- !drop_drop, Hdrop. reflexivity.
Qed.

Lemma statements_are_accepted N : statements_accepted N.
Proof.
  induction N as [|N IH]; intros cs clauses rest p Hlen Hd Hcl Hn Hp; [lia|].
  inversion Hd; subst;
    match goal with
    | H : Grammar.derives _ cs |- _ => inversion H; subst; clear H
    end;
    normalize_cats Hp; rewrite ?length_app in Hlen; cbn [length] in Hlen.
  - (* <expression> ; *)
    match goal with
    | H : Grammar.derives Grammar.expression _ |- _ =>
        destruct (derives_expression_complete _ _ H p _ Hp) as (x & q & E & Hq);
          [cbn; no_eof|]
    end.
    exists (ExprStmt x), (advance q), 0. split; [|exact (cats_advance _ _ _ Hq)].
    exact (parse_statement_expression p x q E (cats_peek _ _ _ Hq)).
  - (* ; *)
    exists NullStmt, (advance p), 0. split; [|exact (cats_advance _ _ _ Hp)].
    exact (parse_statement_null p (cats_peek _ _ _ Hp)).
  - (* { ... } *)
    match goal with
    | Hds : Grammar.derives Grammar.local_declarations _,
      Hss : Grammar.derives Grammar.statement_list _ |- _ =>
        destruct (compound_stmt_complete N CompoundStmtFlag _ _ IH Hds Hss ltac:(lia)
                    p _ Hp) as (x & q & E & Hq)
    end.
    exists x, q, 0. split; [|exact Hq].
    exact (parse_statement_compound p x q (cats_peek _ _ _ Hp) E).
  - (* if ( e ) s *)
    pose proof (cats_advance _ _ _ Hp) as Hp1.
    pose proof (cats_advance _ _ _ Hp1) as Hp2.
    match goal with
    | H : Grammar.derives Grammar.expression _ |- _ =>
        destruct (derives_expression_complete _ _ H _ _ Hp2) as (x & q & E & Hq);
          [cbn; no_eof|]
    end.
    match goal with
    | Hs : Grammar.derives Grammar.statement _ |- _ =>
        destruct (selection_stmt_complete N p x q _ clauses rest IH
                    (cats_peek _ _ _ Hp) (cats_peek _ _ _ Hp1) E (cats_peek _ _ _ Hq)
                    Hs Hcl Hn (cats_advance _ _ _ Hq) ltac:(lia))
          as (y & p' & k & Ey & Hp' & _)
    end.
    exists y, p', k. split; assumption.
  - (* if ( e ) s1 else s2 *)
    pose proof (cats_advance _ _ _ Hp) as Hp1.
    pose proof (cats_advance _ _ _ Hp1) as Hp2.
    match goal with
    | H : Grammar.derives Grammar.expression _ |- _ =>
        destruct (derives_expression_complete _ _ H _ _ Hp2) as (x & q & E & Hq);
          [cbn; no_eof|]
    end.
    match goal with
    | Hs1 : Grammar.derives Grammar.statement ?s1,
      Hs2 : Grammar.derives Grammar.statement ?s2 |- _ =>
        destruct (selection_stmt_complete N p x q s1 (s2 :: clauses) rest IH
                    (cats_peek _ _ _ Hp) (cats_peek _ _ _ Hp1) E (cats_peek _ _ _ Hq)
                    Hs1 (Forall_cons_2 _ _ _ Hs2 Hcl) Hn)
          as (y & p' & k & Ey & Hp' & [Hnil | Hk])
    end.
    + rewrite flat_cons. cbn [app]. rewrite <- ?app_assoc.
      exact (cats_advance _ _ _ Hq).
    + rewrite flat_cons. cbn [length]. rewrite length_app. lia.
    + discriminate.
    + destruct k as [|k]; [lia|]. cbn [drop] in Hp'.
      exists y, p', k. split; assumption.
  - (* while ( e ) s *)
    pose proof (cats_advance _ _ _ Hp) as Hp1.
    pose proof (cats_advance _ _ _ Hp1) as Hp2.
    match goal with
    | H : Grammar.derives Grammar.expression _ |- _ =>
        destruct (derives_expression_complete _ _ H _ _ Hp2) as (x & q & E & Hq);
          [cbn; no_eof|]
    end.
    match goal with
    | Hs : Grammar.derives Grammar.statement ?s |- _ =>
        destruct (IH s clauses rest (advance q) ltac:(lia) Hs Hcl Hn
                    (cats_advance _ _ _ Hq)) as (y & p' & k & Ey & Hp')
    end.
    exists (IterationStmt x y), p', k. split; [|exact Hp'].
    exact (parse_statement_while p x q y p' (cats_peek _ _ _ Hp) (cats_peek _ _ _ Hp1) E
             (cats_peek _ _ _ Hq) Ey).
  - (* return ; *)
    pose proof (cats_advance _ _ _ Hp) as Hp1.
    destruct (parse_statement_return p (cats_peek _ _ _ Hp) (cats_peek _ _ _ Hp1))
      as (x & E).
    exists x, (advance (advance p)), 0. split; [exact E|exact (cats_advance _ _ _ Hp1)].
  - (* return e ; *)
    pose proof (cats_advance _ _ _ Hp) as Hp1.
    match goal with
    | H : Grammar.derives Grammar.expression _ |- _ =>
        destruct (derives_expression_complete _ _ H _ _ Hp1) as (x & q & E & Hq);
          [cbn; no_eof|]
    end.
    destruct (parse_statement_return_value p x q (cats_peek _ _ _ Hp) E
                (cats_peek _ _ _ Hq)) as (y & Ey).
    exists y, (advance q), 0. split; [exact Ey|exact (cats_advance _ _ _ Hq)].
Qed.

(** *** Declarations of functions *)

Lemma param_complete x :
  Grammar.derives Grammar.param x →
  ∀ p rest, cats p = x ++ rest → next_not [OpenBracket] rest →
    ∃ d p', parse_param p = Returns (Some d) p' ∧ cats p' = rest ∧
            category (lookahead 1 p) = Identifier.
Proof.
  intros H p rest Hp Hn. inversion H; subst;
    match goal with
    | Ht : Grammar.derives Grammar.type_specifier _ |- _ =>
        apply derives_type_specifier_inv in Ht as (c & -> & Hc)
    end; cbn [app] in Hp;
    pose proof (cats_advance _ _ _ Hp) as Hp1;
    pose proof (cats_advance _ _ _ Hp1) as Hp2.
  - destruct (run_action (act_on_param_decl (peek_word p) (peek_word (advance p)) false)
                (advance (advance p))) as [d Hd].
    eexists d, _. split; [|split].
    + unfold parse_param.
      rewrite bind_run, expect_and_consume_type_match
        by (rewrite (cats_peek _ _ _ Hp); exact Hc).
      cbn [fst snd].
      rewrite bind_run, (expect_and_consume_match _ _ (cats_peek _ _ _ Hp1)).
      cbn [fst snd]. rewrite bind_run. unfold optional.
      rewrite try_consume_not_in.
      * cbn [fst snd]. unfold bind at 1, ret. exact Hd.
      * exact (peek_next_not _ _ _ Hp2 Hn ltac:(not_in_list)).
    + rewrite (cats_sema_action _). exact Hp2.
    + exact (cats_lookahead_1 _ _ _ _ Hp).
  - pose proof (cats_advance _ _ _ Hp2) as Hp3.
    destruct (run_action (act_on_param_decl (peek_word p) (peek_word (advance p)) true)
                (advance (advance (advance (advance p))))) as [d Hd].
    eexists d, _. split; [|split].
    + unfold parse_param.
      rewrite bind_run, expect_and_consume_type_match
        by (rewrite (cats_peek _ _ _ Hp); exact Hc).
      cbn [fst snd].
      rewrite bind_run, (expect_and_consume_match _ _ (cats_peek _ _ _ Hp1)).
      cbn [fst snd]. rewrite bind_run. unfold optional.
      rewrite try_consume_in by (rewrite (cats_peek _ _ _ Hp2); in_list).
      cbn [fst snd]. unfold bind at 1.
      rewrite bind_run, (expect_and_consume_match _ _ (cats_peek _ _ _ Hp3)).
      cbn [fst snd ret]. exact Hd.
    + rewrite (cats_sema_action _). exact (cats_advance _ _ _ Hp3).
    + exact (cats_lookahead_1 _ _ _ _ Hp).
Qed.

Lemma param_list_rest_loop_fuel fd (u : unit) n :
  refines (param_list_rest n fd) (param_list_rest (S n) fd).
Proof. apply param_list_rest_fuel. Qed.

Lemma param_list_rest_stops fd q :
  category (peek_word q) = CloseParen →
  evals (fun n => param_list_rest n fd) q tt q.
Proof.
  intros H. exists 1. cbn [param_list_rest]. rewrite bind_get. unfold peek_is.
  rewrite bool_decide_eq_true_2 by exact H. reflexivity.
Qed.

Lemma param_list_rest_goes_on fd q d q2 :
  category (peek_word q) = Comma →
  parse_param (advance q) = Returns (Some d) q2 →
  loop_to (fun n (_ : unit) => param_list_rest n fd) tt q tt (snd (add_param fd d q2)).
Proof.
  intros H E r p'' [m Em]. exists (S m). cbn [param_list_rest].
  rewrite bind_get. unfold peek_is.
  rewrite bool_decide_eq_false_2 by (rewrite H; discriminate). cbn [negb].
  rewrite bind_run, (expect_and_consume_match _ _ H). cbn [fst snd].
  rewrite (bind_some _ _ _ _ _ E). rewrite bind_run. cbn [add_param fst snd].
  exact Em.
Qed.

Lemma param_list_complete nt ps :
  Grammar.derives nt ps → nt = Grammar.param_list →
  ∀ p rest fd, cats p = ps ++ rest → next_not [OpenBracket] rest →
    ∃ d q q',
      parse_param p = Returns (Some d) q ∧
      category (lookahead 1 p) = Identifier ∧
      loop_to (fun n (_ : unit) => param_list_rest n fd) tt (snd (add_param fd d q)) tt q' ∧
      cats q' = rest.
Proof.
  induction 1; intros Hnt; try discriminate; intros p0 rest fd Hp Hn.
  - normalize_cats Hp.
    destruct (IHderives1 eq_refl p0 _ fd Hp) as (d & q & q1 & Ed & Hid & Hloop & Hq1);
      [cbn; not_in_list|].
    destruct (param_complete _ H0 (advance q1) rest (cats_advance _ _ _ Hq1) Hn)
      as (d2 & q2 & E2 & Hq2 & _).
    exists d, q, (snd (add_param fd d2 q2)).
    split; [exact Ed|]. split; [exact Hid|]. split; [|exact Hq2].
    apply (loop_to_trans _ _ _ _ _ _ _ Hloop).
    exact (param_list_rest_goes_on fd q1 d2 q2 (cats_peek _ _ _ Hq1) E2).
  - destruct (param_complete _ H p0 rest Hp Hn) as (d & q & Ed & Hq & Hid).
    exists d, q, (snd (add_param fd d q)).
    split; [exact Ed|]. split; [exact Hid|]. split; [apply loop_to_refl | exact Hq].
Qed.

Lemma params_complete ps :
  Grammar.derives Grammar.params ps →
  ∀ p rest fd, cats p = ps ++ CloseParen :: rest →
    ∃ q, evals (fun n => parse_params n fd) p tt q ∧ cats q = CloseParen :: rest.
Proof.
  intros H p rest fd Hp. inversion H; subst.
  - destruct (param_list_complete _ _ H0 eq_refl p _ fd Hp)
      as (d & q & q' & Ed & Hid & Hloop & Hq'); [cbn; not_in_list|].
    exists q'. split; [|exact Hq'].
    destruct (Hloop tt q' (param_list_rest_stops fd q' (cats_peek _ _ _ Hq'))) as [n En].
    exists n. unfold parse_params. rewrite bind_get. unfold lookahead_is.
    rewrite (bool_decide_eq_false_2 (category (lookahead 1 p) = CloseParen))
      by (rewrite Hid; discriminate).
    rewrite andb_false_r. rewrite (bind_some _ _ _ _ _ Ed).
    rewrite bind_run. cbn [add_param fst snd]. exact En.
  - cbn [app] in Hp. exists (advance p). split; [|exact (cats_advance _ _ _ Hp)].
    exists 0. unfold parse_params. rewrite bind_get. unfold lookahead_is.
    rewrite (bool_decide_eq_true_2 (category (lookahead 0 p) = Void))
      by exact (cats_peek _ _ _ Hp).
    rewrite (bool_decide_eq_true_2 (category (lookahead 1 p) = CloseParen))
      by exact (cats_lookahead_1 _ _ _ _ Hp).
    cbn [andb]. rewrite bind_run. reflexivity.
Qed.

Lemma parse_params_loop_fuel fd n : refines (parse_params n fd) (parse_params (S n) fd).
Proof. apply parse_params_fuel. Qed.

Lemma fun_declaration_complete x :
  Grammar.derives Grammar.fun_declaration x →
  ∀ p rest, cats p = x ++ rest →
    ∃ d p', evals parse_fun_declaration p d p' ∧ cats p' = rest ∧
            category (lookahead 2 p) = OpenParen.
Proof.
  intros H p rest Hp. inversion H; subst.
  match goal with
  | Ht : Grammar.derives Grammar.type_specifier _ |- _ =>
      apply derives_type_specifier_inv in Ht as (c & -> & Hc)
  end.
  match goal with
  | Hb : Grammar.derives Grammar.compound_stmt _ |- _ => inversion Hb; subst
  end.
  normalize_cats Hp.
  pose proof (cats_advance _ _ _ Hp) as Hp1.
  pose proof (cats_advance _ _ _ Hp1) as Hp2.
  pose proof (cats_advance _ _ _ Hp2) as Hp3.
  set (p3 := advance (advance (advance p))) in *.
  set (fid := length (fun_decls (sema p3))).
  set (start := act_on_fun_decl_start (peek_word p) (peek_word (advance p)) p3).
  assert (Hstart : fst start = Some fid) by reflexivity.
  assert (Hp4 : cats (enter_scope FunParamsScope (snd start)) = cats p3).
  { exact (cats_sema_action (act_on_fun_decl_start _ _) p3). }
  rewrite Hp3 in Hp4.
  match goal with
  | Hps : Grammar.derives Grammar.params _ |- _ =>
      destruct (params_complete _ Hps _ _ fid Hp4) as (q & [n En] & Hq)
  end.
  match goal with
  | Hds : Grammar.derives Grammar.local_declarations _,
    Hss : Grammar.derives Grammar.statement_list ?ss |- _ =>
      destruct (compound_stmt_complete (S (length ss)) (flags_or CompoundStmtFlag FunScope)
                  _ _ (statements_are_accepted _) Hds Hss ltac:(lia)
                  (advance q) rest (cats_advance _ _ _ Hq)) as (body & q2 & [m Em] & Hq2)
  end.
  eexists _, (leave_scope (snd (set_body fid body q2))).
  split; [|split; [exact Hq2 | exact (cats_lookahead_2 _ _ _ _ _ Hp)]].
  exists (n + m). unfold parse_fun_declaration.
  rewrite bind_run, expect_and_consume_type_match
    by (rewrite (cats_peek _ _ _ Hp); exact Hc).
  cbn [fst snd].
  rewrite bind_run, (expect_and_consume_match _ _ (cats_peek _ _ _ Hp1)). cbn [fst snd].
  rewrite bind_run, (expect_and_consume_match _ _ (cats_peek _ _ _ Hp2)). cbn [fst snd].
  rewrite bind_run. fold p3. fold start. rewrite Hstart.
  assert (Hblock : with_scope FunParamsScope (parse_fun_params_and_body (n + m) fid)
                     (snd start) =
                   Returns (Some tt) (leave_scope (snd (set_body fid body q2)))).
  { unfold with_scope, parse_fun_params_and_body.
    rewrite (bind_some _ _ _ _ _
               (evals_le (fun k => parse_params k fid) n (n + m) _ _ _
                  (parse_params_loop_fuel fid) En ltac:(lia))).
    rewrite bind_run, (expect_and_consume_match _ _ (cats_peek _ _ _ Hq)).
    cbn [fst snd].
    rewrite (bind_some _ _ _ _ _
               (evals_le (fun k => parse_compound_stmt k _) m (n + m) _ _ _
                  (compound_stmt_fuel _) Em ltac:(lia))).
    reflexivity. }
  rewrite (bind_some _ _ _ _ _ Hblock). reflexivity.
Qed.

Lemma declaration_complete x :
  Grammar.derives Grammar.declaration x →
  ∀ p rest, cats p = x ++ rest →
    ∃ d p', evals parse_declaration p d p' ∧ cats p' = rest.
Proof.
  intros H p rest Hp. inversion H; subst.
  - destruct (var_declaration_complete _ H0 p rest Hp) as (d & p' & E & Hp').
    exists (DVar d), p'. split; [|exact Hp'].
    exists 0. unfold parse_declaration. rewrite bind_get. unfold lookahead_is.
    rewrite bool_decide_eq_false_2.
    + rewrite (bind_some _ _ _ _ _ E). reflexivity.
    + inversion H0; subst;
        match goal with
        | Ht : Grammar.derives Grammar.type_specifier _ |- _ =>
            apply derives_type_specifier_inv in Ht as (c & -> & Hc)
        end; cbn [app] in Hp; rewrite (cats_lookahead_2 _ _ _ _ _ Hp); discriminate.
  - destruct (fun_declaration_complete _ H0 p rest Hp) as (d & p' & [n E] & Hp' & Hl).
    exists (DFun d), p'. split; [|exact Hp'].
    exists n. unfold parse_declaration. rewrite bind_get. unfold lookahead_is.
    rewrite bool_decide_eq_true_2 by exact Hl.
    rewrite (bind_some _ _ _ _ _ E). reflexivity.
Qed.

Lemma declaration_list_loop_fuel prog n :
  refines (declaration_list n prog) (declaration_list (S n) prog).
Proof. apply declaration_list_fuel. Qed.

Lemma declaration_steps prog p d q :
  evals parse_declaration p d q →
  declarations_to prog p (mkProgram (program_decls prog ++ [d])) q.
Proof.
  intros [n E] r p'' [(He & -> & ->) | (Hne & [m Em])].
  - exists (S n). rewrite (declaration_list_stops_at_eof n prog p d q E).
    rewrite bool_decide_eq_true_2 by exact He. reflexivity.
  - exists (S (n + m)).
    rewrite (declaration_list_stops_at_eof (n + m) prog p d q
               (evals_le parse_declaration n (n + m) _ _ _ parse_declaration_fuel E
                  ltac:(lia))).
    rewrite bool_decide_eq_false_2 by exact Hne.
    exact (evals_le (fun k => declaration_list k _) m (n + m) _ _ _
             (declaration_list_loop_fuel _) Em ltac:(lia)).
Qed.

Lemma declaration_list_complete nt ds :
  Grammar.derives nt ds → nt = Grammar.declaration_list →
  ∀ p rest prog, cats p = ds ++ rest →
    ∃ prog' q', declarations_to prog p prog' q' ∧ cats q' = rest.
Proof.
  induction 1; intros Hnt; try discriminate; intros p0 rest prog Hp.
  - rewrite <- app_assoc in Hp.
    destruct (IHderives1 eq_refl p0 _ prog Hp) as (prog1 & q1 & Hto & Hq1).
    destruct (declaration_complete _ H0 q1 rest Hq1) as (x & q2 & Ex & Hq2).
    eexists _, q2. split; [|exact Hq2].
    intros r p'' Hcont. apply Hto. right. split.
    + destruct (derives_grammar_first _ _ H0) as (c & l & -> & Hc).
      rewrite (cats_peek _ _ _ Hq1). intros ->. revert Hc.
      cbv [first_declaration]. not_in_list.
    + exact (declaration_steps prog1 q1 x q2 Ex r p'' Hcont).
  - destruct (declaration_complete _ H p0 rest Hp) as (x & q2 & Ex & Hq2).
    eexists _, q2. split; [|exact Hq2].
    exact (declaration_steps prog p0 x q2 Ex).
Qed.

Lemma program_complete p :
  Grammar.derives Grammar.program (cats p) →
  ∃ prog p', evals parse_program p prog p' ∧ cats p' = [].
Proof.
  intros H. inversion H; subst.
  destruct (declaration_list_complete _ _ H0 eq_refl (enter_scope NoFlags p) []
              (mkProgram [])) as (prog & q & Hto & Hq).
  { rewrite app_nil_r. reflexivity. }
  destruct (Hto prog q) as [n En].
  { left. split; [|split; reflexivity].
    unfold cats in Hq. apply map_eq_nil in Hq. exact (peek_word_nil q Hq). }
  exists prog, (leave_scope q). split; [|exact Hq].
  exists n. unfold parse_program. rewrite bind_run.
  cbn [act_on_program_start fst snd]. rewrite (bind_some _ _ _ _ _ En). reflexivity.
Qed.

Lemma program_accepted_within_budget p :
  Grammar.derives Grammar.program (map category (words p)) →
  ∃ prog p', parse_program (fuel_for p) p = Returns (Some prog) p' ∧ words p' = [].
Proof.
  intros H. destruct (program_complete p H) as (prog & p' & [n E] & Hp').
  exists prog, p'. split; [|exact (map_eq_nil _ _ Hp')].
  assert (Hret : returns (parse_program (fuel_for p)) p).
  { apply parse_program_returns. unfold enough, fuel_for, remaining. lia. }
  unfold returns in Hret.
  destruct (parse_program (fuel_for p) p) as [r q|] eqn:Ef; [|contradiction].
  pose proof (refines_le parse_program parse_program_fuel (fuel_for p) (fuel_for p + n)
                ltac:(lia) p r q Ef) as E1.
  pose proof (evals_le parse_program n (fuel_for p + n) _ _ _ parse_program_fuel E
                ltac:(lia)) as E2.
  rewrite E1 in E2. exact E2.
Qed.

(** X11: the parser is complete for the grammar given at the bottom of
    [parser.cpp]: a word stream that <program> derives is accepted, every
    word of it consumed, the dangling [else] included, which the grammar
    leaves ambiguous and the parser gives to the nearest [if]. *)
Theorem derivable_program_is_accepted p :
  Grammar.derives Grammar.program (map category (words p)) →
  ∃ prog p', parse_program (fuel_for p) p = Returns (Some prog) p' ∧ words p' = [].
Proof. apply program_accepted_within_budget. Qed.

Lemma derives_identifier : Grammar.derives Grammar.expression [Identifier].
Proof.
  apply Grammar.expression_2, Grammar.simple_expression_2,
    Grammar.additive_expression_2, Grammar.term_2, Grammar.factor_2, Grammar.var_1.
Qed.

(** [int f(void) { if (a) if (b) x; else y; }], derived with the [else]
    given to the outer [if]: the parser accepts the stream. *)
Lemma derivable_program_is_accepted_witness :
  let p := make_parser "int f(void) { if (a) if (b) x; else y; }" in
  ∃ prog p', parse_program (fuel_for p) p = Returns (Some prog) p' ∧ words p' = [].
Proof.
  intros p. apply derivable_program_is_accepted.
  change (map category (words p)) with
    ([Int] ++ [Identifier; OpenParen] ++ [Void] ++ [CloseParen] ++
     ([OpenCurly] ++ [] ++
      ([] ++ ([If; OpenParen] ++ [Identifier] ++ [CloseParen] ++
              ([If; OpenParen] ++ [Identifier] ++ [CloseParen] ++
               ([Identifier] ++ [Semicolon])) ++
              [Else] ++ ([Identifier] ++ [Semicolon]))) ++
      [CloseCurly])).
  apply Grammar.program_1, Grammar.declaration_list_2, Grammar.declaration_2.
  apply Grammar.fun_declaration_1;
    [apply Grammar.type_specifier_1 | apply Grammar.params_2 |].
  apply Grammar.compound_stmt_1; [apply Grammar.local_declarations_2|].
  apply Grammar.statement_list_1; [apply Grammar.statement_list_2|].
  apply Grammar.statement_3, Grammar.selection_stmt_2.
  - exact derives_identifier.
  - apply Grammar.statement_3, Grammar.selection_stmt_1; [exact derives_identifier|].
    apply Grammar.statement_1, Grammar.expression_stmt_1, derives_identifier.
  - apply Grammar.statement_1, Grammar.expression_stmt_1, derives_identifier.
Defined.

Lemma derives_no_eof nt cs : Grammar.derives nt cs → Eof ∉ cs.
Proof.
  induction 1;
    repeat first [ assumption
                 | apply not_elem_of_nil
                 | apply not_elem_of_app; split
                 | apply not_elem_of_cons; split; [discriminate|] ].
Qed.

Lemma no_eof_word_cats p : Eof ∉ cats p → no_eof_word (words p).
Proof.
  unfold cats, no_eof_word. intros H. apply Forall_forall. intros w Hw Heq.
  apply H. rewrite <- Heq. apply list_elem_of_fmap. exists w. split; [reflexivity|exact Hw].
Qed.

(** X12: the language of the parser: the word streams that the grammar
    derives from <program> are those that [parse_program] accepts, that
    hold no word of category [Eof] and in which no [=] comes right after a
    closing parenthesis. *)
Theorem grammar_and_parser_agree p :
  Grammar.derives Grammar.program (map category (words p)) ↔
  (∃ prog p', parse_program (fuel_for p) p = Returns (Some prog) p') ∧
  no_eof_word (words p) ∧
  ¬ assign_after_paren (map category (words p)).
Proof.
  split.
  - intros H. split; [|split].
    + destruct (program_accepted_within_budget p H) as (prog & p' & E & _). eauto.
    + apply no_eof_word_cats. exact (derives_no_eof _ _ H).
    + intros (before & after & E). rewrite E in H.
      exact (derives_no_assign_after_paren _ _ _ H).
  - intros ((prog & p' & E) & Hall & Hok).
    exact (parse_program_accepts_sentences _ _ _ _ E Hall Hok).
Qed.

(** [int a[2]; void main(void) { a[0] = 1; }] is accepted, so it is a
    sentence of the grammar. *)
Lemma grammar_and_parser_agree_witness :
  let p := make_parser "int a[2]; void main(void) { a[0] = 1; }" in
  Grammar.derives Grammar.program (map category (words p)).
Proof.
  intros p. apply (proj2 (grammar_and_parser_agree p)).
  computed E (parse_program (fuel_for p) p).
  split; [eexists _, _; exact E|]. split.
  - apply no_eof_word_check. vm_compute. reflexivity.
  - apply (assign_follows_var_regular Eof). vm_compute. reflexivity.
Defined.

(** X13: the productions are complete for their non-terminals, from every
    state: the words of an <expression> are parsed by [parse_expression]
    when the word after them is none that goes on with an expression, those
    of a <statement> by [parse_statement] when the word after them is not
    [else], and those of a <declaration> by [parse_declaration]. *)
Theorem derivable_phrases_are_accepted cs :
  (Grammar.derives Grammar.expression cs →
   accepts parse_expression follow_expression cs) ∧
  (Grammar.derives Grammar.statement cs → accepts parse_statement [Else] cs) ∧
  (Grammar.derives Grammar.declaration cs → accepts parse_declaration [] cs).
Proof.
  split; [|split].
  - intros H. exact (derives_expression_complete _ _ H).
  - intros H p rest Hp Hn.
    destruct (statements_are_accepted (S (length cs)) cs [] rest p)
      as (s & p' & k & E & Hp'); try assumption.
    + cbn. lia.
    + constructor.
    + rewrite drop_nil in Hp'. exists s, p'. split; assumption.
  - intros H p rest Hp _. exact (declaration_complete _ H p rest Hp).
Qed.

(** [x] before a semicolon is an expression, and is parsed as one. *)
Lemma derivable_phrases_are_accepted_witness :
  let p := make_parser "x;" in
  ∃ e p', evals parse_expression p e p' ∧ cats p' = [Semicolon].
Proof.
  intros p.
  destruct (derivable_phrases_are_accepted [Identifier]) as (H & _).
  apply (H derives_identifier p [Semicolon]).
  - vm_compute. reflexivity.
  - vm_compute. intros Hin.
    repeat (apply elem_of_cons in Hin as [Hin|Hin]; [discriminate|]).
    apply elem_of_nil in Hin. exact Hin.
Defined.
(** ** The sentinel of the end of the input *)

Lemma keyword_or_identifier_declared s :
  keyword_or_identifier s ∈ declared_categories.
Proof.
  unfold keyword_or_identifier, declared_categories.
  repeat match goal with
         | |- context[if ?b then _ else _] => destruct b
         end; in_list.
Qed.

Lemma operator_declared s c k :
  operator s = Some (c, k) → c ∈ declared_categories.
Proof.
  unfold operator, declared_categories. intros H.
  repeat match type of H with
         | match ?x with _ => _ end = _ => destruct x; try discriminate
         end;
    inversion H; subst; in_list.
Qed.

(** The scanner gives the words of a source one of the 27 categories of
    source words. *)
Lemma scan_declared fuel :
  ∀ pos s, Forall (fun w => category w ∈ declared_categories) (fst (scan fuel pos s)).
Proof.
  induction fuel as [|fuel IH]; intros pos s; [apply Forall_nil_2|].
  cbn [scan]. destruct s as [|c rest]; [apply Forall_nil_2|].
  destruct (is_space c); [apply IH|].
  destruct (is_letter c).
  { apply Forall_cons_2; [apply keyword_or_identifier_declared | apply IH]. }
  destruct (is_digit c).
  { destruct (snd (span is_digit (String c rest))) as [|c' after].
    - apply Forall_cons_2; [in_list | apply Forall_nil_2].
    - destruct (is_letter c'); [apply IH|].
      apply Forall_cons_2; [in_list | apply IH]. }
  assert (Hop : Forall (fun w => category w ∈ declared_categories)
                  (fst match operator (String c rest) with
                       | Some (cat, k) =>
                           add_word (mkWord cat (mkRange pos (String.substring 0 k (String c rest))))
                             (scan fuel (pos + k) (drop_chars k (String c rest)))
                       | None =>
                           add_diag (mkDiagnostic pos lexer_bad_char [] [])
                             (scan fuel (S pos) rest)
                       end)).
  { destruct (operator (String c rest)) as [[cat k]|] eqn:Eo.
    - apply Forall_cons_2; [exact (operator_declared _ _ _ Eo) | apply IH].
    - apply IH. }
  destruct c as [[] [] [] [] [] [] [] []]; try exact Hop.
  destruct rest as [|c2 body]; [exact Hop|].
  destruct c2 as [[] [] [] [] [] [] [] []]; try exact Hop.
  destruct (skip_comment body 2) as [[k after]|]; [apply IH | apply Forall_nil_2].
Qed.

Lemma eof_not_declared : Eof ∉ declared_categories.
Proof.
  unfold declared_categories. intros H.
  repeat (apply elem_of_cons in H as [H|H]; [discriminate|]).
  apply elem_of_nil in H. exact H.
Qed.

Lemma scan_source_no_eof src : no_eof_word (fst (scan_source src)).
Proof.
  unfold no_eof_word, scan_source.
  eapply Forall_impl; [apply scan_declared|].
  intros w Hw E. cbv beta in Hw. rewrite E in Hw. exact (eof_not_declared Hw).
Qed.

(** [parse_program] returns a program with [Eof] in [peek_word]. *)
Lemma parse_program_ends_at_eof n p prog p' :
  parse_program n p = Returns (Some prog) p' → category (peek_word p') = Eof.
Proof.
  intros E. unfold parse_program in E.
  apply bind_some_inv in E as (prog0 & q & _ & E).
  apply bind_some_inv in E as (prog1 & q1 & Hlist & E).
  apply run_some_inv in E as [_ ->].
  apply declaration_list_ends_at_eof in Hlist as [Heof _]. exact Heof.
Qed.

(** C2: the end of the input is the category [Eof].  The categories are the
    27 of the words of a source and [Eof], which is none of them; the
    scanner gives every word of a source one of the 27, never [Eof]; when no
    word is left [peek_word] holds [Eof], and in a state reached from the
    parser of a source it holds [Eof] only then; the loop of [parse_program]
    stops after the declaration that leaves [Eof] in [peek_word] and goes on
    after any other; so the parse of a source returns, and when it returns a
    program [peek_word] holds [Eof] and no word is left. *)
Theorem eof_is_the_end_of_input_sentinel :
  (∀ c : Category, c = Eof ∨ c ∈ declared_categories) ∧
  (Eof ∉ declared_categories) ∧
  (∀ src w, w ∈ fst (scan_source src) →
     category w ∈ declared_categories ∧ category w ≠ Eof) ∧
  (∀ p, words p = [] → category (peek_word p) = Eof) ∧
  (∀ src p, ahead (make_parser src) p →
     (category (peek_word p) = Eof ↔ words p = [])) ∧
  (∀ n program p d p1,
     parse_declaration n p = Returns (Some d) p1 →
     declaration_list (S n) program p =
       if bool_decide (category (peek_word p1) = Eof)
       then Returns (Some (mkProgram (program_decls program ++ [d]))) p1
       else declaration_list n (mkProgram (program_decls program ++ [d])) p1) ∧
  (∀ src, ∃ r p', parse src = Returns r p' ∧
     (is_Some r → category (peek_word p') = Eof ∧ words p' = [])).
Proof.
  split; [intros []; first [left; reflexivity | right; in_list]|].
  split; [exact eof_not_declared|].
  split.
  { intros src w Hw.
    pose proof (scan_declared (S (String.length src)) 0 src) as Hall.
    rewrite Forall_forall in Hall. specialize (Hall w Hw). cbv beta in Hall.
    split; [exact Hall|]. intros E. rewrite E in Hall. exact (eof_not_declared Hall). }
  split; [exact peek_word_nil|].
  split.
  { intros src p Hahead. split; [|apply peek_word_nil].
    apply (ahead_at_eof _ _ Hahead). exact (scan_source_no_eof src). }
  split; [exact declaration_list_stops_at_eof|].
  intros src. unfold parse.
  pose proof (parse_program_returns (fuel_for (make_parser src)) (make_parser src)) as Hr.
  destruct (parse_program (fuel_for (make_parser src)) (make_parser src))
    as [r p'|] eqn:E.
  - exists r, p'. split; [reflexivity|]. intros [prog ->].
    pose proof (parse_program_ends_at_eof _ _ _ _ E) as Heof.
    split; [exact Heof|].
    apply (ahead_at_eof (make_parser src)); [|exact (scan_source_no_eof src)|exact Heof].
    exact (parse_program_only_consumes _ _ _ _ E).
  - exfalso. apply Hr; [|exact E]. unfold enough, fuel_for, remaining. lia.
Qed.


(** The empty program has [Eof] in [peek_word] from the start; [int x;] is
    one declaration, after which the loop stops at the end of the input. *)
Lemma eof_is_the_end_of_input_sentinel_witness :
  category (peek_word (make_parser empty_program)) = Eof ∧
  ∃ d p', parse "int x;" = Returns (Some (mkProgram [d])) p' ∧
          category (peek_word p') = Eof ∧ words p' = [].
Proof.
  destruct eof_is_the_end_of_input_sentinel as (_ & _ & _ & Hend & _ & _ & Hparse).
  split; [apply Hend; vm_compute; reflexivity|].
  destruct (Hparse "int x;") as (r & p' & E & Hr).
  computed E' (parse "int x;"). rewrite E' in E. inversion E; subst r p'.
  eexists _, _. split; [exact E'|]. apply Hr. eexists. reflexivity.
Defined.
(** ** Where parameters and locals are declared *)










Section frame.
Context {D : Type} (name : D → string) (sym : D → Symbol).






End frame.











